(** * Difference families (sage/combinat/designs/difference_family.py)

    A shallow embedding of the module's five functions

      - [group_law]
      - [cyclotomic_cosets]
      - [is_difference_family]
      - [_nonzero_and_have_distinct_images]
      - [difference_family]

    together with the properties of the verifier, of the image checker and
    of the constructor's dispatch.

    Python values live in one universe [A] of element values; a parent
    (a group or a finite field object) is a record of its methods.  Python
    integers are [Z].  A call either returns a value or raises: this is the
    [result] monad below.  The dictionaries [counter] and [to_coset] are
    [gmap]s, the set [images] is a [gset]. *)

From Stdlib Require Import ZArith Zpow_facts List Lia Bool.
From stdpp Require Import base decidable option list numbers gmap sets fin_maps.

Local Open Scope Z_scope.

(** ** Exceptions and the result monad *)

Inductive exn : Type :=
  | IndexError
  | KeyError
  | NameError
  | ValueError
  | ZeroDivisionError
  | AssertionError
  | EmptySetError
  | NotImplementedError
  | RuntimeError.

Inductive result (T : Type) : Type :=
  | Ret (x : T)
  | Raise (e : exn).

Arguments Ret {T} x.
Arguments Raise {T} e.

#[global] Instance result_ret : MRet result := fun T x => Ret x.
#[global] Instance result_bind : MBind result := fun T U f m =>
  match m with
  | Ret x => f x
  | Raise e => Raise e
  end.

(** Python's [%] and [//] on integers: floor semantics (the sign of the
    remainder follows the divisor, as for [Z.modulo]), and a zero divisor
    raises. *)
Definition py_mod (a b : Z) : result Z :=
  if decide (b = 0) then Raise ZeroDivisionError else Ret (a `mod` b).

Definition py_floordiv (a b : Z) : result Z :=
  if decide (b = 0) then Raise ZeroDivisionError else Ret (a `div` b).

(** [xrange(n)] and [xrange(a, b)]. *)
Definition xrange (n : Z) : list Z := seqZ 0 n.
Definition xrange2 (a b : Z) : list Z := seqZ a (b - a).

(** [l[i]] for a non-negative index. *)
Definition index {T : Type} (l : list T) (i : Z) : result T :=
  match l !! Z.to_nat i with
  | Some x => Ret x
  | None => Raise IndexError
  end.

(** Control flow of a loop body: go on with a new state, or [return b]. *)
Inductive ctl (S : Type) : Type :=
  | Continue (s : S)
  | Return (b : bool).

Arguments Continue {S} s.
Arguments Return {S} b.

Fixpoint for_each {X S : Type} (body : X -> S -> result (ctl S))
    (xs : list X) (s : S) : result (ctl S) :=
  match xs with
  | [] => Ret (Continue s)
  | x :: xs' =>
      match body x s with
      | Ret (Continue s') => for_each body xs' s'
      | r => r
      end
  end.

(** ** Parents: groups and finite fields

    The methods and operators the module uses on a parent [G] and on its
    elements.  [category_of] is the answer to the membership tests of
    [group_law]: [G in Groups()], then [G in CommutativeAdditiveGroups()]. *)

Inductive category : Type :=
  | Multiplicative     (* G in Groups() *)
  | Additive           (* G in CommutativeAdditiveGroups() *)
  | Unclassified.      (* neither *)

Record Parent (A : Type) : Type := {
  cardinality : Z;                 (* G.cardinality() *)
  elements : list A;               (* for g in G *)
  coerce : A -> A;                 (* G(x) *)
  category_of : category;
  zero : A;                        (* G.zero() *)
  add : A -> A -> A;               (* operator.add *)
  neg : A -> A;                    (* operator.neg *)
  one : A;                         (* G.one() *)
  mul : A -> A -> A;               (* operator.mul *)
  inv : A -> A;                    (* operator.inv *)
  pow : A -> Z -> A;               (* x ** n *)
  multiplicative_generator : A     (* K.multiplicative_generator() *)
}.

Arguments cardinality {A} _.
Arguments elements {A} _.
Arguments coerce {A} _ _.
Arguments category_of {A} _.
Arguments zero {A} _.
Arguments add {A} _ _ _.
Arguments neg {A} _ _.
Arguments one {A} _.
Arguments mul {A} _ _ _.
Arguments inv {A} _ _.
Arguments pow {A} _ _ _.
Arguments multiplicative_generator {A} _.

Definition sub {A : Type} (K : Parent A) (a b : A) : A := add K a (neg K b).

(** What [difference_family] returns: a truth value, [Unknown], or a pair
    [(K, D)]. *)
Inductive value (A : Type) : Type :=
  | VBool (b : bool)
  | VUnknown
  | VPair (K : Parent A) (D : list (list A)).

Arguments VBool {A} b.
Arguments VUnknown {A}.
Arguments VPair {A} K D.

Section Module.

Context {A : Type} `{Countable A}.

(** ** group_law

    When [G] is neither in [Groups()] nor in [CommutativeAdditiveGroups()],
    the [elif] goes on to evaluate [G in Modules(ZZ)].  The name [ZZ] is
    bound nowhere in the module (it imports [EmptySetError], [arith],
    [Unknown] and [Integer], and the function imports [operator], [Groups],
    [CommutativeAdditiveGroups] and [Modules]), so evaluating it raises
    [NameError]: the [else] branch with its [ValueError] is never reached. *)

Definition group_law (G : Parent A) : result (A * (A -> A -> A) * (A -> A)) :=
  match category_of G with
  | Multiplicative => Ret (one G, mul G, inv G)
  | Additive => Ret (zero G, add G, neg G)
  | Unclassified => Raise NameError
  end.

(** ** cyclotomic_cosets *)

Definition cyclotomic_cosets (K : Parent A) (e : Z)
    (cosets : option (list A)) (with_zero : bool) : result (list (list A)) :=
  let q := cardinality K in
  r ← py_mod q e;
  if decide (r = 1) then
    f ← py_floordiv (q - 1) e;
    let x := multiplicative_generator K in
    let cosets :=
      match cosets with
      | None => (fun i => pow K x i) <$> xrange e
      | Some c => c
      end in
    let xx := pow K x e in
    if with_zero then
      let z := zero K in
      Ret ((fun y => [z] ++ ((fun s => mul K y (pow K xx s)) <$> xrange f)) <$> cosets)
    else
      Ret ((fun y => (fun s => mul K y (pow K xx s)) <$> xrange f) <$> cosets)
  else Raise AssertionError.

(** ** is_difference_family

    [verbose] only prints; it is left out.  The three loops are written as
    the source has them; [pair_step] is the body of the innermost one and
    [count_difference] what it does with a difference [g]. *)

Definition count_difference (identity : A) (l : Z) (g : A)
    (counter : gmap A Z) : result (ctl (gmap A Z)) :=
  if decide (g = identity) then Ret (Return false)
  else
    match counter !! g with
    | None => Raise KeyError
    | Some c =>
        let counter' := <[g := c + 1]> counter in
        if decide (c + 1 > l) then Ret (Return false)
        else Ret (Continue counter')
    end.

Definition pair_step (identity : A) (op : A -> A -> A) (inv_ : A -> A)
    (l : Z) (dd : list A) (i j : Z) (counter : gmap A Z)
    : result (ctl (gmap A Z)) :=
  if decide (i = j) then Ret (Continue counter)
  else
    a ← index dd i;
    b ← index dd j;
    let g := op a (inv_ b) in
    count_difference identity l g counter.

Definition block_step (G : Parent A) (identity : A) (op : A -> A -> A)
    (inv_ : A -> A) (k l : Z) (d : list A) (counter : gmap A Z)
    : result (ctl (gmap A Z)) :=
  let dd := coerce G <$> d in
  for_each (fun i => for_each (fun j => pair_step identity op inv_ l dd i j)
                       (xrange k))
           (xrange k) counter.

Definition is_difference_family (G : Parent A) (D : list (list A))
    (v k l : option Z) : result bool :=
  let check_v :=
    match v with
    | None => Some (cardinality G)
    | Some v => if decide (cardinality G ≠ v) then None else Some v
    end in
  match check_v with
  | None => Ret false
  | Some v =>
    k ← match k with
         | None => d0 ← index D 0; Ret (Z.of_nat (length d0))
         | Some k => Ret k
         end;
    let b := Z.of_nat (length D) in
    if existsb (fun d => bool_decide (Z.of_nat (length d) ≠ k)) D then Ret false
    else
      check_l ←
        match l with
        | None =>
            r ← py_mod (b * k * (k - 1)) (v - 1);
            if decide (r ≠ 0) then Ret None
            else l ← py_floordiv (b * k * (k - 1)) (v - 1); Ret (Some l)
        | Some l =>
            if decide (b * k * (k - 1) ≠ l * (v - 1)) then Ret None
            else Ret (Some l)
        end;
      match check_l with
      | None => Ret false
      | Some l =>
        '(identity, op, inv_) ← group_law G;
        let counter : gmap A Z :=
          foldl (fun c g => <[g := 0]> c) ∅ (elements G) in
        counter ←
          match counter !! identity with
          | None => Raise KeyError
          | Some _ => Ret (delete identity counter)
          end;
        r ← for_each (block_step G identity op inv_ k l) D counter;
        match r with
        | Continue _ => Ret true
        | Return b => Ret b
        end
      end
  end.

(** ** _nonzero_and_have_distinct_images

    [elts] is an iterable (in [difference_family] a generator expression)
    and [images] a set that the function updates in place.  The model
    threads both: next to what the call returns, [images_after] is the set
    as the call leaves it and [consumed] the number of elements it pulled
    out of [elts].  [is_zero] is the elements' method [elt.is_zero()]. *)

Variable is_zero : A -> bool.

Record outcome : Type := {
  returned : result bool;
  images_after : gset Z;
  consumed : nat
}.

Fixpoint distinct_images_loop (elts : list A) (f : gmap A Z)
    (images : gset Z) (n : nat) : outcome :=
  match elts with
  | [] => {| returned := Ret true; images_after := images; consumed := n |}
  | elt :: rest =>
      if is_zero elt then
        {| returned := Ret false; images_after := images; consumed := S n |}
      else
        match f !! elt with
        | None =>
            {| returned := Raise KeyError; images_after := images;
               consumed := S n |}
        | Some i =>
            if decide (i ∈ images) then
              {| returned := Ret false; images_after := images;
                 consumed := S n |}
            else distinct_images_loop rest f ({[i]} ∪ images) (S n)
        end
  end.

Definition _nonzero_and_have_distinct_images (elts : list A) (f : gmap A Z)
    (images : option (gset Z)) : outcome :=
  let images := match images with None => ∅ | Some s => s end in
  distinct_images_loop elts f images 0.

(** ** difference_family

    What the function takes from outside this module:
      - [GF v]: the field [GF(v,'z')];
      - [is_prime_power], [is_square]: [sage.rings.arith];
      - [DF_constructions]: the table of [database.py]. *)

Variable GF : Z -> Parent A.
Variable is_prime_power : Z -> bool.
Variable is_square : Z -> bool.

(** Modelled from the spec: the table [DF_constructions] of [database.py],
    an immutable mapping from exact (v,k,l) triples to zero-argument
    constructors, each yielding a pair (group, family).  An entry is the
    pair its constructor yields. *)
Variable DF_constructions : gmap (Z * Z * Z) (Parent A * list (list A)).

(** Either the function has returned, or control falls through. *)
Inductive flow (T : Type) : Type :=
  | Returned (x : value A)
  | Fall (x : T).

Arguments Returned {T} x.
Arguments Fall {T} x.

(** [{x**i * xx**j: i for i in xrange(m) for j in xrange(n/m)}]; a later
    item overwrites an earlier one with the same key. *)
Definition coset_table (K : Parent A) (x xx : A) (m n : Z) : gmap A Z :=
  foldl (fun d (kv : A * Z) => <[kv.1 := kv.2]> d) ∅
    (concat ((fun i => (fun j => (mul K (pow K x i) (pow K xx j), i))
                         <$> xrange (n `div` m)) <$> xrange m)).

(** [[[x**(i*m) * b for b in B] for i in xrange(t)]] *)
Definition translates (K : Parent A) (x : A) (m t : Z) (B : list A)
    : list (list A) :=
  (fun i => (fun b => mul K (pow K x (i * m)) b) <$> B) <$> xrange t.

(** The difference-set constructions tried when [t == 1]. *)
Definition single_block (K : Parent A) (v k : Z) (existence : bool)
    : result (flow unit) :=
  if bool_decide (v `mod` 4 = 3) && bool_decide (k = (v - 1) `div` 2) then
    if existence then Ret (Returned (VBool true))
    else D ← cyclotomic_cosets K 2 (Some [one K]) false;
         Ret (Returned (VPair K D))
  else if bool_decide (v `mod` 8 = 5) && bool_decide (k = (v - 1) `div` 4)
          && is_square ((v - 1) `div` 4) then
    if existence then Ret (Returned (VBool true))
    else D ← cyclotomic_cosets K 4 (Some [one K]) false;
         Ret (Returned (VPair K D))
  else if bool_decide (v `mod` 8 = 5) && bool_decide (k = (v + 3) `div` 4)
          && is_square ((v - 9) `div` 4) then
    if existence then Ret (Returned (VBool true))
    else D ← cyclotomic_cosets K 4 (Some [one K]) true;
         Ret (Returned (VPair K D))
  else Ret (Fall tt).

(** Wilson (1972), Theorem 9: odd [k]. *)
Definition wilson_odd (K : Parent A) (v k t : Z) (existence : bool)
    : result (flow (option (list (list A)))) :=
  let x := multiplicative_generator K in
  let m := (k - 1) `div` 2 in
  let xx := pow K x m in
  let to_coset := coset_table K x xx m (v - 1) in
  e ← py_floordiv (v - 1) k;
  let r := pow K x e in
  ok ← returned (_nonzero_and_have_distinct_images
                   ((fun j => sub K (pow K r j) (one K)) <$> xrange2 1 (m + 1))
                   to_coset None);
  if ok : bool then
    if existence then Ret (Returned (VBool true))
    else
      let B := (fun j => pow K r j) <$> xrange k in
      Ret (Fall (Some (translates K x m t B)))
  else Ret (Fall None).

(** Wilson (1972), Theorem 10: even [k]. *)
Definition wilson_even (K : Parent A) (v k t : Z) (existence : bool)
    : result (flow (option (list (list A)))) :=
  let x := multiplicative_generator K in
  let m := k `div` 2 in
  let xx := pow K x m in
  let to_coset := coset_table K x xx m (v - 1) in
  e ← py_floordiv (v - 1) (k - 1);
  let r := pow K x e in
  ok ← returned (_nonzero_and_have_distinct_images
                   ((fun j => sub K (pow K r j) (one K)) <$> xrange2 1 m)
                   to_coset (Some {[0]}));
  if ok : bool then
    if existence then Ret (Returned (VBool true))
    else
      let B := [zero K] ++ ((fun j => pow K r j) <$> xrange (k - 1)) in
      Ret (Fall (Some (translates K x m t B)))
  else Ret (Fall None).

(** Wilson (1972), Theorem 11: the search over [c in to_coset]; the keys
    come in the dictionary's iteration order. *)
Fixpoint search_c (K : Parent A) (r : A) (to_coset : gmap A Z)
    (cs : list A) : result (option A) :=
  match cs with
  | [] => Ret None
  | c :: cs' =>
      ok ← returned (_nonzero_and_have_distinct_images
                       [sub K r (one K); mul K c (sub K r (one K));
                        sub K c (one K); sub K c r; sub K c (pow K r 2)]
                       to_coset None);
      if ok : bool then Ret (Some c) else search_c K r to_coset cs'
  end.

Definition wilson_6 (K : Parent A) (v t : Z) (existence : bool)
    : result (flow (option (list (list A)))) :=
  let x := multiplicative_generator K in
  let r := pow K x ((v - 1) `div` 3) in
  let xx := pow K x 5 in
  let to_coset := coset_table K x xx 5 (v - 1) in
  found ← search_c K r to_coset (map_to_list to_coset).*1;
  match found with
  | Some c =>
      if existence then Ret (Returned (VBool true))
      else
        let B := [one K; r; pow K r 2; c; mul K c r; mul K c (pow K r 2)] in
        Ret (Fall (Some (translates K x 5 t B)))
  | None => Ret (Fall None)
  end.

(** Sequencing of two pieces of the body: the second runs only when the
    first has not returned. *)
Definition and_then {T U : Type} (m : result (flow T))
    (k : T -> result (flow U)) : result (flow U) :=
  match m with
  | Ret (Returned x) => Ret (Returned x)
  | Ret (Fall y) => k y
  | Raise e => Raise e
  end.

(** The part of the body under [if arith.is_prime_power(v):]. *)
Definition prime_power_case (v k l t : Z) (existence : bool)
    : result (flow (option (Parent A * list (list A)))) :=
  let K := GF v in
  if decide (l = k - 1) then
    if existence then Ret (Returned (VBool true))
    else
      e ← py_floordiv (v - 1) k;
      D ← cyclotomic_cosets K e None false;
      Ret (Returned (VPair K D))
  else
    and_then (if decide (t = 1) then single_block K v k existence
              else Ret (Fall tt)) (fun _ =>
    if decide (l ≠ 1) then Raise NotImplementedError
    else
      and_then (if decide (k `mod` 2 = 1) then wilson_odd K v k t existence
                else wilson_even K v k t existence) (fun D =>
      and_then (match D with
                | None => if decide (k = 6) then wilson_6 K v t existence
                          else Ret (Fall None)
                | Some D => Ret (Fall (Some D))
                end) (fun D =>
      Ret (Fall (match D with
                 | None => None
                 | Some D => Some (K, D)
                 end))))).

Definition difference_family (v k l : Z) (existence check : bool)
    : result (value A) :=
  r ← py_mod (l * (v - 1)) (k * (k - 1));
  if decide (r ≠ 0) then
    if existence then Ret (VBool false) else Raise EmptySetError
  else
    match DF_constructions !! (v, k, l) with
    | Some entry => Ret (VPair entry.1 entry.2)
    | None =>
      let e := k * (k - 1) in
      t ← py_floordiv (l * (v - 1)) e;
      pp ← (if is_prime_power v then prime_power_case v k l t existence
            else Ret (Fall None));
      match pp with
      | Returned x => Ret x
      | Fall None =>
          if existence then Ret VUnknown else Raise NotImplementedError
      | Fall (Some (K, D)) =>
          ok ← (if check then is_difference_family K D None None None
                else Ret true);
          if check && negb ok then Raise RuntimeError
          else Ret (VPair K D)
      end
    end.

End Module.

(** ** Concrete parents for evaluation: the rings Z/nZ *)

(** Sage's [Zmod(n)], which for a prime [n] is the field [GF(n)]; [g] is
    the multiplicative generator the field object hands out. *)
Definition Zmod (n g : Z) : Parent Z := {|
  cardinality := n;
  elements := seqZ 0 n;
  coerce := fun x => x `mod` n;
  category_of := Additive;
  zero := 0;
  add := fun a b => (a + b) `mod` n;
  neg := fun a => (- a) `mod` n;
  one := 1 `mod` n;
  mul := fun a b => (a * b) `mod` n;
  inv := fun a => (a ^ (n - 2)) `mod` n;
  pow := fun a e =>
    if decide (e < 0) then (((a ^ (n - 2)) `mod` n) ^ (- e)) `mod` n
    else (a ^ e) `mod` n;
  multiplicative_generator := g
|}.

Definition Z_is_zero (a : Z) : bool := bool_decide (a = 0).

(** [arith.is_square] and [arith.is_prime_power] on integers. *)
Definition Z_is_square (n : Z) : bool :=
  bool_decide (0 ≤ n) && bool_decide (Z.sqrt n * Z.sqrt n = n).

Definition smallest_factor (n : Z) : Z :=
  match filter (fun d => n `mod` d = 0) (seqZ 2 (n - 1)) with
  | d :: _ => d
  | [] => n
  end.

Fixpoint strip_factor (fuel : nat) (p n : Z) : Z :=
  match fuel with
  | O => n
  | S fuel' => if decide (n `mod` p = 0 ∧ 1 < n) then strip_factor fuel' p (n `div` p) else n
  end.

Definition Z_is_prime_power (n : Z) : bool :=
  bool_decide (2 ≤ n) &&
  bool_decide (strip_factor (Z.to_nat n) (smallest_factor n) n = 1).

(** The multiplicative generator of the prime field of order [p]: the
    least primitive root modulo [p]. *)
Definition is_primitive_root (p g : Z) : bool :=
  forallb (fun k => negb (bool_decide ((g ^ k) `mod` p = 1))) (seqZ 1 (p - 2)).

Definition primitive_root (p : Z) : Z :=
  match filter (fun g => is_primitive_root p g = true) (seqZ 1 (p - 1)) with
  | g :: _ => g
  | [] => 0
  end.

(** [GF(p)] for a prime [p]. *)
Definition GFp (p : Z) : Parent Z := Zmod p (primitive_root p).

(** * Vocabulary of the properties *)

Section Vocabulary.

Context {A : Type} `{Countable A}.

(** The contract of the image checker in the words of its docstring: the
    elements are non zero, mapped by [f] to distinct values, and these are
    distinct from the provided ones. *)
Definition nonzero_distinct (is_zero : A -> bool) (elts : list A)
    (f : gmap A Z) (images : gset Z) : Prop :=
  Forall (fun e => is_zero e = false) elts ∧
  ∃ ims : list Z,
    Forall2 (fun e i => f !! e = Some i) elts ims ∧
    NoDup ims ∧
    Forall (fun i => i ∉ images) ims.

(** The number of elements a call of the checker consumed before the first
    violation: all of them when it returns [True], all but the last one
    otherwise. *)
Definition accepted (o : outcome) : nat :=
  match returned o with
  | Ret true => consumed o
  | _ => pred (consumed o)
  end.

(** The differences [x - y] within a block, one for every ordered pair of
    distinct positions, and the multiset (as a list) of the differences
    within the blocks of a family, written Delta D in the docstring of
    [difference_family]. *)
Definition block_differences (op : A -> A -> A) (inv_ : A -> A)
    (dd : list A) : list A :=
  i ← seq 0 (length dd);
  j ← seq 0 (length dd);
  if decide (i = j) then []
  else match dd !! i, dd !! j with
       | Some a, Some b => [op a (inv_ b)]
       | _, _ => []
       end.

Definition differences (G : Parent A) (op : A -> A -> A) (inv_ : A -> A)
    (D : list (list A)) : list A :=
  d ← D; block_differences op inv_ (coerce G <$> d).

Definition occurrences (g : A) (l : list A) : nat :=
  length (filter (fun x => x = g) l).

(** [G] is a group: [group_law] classifies it and hands out its identity,
    operation and inverse; iterating over [G] yields every element once,
    [G.cardinality()] many; and the group axioms hold on these elements. *)
Record IsGroup (G : Parent A) (identity : A) (op : A -> A -> A)
    (inv_ : A -> A) : Prop := {
  group_law_eq : group_law G = Ret (identity, op, inv_);
  cardinality_eq : cardinality G = Z.of_nat (length (elements G));
  elements_NoDup : NoDup (elements G);
  identity_in : identity ∈ elements G;
  op_in : ∀ x y, x ∈ elements G → y ∈ elements G → op x y ∈ elements G;
  inv_in : ∀ x, x ∈ elements G → inv_ x ∈ elements G;
  op_assoc : ∀ x y z, x ∈ elements G → y ∈ elements G → z ∈ elements G →
             op x (op y z) = op (op x y) z;
  op_id_l : ∀ x, x ∈ elements G → op identity x = x;
  op_id_r : ∀ x, x ∈ elements G → op x identity = x;
  op_inv_l : ∀ x, x ∈ elements G → op (inv_ x) x = identity;
  op_inv_r : ∀ x, x ∈ elements G → op x (inv_ x) = identity
}.

(** [K] is a finite field of [K.cardinality()] elements, seen through the
    operations the module uses: its additive group is a group in the sense
    above, coercing an element of [K] into [K] gives the element back,
    multiplication is commutative, distributes over addition and has no
    zero divisors, and the powers [x**0 .. x**(q-2)] of the multiplicative
    generator [x] are the non-zero elements, each once, with [x**(q-1)]
    equal to [1]. *)
Record IsField (K : Parent A) : Prop := {
  field_additive : IsGroup K (zero K) (add K) (neg K);
  field_coerce : ∀ y, y ∈ elements K → coerce K y = y;
  mul_in : ∀ a b, a ∈ elements K → b ∈ elements K →
           mul K a b ∈ elements K;
  mul_comm : ∀ a b, a ∈ elements K → b ∈ elements K →
             mul K a b = mul K b a;
  mul_one_r : ∀ a, a ∈ elements K → mul K a (one K) = a;
  mul_add_distr : ∀ a b c, a ∈ elements K → b ∈ elements K →
                  c ∈ elements K →
                  mul K a (add K b c) = add K (mul K a b) (mul K a c);
  mul_integral : ∀ a b, a ∈ elements K → b ∈ elements K →
                 mul K a b = zero K → a = zero K ∨ b = zero K;
  pow_0 : pow K (multiplicative_generator K) 0 = one K;
  pow_add : ∀ a b, 0 ≤ a → 0 ≤ b →
            pow K (multiplicative_generator K) (a + b) =
            mul K (pow K (multiplicative_generator K) a)
                  (pow K (multiplicative_generator K) b);
  pow_pow : ∀ a b, 0 ≤ a → 0 ≤ b →
            pow K (pow K (multiplicative_generator K) a) b =
            pow K (multiplicative_generator K) (a * b);
  pow_order : pow K (multiplicative_generator K) (cardinality K - 1) = one K;
  pow_in : ∀ a, 0 ≤ a →
           pow K (multiplicative_generator K) a ∈ elements K;
  pow_nonzero : ∀ a, 0 ≤ a < cardinality K - 1 →
                pow K (multiplicative_generator K) a ≠ zero K;
  pow_inj : ∀ a b, 0 ≤ a < cardinality K - 1 → 0 ≤ b < cardinality K - 1 →
            pow K (multiplicative_generator K) a =
            pow K (multiplicative_generator K) b → a = b;
  pow_all : ∀ y, y ∈ elements K → y ≠ zero K →
            ∃ a, 0 ≤ a < cardinality K - 1 ∧
                 y = pow K (multiplicative_generator K) a;
  one_nonzero : one K ≠ zero K
}.

(** The coset of [x**i] under the [e]-th powers, [x] the multiplicative
    generator, listed as [x**i * (x**e)**s] for [s = 0 .. k-1]. *)
Definition coset_block (K : Parent A) (e k i : Z) : list A :=
  (fun s => pow K (multiplicative_generator K) (i + e * s)) <$> xrange k.

(** The positions of the differences within the cosets of index [e]: the
    coset [i] and two distinct positions [s], [s'] in it; and the
    difference found there. *)
Definition coset_pairs (e k : Z) : list (Z * nat * nat) :=
  i ← xrange e;
  s ← seq 0 (Z.to_nat k);
  s' ← seq 0 (Z.to_nat k);
  if decide (s = s') then [] else [(i, s, s')].

Definition coset_difference (K : Parent A) (e : Z) (t : Z * nat * nat) : A :=
  sub K (pow K (multiplicative_generator K) (t.1.1 + e * Z.of_nat t.1.2))
        (pow K (multiplicative_generator K) (t.1.1 + e * Z.of_nat t.2)).

(** A block translated by a group element: every [x] becomes [op(x, g)]. *)
Definition translate_block (op : A -> A -> A) (g : A) (d : list A) : list A :=
  (fun x => op x g) <$> d.

(** [D'] is [D] with its blocks put in another order and the elements
    of each block put in another order. *)
Definition reordered (D D' : list (list A)) : Prop :=
  ∃ D'', D ≡ₚ D'' ∧ Forall2 (fun d d' => d ≡ₚ d') D'' D'.

End Vocabulary.

Section Phases.

Context {A : Type} `{Countable A}.

(** The body of [is_difference_family] in three phases, as it reads once
    [v] and [k] are known: the consistency of [l], then the counting. *)
Definition infer_l (b v k : Z) (l : option Z) : result (option Z) :=
  match l with
  | None =>
      r ← py_mod (b * k * (k - 1)) (v - 1);
      if decide (r ≠ 0) then Ret None
      else l ← py_floordiv (b * k * (k - 1)) (v - 1); Ret (Some l)
  | Some l =>
      if decide (b * k * (k - 1) ≠ l * (v - 1)) then Ret None
      else Ret (Some l)
  end.

Definition counting_phase (G : Parent A) (D : list (list A)) (k l : Z)
    : result bool :=
  '(identity, op, inv_) ← group_law G;
  let counter : gmap A Z :=
    foldl (fun c g => <[g := 0]> c) ∅ (elements G) in
  counter ←
    (match counter !! identity with
     | None => Raise KeyError
     | Some _ => Ret (delete identity counter)
     end : result (gmap A Z));
  r ← for_each (block_step G identity op inv_ k l) D counter;
  match r with
  | Continue _ => Ret true
  | Return b => Ret b
  end.

Definition checked_phase (G : Parent A) (D : list (list A)) (v k : Z)
    (l : option Z) : result bool :=
  if existsb (fun d => bool_decide (Z.of_nat (length d) ≠ k)) D then Ret false
  else
    check_l ← infer_l (Z.of_nat (length D)) v k l;
    match check_l with
    | None => Ret false
    | Some l => counting_phase G D k l
    end.

End Phases.

(** * Properties *)

(** ** The image distinctness checker *)

Section Checker.

Context {A : Type} `{Countable A}.
Variable is_zero : A -> bool.

Implicit Types (elts : list A) (f : gmap A Z) (images : gset Z).

(** Every run of the loop: it accepts a prefix, whose images it adds to
    the set, and then either reaches the end of [elts] or stops at the
    element after the prefix, for one of three reasons. *)
Lemma distinct_images_loop_run elts f images n :
  let o := distinct_images_loop is_zero elts f images n in
  ∃ (m : nat) (ims : list Z),
    Forall2 (fun e i => is_zero e = false ∧ f !! e = Some i) (take m elts) ims ∧
    NoDup ims ∧
    Forall (fun i => i ∉ images) ims ∧
    images_after o = list_to_set ims ∪ images ∧
    ((returned o = Ret true ∧ m = length elts ∧ consumed o = (n + m)%nat) ∨
     (∃ e, elts !! m = Some e ∧ consumed o = (n + S m)%nat ∧
        ((is_zero e = true ∧ returned o = Ret false) ∨
         (is_zero e = false ∧ f !! e = None ∧ returned o = Raise KeyError) ∨
         (is_zero e = false ∧ returned o = Ret false ∧
            ∃ i, f !! e = Some i ∧ i ∈ (list_to_set ims ∪ images : gset Z))))).
Proof.
  revert images n.
  induction elts as [|e elts IH]; intros images n; simpl.
  - exists 0%nat, []. split_and!; [constructor..|set_solver|].
    left. split_and!; [done|done|lia].
  - assert (Hstop : ∀ P : Prop, P →
      Forall2 (fun e i => is_zero e = false ∧ f !! e = Some i) (take 0 (e :: elts)) [] ∧
      NoDup (@nil Z) ∧ Forall (fun i => i ∉ images) [] ∧
      images = list_to_set [] ∪ images ∧ P).
    { intros P HP. split_and!; [constructor..|set_solver|done]. }
    destruct (is_zero e) eqn:Hz; simpl.
    { exists 0%nat, []. apply Hstop. right. exists e.
      split_and!; [done|lia|]. by left. }
    destruct (f !! e) as [i|] eqn:Hf; simpl.
    2:{ exists 0%nat, []. apply Hstop. right. exists e.
        split_and!; [done|lia|]. right; by left. }
    destruct (decide (i ∈ images)) as [Hin|Hin]; simpl.
    { exists 0%nat, []. apply Hstop. right. exists e.
      split_and!; [done|lia|]. right; right.
      split_and!; [done|done|]. exists i. set_solver. }
    destruct (IH ({[i]} ∪ images) (S n))
      as (m & ims & Hpre & Hnd & Hfresh & Himg & Hend).
    exists (S m), (i :: ims). simpl.
    assert (Hi : i ∉ ims).
    { intros Hi. rewrite Forall_forall in Hfresh. apply (Hfresh i Hi). set_solver. }
    split; [by constructor|].
    split; [by constructor|].
    split.
    { constructor; [done|]. eapply Forall_impl; [exact Hfresh|].
      intros j Hj; simpl in Hj. set_solver. }
    split; [rewrite Himg; set_solver|].
    destruct Hend as [(Hr & Hm & Hc)|(e' & He' & Hc & Hwhy)].
    + left. split_and!; [done|lia|lia].
    + right. exists e'. split_and!; [done|lia|].
      destruct Hwhy as [?|[?|(? & ? & i' & ? & ?)]]; [by left|right; by left|].
      right; right. split_and!; [done..|]. exists i'. set_solver.
Qed.

Lemma images_functional f (l : list A) (ims ims' : list Z) :
  Forall2 (fun e i => f !! e = Some i) l ims →
  Forall2 (fun e i => f !! e = Some i) l ims' →
  ims = ims'.
Proof.
  intros H1; revert ims'.
  induction H1 as [|e i l ims He _ IH]; intros ims' H2.
  - by apply Forall2_nil_inv_l in H2.
  - apply Forall2_cons_inv_l in H2 as (i' & ims'' & He' & H2 & ->).
    rewrite He in He'. injection He' as ->. f_equal. by apply IH.
Qed.

Lemma nonzero_distinct_take elts f images n :
  nonzero_distinct is_zero elts f images → nonzero_distinct is_zero (take n elts) f images.
Proof.
  intros (Hz & ims & Hf & Hnd & Hfresh).
  split; [by apply Forall_take|].
  exists (take n ims). split_and!.
  - by apply Forall2_take.
  - eapply sublist_NoDup; [done|apply sublist_take].
  - by apply Forall_take.
Qed.

Lemma accepted_prefix_distinct (pre : list A) f images (ims : list Z) :
  Forall2 (fun e i => is_zero e = false ∧ f !! e = Some i) pre ims →
  NoDup ims → Forall (fun i => i ∉ images) ims →
  nonzero_distinct is_zero pre f images.
Proof.
  intros Hpre Hnd Hfresh. split.
  - clear Hnd Hfresh. induction Hpre as [|???? [? _] _ IH]; constructor; auto.
  - exists ims. split_and!; [|done..].
    eapply Forall2_impl; [exact Hpre|]. by intros ?? [_ ?].
Qed.

(** C8. [_nonzero_and_have_distinct_images(elts, f, images)], with [f]
    defined on the non-zero elements the call encounters, returns a truth
    value; it returns [True] exactly when every element of [elts] is non
    zero and the images under [f] are pairwise distinct and distinct from
    every forbidden index; and it stops consuming [elts] at the first
    violation: on [True] it has consumed all of [elts], on [False] it has
    consumed [n+1] elements where the first [n] satisfy the contract and
    the first [n+1] do not. *)
Theorem nonzero_and_have_distinct_images_contract elts f
    (images : option (gset Z)) :
  let o := _nonzero_and_have_distinct_images is_zero elts f images in
  let forbidden := match images with None => ∅ | Some s => s end in
  Forall (fun e => is_zero e = false → is_Some (f !! e))
         (take (consumed o) elts) →
  (returned o = Ret true ∨ returned o = Ret false) ∧
  (returned o = Ret true ↔ nonzero_distinct is_zero elts f forbidden) ∧
  (returned o = Ret true → consumed o = length elts) ∧
  (returned o = Ret false →
     ∃ n : nat, consumed o = S n ∧ (n < length elts)%nat ∧
       nonzero_distinct is_zero (take n elts) f forbidden ∧
       ¬ nonzero_distinct is_zero (take (S n) elts) f forbidden).
Proof.
  intros o forbidden Hdef.
  pose proof (distinct_images_loop_run elts f forbidden 0) as Hrun.
  cbv zeta in Hrun.
  change (distinct_images_loop is_zero elts f forbidden 0) with o in Hrun.
  destruct Hrun as (m & ims & Hpre & Hnd & Hfresh & _ & Hend).
  pose proof (accepted_prefix_distinct _ _ _ _ Hpre Hnd Hfresh) as Hok.
  destruct Hend as [(Hr & -> & Hc)|(e & He & Hc & Hwhy)].
  - rewrite firstn_all in Hok.
    split_and!; [by left| |intros _; lia|intros Hr'; congruence].
    split; [done|by intros _].
  - simpl in Hc. rewrite Hc in Hdef.
    pose proof (take_S_r _ _ _ He) as Htake.
    assert (Hlt : (m < length elts)%nat) by (by eapply lookup_lt_Some).
    assert (Hbad : returned o = Ret false ∧
                   ¬ nonzero_distinct is_zero (take (S m) elts) f forbidden).
    { destruct Hwhy as [[Hz Hr]|[(Hz & Hf & Hr)|(Hz & Hr & i & Hf & Hi)]].
      - split; [done|]. intros (Hnz & _).
        rewrite Htake, Forall_app, Forall_singleton in Hnz.
        destruct Hnz as [_ Hnz]. congruence.
      - exfalso. rewrite Htake, Forall_app, Forall_singleton in Hdef.
        destruct Hdef as [_ Hdef]. specialize (Hdef Hz).
        rewrite Hf in Hdef. by destruct Hdef.
      - split; [done|]. intros (_ & ims' & Hf' & Hnd' & Hfresh').
        rewrite Htake in Hf'.
        apply Forall2_app_inv_l in Hf' as (ims1 & ims2 & Hf1 & Hf2 & ->).
        apply Forall2_cons_inv_l in Hf2 as (i' & ? & Hi' & Hnil & ->).
        apply Forall2_nil_inv_l in Hnil as ->.
        rewrite Hf in Hi'. injection Hi' as <-.
        assert (ims1 = ims) as ->.
        { eapply images_functional; [exact Hf1|].
          eapply Forall2_impl; [exact Hpre|]. by intros ?? [_ ?]. }
        apply NoDup_app in Hnd' as (_ & Hdisj & _).
        rewrite Forall_app, Forall_singleton in Hfresh'.
        destruct Hfresh' as [_ Hfresh'].
        apply elem_of_union in Hi as [Hi|Hi]; [|done].
        apply elem_of_list_to_set in Hi.
        apply (Hdisj i Hi). by left. }
    destruct Hbad as [Hr Hbad].
    split_and!; [by right| |intros Hr'; congruence|].
    + split; [intros Hr'; congruence|].
      intros Hall. exfalso. apply Hbad. by apply nonzero_distinct_take.
    + intros _. exists m. split_and!; [lia|done|done|done].
Qed.

(** Where the loop stops, the prefix extended by the element it stopped at
    violates the contract. *)
Lemma stopped_prefix_violates elts f images (m : nat) (ims : list Z) (e : A) :
  Forall2 (fun e i => is_zero e = false ∧ f !! e = Some i) (take m elts) ims →
  elts !! m = Some e →
  is_zero e = true ∨ f !! e = None ∨
    (∃ i, f !! e = Some i ∧ i ∈ (list_to_set ims ∪ images : gset Z)) →
  ¬ nonzero_distinct is_zero (take (S m) elts) f images.
Proof.
  intros Hpre He Hwhy (Hnz & ims' & Hf' & Hnd' & Hfresh').
  rewrite (take_S_r _ _ _ He) in Hnz, Hf'.
  rewrite Forall_app, Forall_singleton in Hnz. destruct Hnz as [_ Hnz].
  apply Forall2_app_inv_l in Hf' as (ims1 & ims2 & Hf1 & Hf2 & ->).
  apply Forall2_cons_inv_l in Hf2 as (i' & ? & Hi' & Hnil & ->).
  apply Forall2_nil_inv_l in Hnil as ->.
  destruct Hwhy as [Hz|[Hf|(i & Hf & Hi)]]; [congruence..|].
  rewrite Hf in Hi'. injection Hi' as <-.
  assert (ims1 = ims) as ->.
  { eapply images_functional; [exact Hf1|].
    eapply Forall2_impl; [exact Hpre|]. by intros ?? [_ ?]. }
  apply NoDup_app in Hnd' as (_ & Hdisj & _).
  rewrite Forall_app, Forall_singleton in Hfresh'.
  destruct Hfresh' as [_ Hfresh'].
  apply elem_of_union in Hi as [Hi|Hi]; [|done].
  apply elem_of_list_to_set in Hi.
  apply (Hdisj i Hi). by left.
Qed.

(** The input alone fixes where the first violation is: at most one prefix
    of [elts] satisfies the contract and cannot be extended. *)
Lemma first_violation_unique elts f images (n n' : nat) :
  (n ≤ length elts)%nat →
  nonzero_distinct is_zero (take n elts) f images →
  n = length elts ∨ ¬ nonzero_distinct is_zero (take (S n) elts) f images →
  (n' ≤ length elts)%nat →
  nonzero_distinct is_zero (take n' elts) f images →
  n' = length elts ∨ ¬ nonzero_distinct is_zero (take (S n') elts) f images →
  n = n'.
Proof.
  assert (Hlt : ∀ a b : nat, (a < b)%nat → (b ≤ length elts)%nat →
            nonzero_distinct is_zero (take b elts) f images →
            a = length elts ∨
              ¬ nonzero_distinct is_zero (take (S a) elts) f images →
            False).
  { intros a b Hab Hb Hok [->|Hbad]; [lia|]. apply Hbad.
    replace (take (S a) elts) with (take (S a) (take b elts))
      by (rewrite take_take; f_equal; lia).
    by apply nonzero_distinct_take. }
  intros Hn Hok Hmax Hn' Hok' Hmax'.
  destruct (Nat.lt_trichotomy n n') as [Hc|[Hc|Hc]]; [|done|].
  - destruct (Hlt n n' Hc Hn' Hok' Hmax).
  - destruct (Hlt n' n Hc Hn Hok Hmax').
Qed.

(** C9. A call with an explicit [images] set updates that set in place.
    Let [n] be the position of the first violation in the input: the first
    [n] elements of [elts] satisfy the contract against the caller's set
    [s], and either [n] is the length of [elts] or the first [n+1] elements
    do not (the input has one such [n] only).  The call returns [True]
    exactly when [n] is the length of [elts]; it has consumed these [n]
    elements before the violation; and afterwards the set holds, besides
    what it held before, exactly the images [f[e]] of these [n] elements.
    Each of these images is new, so the set has changed as soon as the
    first element of [elts] satisfies the contract. *)
Theorem images_set_is_updated_in_place elts f (s : gset Z) :
  let o := _nonzero_and_have_distinct_images is_zero elts f (Some s) in
  ∃ n : nat,
    (n ≤ length elts)%nat ∧
    nonzero_distinct is_zero (take n elts) f s ∧
    (n = length elts ∨ ¬ nonzero_distinct is_zero (take (S n) elts) f s) ∧
    (returned o = Ret true ↔ n = length elts) ∧
    accepted o = n ∧
    (∀ i, i ∈ images_after o ↔
          i ∈ s ∨ ∃ e, e ∈ take n elts ∧ f !! e = Some i) ∧
    (∀ e, e ∈ take n elts →
          ∃ i, f !! e = Some i ∧ i ∈ images_after o ∧ i ∉ s) ∧
    (n ≠ 0%nat → images_after o ≠ s).
Proof.
  intros o.
  pose proof (distinct_images_loop_run elts f s 0) as Hrun.
  cbv zeta in Hrun.
  change (distinct_images_loop is_zero elts f s 0) with o in Hrun.
  destruct Hrun as (m & ims & Hpre & Hnd & Hfresh & Himg & Hend).
  exists m.
  pose proof (accepted_prefix_distinct _ _ _ _ Hpre Hnd Hfresh) as Hok.
  assert (Hacc : accepted o = m).
  { unfold accepted.
    destruct Hend as [(-> & _ & ->)|(e & _ & -> & Hwhy)]; [done|].
    destruct Hwhy as [[_ ->]|[(_ & _ & ->)|(_ & -> & _)]]; simpl; lia. }
  assert (Hin : ∀ i, i ∈ ims ↔ ∃ e, e ∈ take m elts ∧ f !! e = Some i).
  { clear -Hpre. induction Hpre as [|e i l ims [_ He] _ IH].
    - split; [by intros ?%elem_of_nil|by intros (? & ?%elem_of_nil & _)].
    - intros j. rewrite elem_of_cons, IH. split.
      + intros [->|(e' & ? & ?)]; [exists e|exists e']; split; auto;
          [by left|by right].
      + intros (e' & [->|?]%elem_of_cons & He'); [left; congruence|].
        right; eauto. }
  assert (Hnew : ∀ e, e ∈ take m elts → ∃ i, f !! e = Some i ∧ i ∈ ims).
  { clear -Hpre. induction Hpre as [|e i l ims [_ He] _ IH].
    - by intros ? ?%elem_of_nil.
    - intros e' [->|He']%elem_of_cons.
      + exists i. split; [done|by left].
      + destruct (IH e' He') as (i' & ? & ?). exists i'. split; [done|by right]. }
  assert (Hstop : (m ≤ length elts)%nat ∧
            (m = length elts ∨
               ¬ nonzero_distinct is_zero (take (S m) elts) f s) ∧
            (returned o = Ret true ↔ m = length elts)).
  { destruct Hend as [(Hr & Hm & _)|(e & He & _ & Hwhy)].
    - split_and!; [lia|by left|done].
    - pose proof (lookup_lt_Some _ _ _ He) as Hlt.
      split_and!; [lia| |].
      + right. apply (stopped_prefix_violates _ _ _ _ ims e Hpre He).
        destruct Hwhy as [[? _]|[(_ & ? & _)|(_ & _ & ?)]]; auto.
      + split; [|lia].
        destruct Hwhy as [[_ ?]|[(_ & _ & ?)|(_ & ? & _)]]; congruence. }
  destruct Hstop as (Hm & Hmax & Hret).
  split_and!; [done..| | |].
  - intros i. rewrite Himg, elem_of_union, elem_of_list_to_set, Hin. tauto.
  - intros e He. destruct (Hnew e He) as (i & Hf & Hi). exists i.
    split_and!; [done| |].
    + rewrite Himg. apply elem_of_union_l. by apply elem_of_list_to_set.
    + rewrite Forall_forall in Hfresh. by apply Hfresh.
  - intros Hne Heq. destruct (take m elts) as [|e pre] eqn:Htake.
    { destruct elts; [|destruct m; [done|discriminate]].
      simpl in Hm. lia. }
    destruct (Hnew e) as (i & _ & Hi); [by left|].
    rewrite Forall_forall in Hfresh. apply (Hfresh i Hi).
    rewrite <- Heq, Himg. apply elem_of_union_l. by apply elem_of_list_to_set.
Qed.

End Checker.

(** C8 at the docstring's call [_nonzero_and_have_distinct_images([2,4], f,
    set([0]))] with [f = {1:0, 2:1, 3:1, 4:2}], which returns [True]. *)
Lemma nonzero_and_have_distinct_images_contract_witness :
  nonzero_distinct Z_is_zero [2; 4]
    (<[1:=0]> (<[2:=1]> (<[3:=1]> (<[4:=2]> ∅)))) {[0]}.
Proof.
  apply (nonzero_and_have_distinct_images_contract Z_is_zero [2; 4]
           (<[1:=0]> (<[2:=1]> (<[3:=1]> (<[4:=2]> ∅)))) (Some {[0]})).
  - repeat constructor; intros _; eexists; vm_compute; reflexivity.
  - vm_compute. reflexivity.
Defined.

(** ** Loops with early exit *)

Section ForEach.

Context {X S : Type}.
Implicit Types (body : X -> S -> result (ctl S)) (xs : list X) (s : S).

Lemma for_each_app body xs ys s :
  for_each body (xs ++ ys) s =
  match for_each body xs s with
  | Ret (Continue s') => for_each body ys s'
  | r => r
  end.
Proof.
  revert s. induction xs as [|x xs IH]; intros s; simpl; [done|].
  destruct (body x s) as [[s'|b]|e]; auto.
Qed.

Lemma for_each_singleton body x s : for_each body [x] s = body x s.
Proof. simpl. by destruct (body x s) as [[s'|b]|e]. Qed.

Lemma for_each_ext body body' xs s :
  (∀ x s, x ∈ xs → body x s = body' x s) →
  for_each body xs s = for_each body' xs s.
Proof.
  revert s. induction xs as [|x xs IH]; intros s Hext; simpl; [done|].
  rewrite <- (Hext x s) by (by left).
  destruct (body x s) as [[s'|b]|e]; auto.
  apply IH. intros y s'' Hy. apply Hext. by right.
Qed.

Lemma for_each_fmap {Y : Type} (g : Y -> X) body (ys : list Y) s :
  for_each body (g <$> ys) s = for_each (fun y => body (g y)) ys s.
Proof.
  revert s. induction ys as [|y ys IH]; intros s; simpl; [done|].
  destruct (body (g y) s) as [[s'|b]|e]; auto.
Qed.

Lemma for_each_bind {Y : Type} (F : Y -> list X) body (ys : list Y) s :
  for_each body (ys ≫= F) s = for_each (fun y => for_each body (F y)) ys s.
Proof.
  revert s. induction ys as [|y ys IH]; intros s; csimpl; [done|].
  rewrite for_each_app.
  destruct (for_each body (F y) s) as [[s'|b]|e]; auto.
Qed.

End ForEach.

Lemma xrange_of_nat (n : nat) : xrange (Z.of_nat n) = Z.of_nat <$> seq 0 n.
Proof.
  unfold xrange, seqZ. rewrite Nat2Z.id.
  apply list_fmap_ext. intros ? i _. lia.
Qed.

(** ** The verifier *)

Section Verifier.

Context {A : Type} `{Countable A}.

Implicit Types (G : Parent A) (D : list (list A)) (gs : list A)
  (c : gmap A Z) (g identity : A) (l : Z).

(** The loops of [is_difference_family] feed the differences of the
    family, in order, to [count_difference]. *)
Lemma block_step_differences G identity op inv_ k l (d : list A) c :
  Z.of_nat (length d) = k →
  block_step G identity op inv_ k l d c =
  for_each (count_difference identity l)
           (block_differences op inv_ (coerce G <$> d)) c.
Proof.
  intros <-. unfold block_step, block_differences.
  set (dd := coerce G <$> d).
  assert (Hlen : length dd = length d) by apply length_fmap.
  rewrite Hlen, xrange_of_nat, for_each_fmap, for_each_bind.
  apply for_each_ext. intros i c1 Hi.
  rewrite for_each_fmap, for_each_bind.
  apply for_each_ext. intros j c2 Hj.
  apply elem_of_seq in Hi, Hj.
  unfold pair_step.
  destruct (decide (i = j)) as [->|Hij].
  { by rewrite decide_True. }
  rewrite decide_False by lia.
  unfold index. rewrite !Nat2Z.id.
  destruct (lookup_lt_is_Some_2 dd i) as [a Ha]; [lia|].
  destruct (lookup_lt_is_Some_2 dd j) as [b Hb]; [lia|].
  rewrite Ha, Hb, for_each_singleton. reflexivity.
Qed.

Lemma blocks_differences G identity op inv_ k l D c :
  (∀ d, d ∈ D → Z.of_nat (length d) = k) →
  for_each (block_step G identity op inv_ k l) D c =
  for_each (count_difference identity l) (differences G op inv_ D) c.
Proof.
  intros Hk. unfold differences. rewrite for_each_bind.
  apply for_each_ext. intros d c' Hd.
  apply block_step_differences. by apply Hk.
Qed.

Lemma occurrences_cons g x gs :
  occurrences g (x :: gs) =
  ((if decide (x = g) then 1 else 0) + occurrences g gs)%nat.
Proof.
  unfold occurrences. rewrite filter_cons.
  destruct (decide (x = g)); reflexivity.
Qed.

Lemma occurrences_not_in g gs : g ∉ gs → occurrences g gs = 0%nat.
Proof.
  induction gs as [|x gs IH]; intros Hg; [done|].
  rewrite occurrences_cons, IH by set_solver.
  rewrite decide_False by set_solver. done.
Qed.

Lemma occurrences_in g gs : g ∈ gs → (0 < occurrences g gs)%nat.
Proof.
  induction gs as [|x gs IH]; intros Hg; [by apply elem_of_nil in Hg|].
  rewrite occurrences_cons. destruct (decide (x = g)); [lia|].
  apply elem_of_cons in Hg as [?|?]; [congruence|]. specialize (IH ltac:(done)). lia.
Qed.

(** The counting loop on a list of differences: it never raises when the
    counter has an entry for every difference other than the identity; it
    runs to the end exactly when no difference is the identity and no
    counter gets beyond [l]; it then holds the counts; an early exit
    returns [False]. *)
Lemma count_loop_spec identity l gs c :
  (∀ g, g ∈ gs → g ≠ identity → is_Some (c !! g)) →
  (∃ r, for_each (count_difference identity l) gs c = Ret r) ∧
  ((∃ c', for_each (count_difference identity l) gs c = Ret (Continue c')) ↔
   ((identity ∉ gs) ∧
    (∀ g n, g ∈ gs → c !! g = Some n →
            n + Z.of_nat (occurrences g gs) ≤ l))) ∧
  (∀ b, for_each (count_difference identity l) gs c = Ret (Return b) →
        b = false).
Proof.
  revert c. induction gs as [|g gs IH]; intros c Hdom.
  { simpl. split_and!; [by eexists| |discriminate].
    split; [intros _|by eexists]. split; [by intros ?%elem_of_nil|].
    by intros ?? ?%elem_of_nil. }
  simpl. unfold count_difference at 1 3 5.
  destruct (decide (g = identity)) as [->|Hg].
  { split_and!; [by eexists| |by intros b [= <-]].
    split; [by intros [? ?]|]. intros [Hid _]. exfalso. apply Hid. by left. }
  destruct (Hdom g) as [n Hn]; [by left|done|]. rewrite Hn.
  destruct (decide (n + 1 > l)) as [Hgt|Hle].
  { split_and!; [by eexists| |by intros b [= <-]].
    split; [by intros [? ?]|]. intros [_ Hcnt]. exfalso.
    specialize (Hcnt g n ltac:(by left) Hn).
    rewrite occurrences_cons, decide_True in Hcnt by done. lia. }
  destruct (IH (<[g:=n + 1]> c)) as (Hret & Hiff & Hfalse).
  { intros g' Hg' Hne. destruct (decide (g' = g)) as [->|?].
    - rewrite lookup_insert_eq. by eexists.
    - rewrite lookup_insert_ne by done. apply Hdom; [by right|done]. }
  split_and!; [done| |done].
  rewrite Hiff. split.
  - intros [Hid Hcnt]. split.
    { intros [?|?]%elem_of_cons; [congruence|done]. }
    intros g' n' Hg' Hn'. rewrite occurrences_cons.
    destruct (decide (g = g')) as [<-|Hne].
    + assert (n' = n) as -> by congruence.
      destruct (decide (g ∈ gs)) as [Hin|Hnin].
      * specialize (Hcnt g (n + 1) Hin (lookup_insert_eq _ _ _)). lia.
      * rewrite occurrences_not_in by done. lia.
    + apply elem_of_cons in Hg' as [?|Hg']; [congruence|].
      apply (Hcnt g' n' Hg'). by rewrite lookup_insert_ne.
  - intros [Hid Hcnt]. split; [set_solver|].
    intros g' n' Hg' Hn'.
    specialize (Hcnt g'). rewrite occurrences_cons in Hcnt.
    destruct (decide (g = g')) as [<-|Hne].
    + rewrite lookup_insert_eq in Hn'. injection Hn' as <-.
      specialize (Hcnt n ltac:(by left) Hn). lia.
    + rewrite lookup_insert_ne in Hn' by done.
      specialize (Hcnt n' ltac:(by right) Hn'). lia.
Qed.

(** [{g: 0 for g in G}] followed by [del counter[identity]]. *)
Lemma zero_counter_lookup (E : list A) (m : gmap A Z) g :
  foldl (fun c g => <[g:=0]> c) m E !! g =
  if decide (g ∈ E) then Some 0 else m !! g.
Proof.
  revert m. induction E as [|x E IH]; intros m; cbn [foldl].
  { case_decide as Hin; [by apply elem_of_nil in Hin|done]. }
  rewrite IH. repeat case_decide; try done.
  - exfalso. set_solver.
  - destruct (decide (g = x)) as [->|Hne].
    + by rewrite lookup_insert_eq.
    + exfalso. set_solver.
  - destruct (decide (g = x)) as [->|Hne].
    + exfalso. set_solver.
    + by rewrite lookup_insert_ne.
Qed.

(** *** Counting: the pigeonhole step *)

Lemma occurrences_split g gs :
  (occurrences g gs + length (filter (fun x => x ≠ g) gs))%nat = length gs.
Proof.
  induction gs as [|x gs IH]; [done|].
  rewrite occurrences_cons, filter_cons.
  destruct (decide (x = g)), (decide (x ≠ g)); simpl; try lia; done.
Qed.

Lemma occurrences_filter_ne g e gs :
  g ≠ e → occurrences g (filter (fun x => x ≠ e) gs) = occurrences g gs.
Proof.
  intros Hne. induction gs as [|x gs IH]; [done|].
  rewrite filter_cons. destruct (decide (x ≠ e)) as [Hx|Hx].
  - by rewrite !occurrences_cons, IH.
  - rewrite occurrences_cons, IH, decide_False; [done|].
    intros ->. by apply Hx.
Qed.

Lemma occurrences_NoDup g (E : list A) :
  NoDup E → g ∈ E → occurrences g E = 1%nat.
Proof.
  induction 1 as [|x E Hx _ IH]; intros Hg; [by apply elem_of_nil in Hg|].
  rewrite occurrences_cons. destruct (decide (x = g)) as [->|Hne].
  - by rewrite occurrences_not_in.
  - apply elem_of_cons in Hg as [?|Hg]; [congruence|]. by rewrite IH.
Qed.

Lemma sum_list_with_ext_in (f f' : A → nat) (E : list A) :
  (∀ x, x ∈ E → f x = f' x) → sum_list_with f E = sum_list_with f' E.
Proof.
  induction E as [|x E IH]; intros Hext; simpl; [done|].
  rewrite Hext by (by left). rewrite IH; [done|].
  intros y Hy. apply Hext. by right.
Qed.

(** Summed over a duplicate-free list that holds every member of [gs], the
    occurrence counts add up to the length of [gs]. *)
Lemma sum_occurrences (E : list A) gs :
  NoDup E → (∀ g, g ∈ gs → g ∈ E) →
  sum_list_with (fun g => occurrences g gs) E = length gs.
Proof.
  intros HE. revert gs. induction HE as [|e E He _ IH]; intros gs Hsub.
  { destruct gs as [|g gs]; [done|].
    exfalso. eapply not_elem_of_nil, (Hsub g). by left. }
  simpl.
  rewrite (sum_list_with_ext_in _
             (fun g => occurrences g (filter (fun x => x ≠ e) gs))).
  2:{ intros g Hg. symmetry. apply occurrences_filter_ne. by intros ->. }
  rewrite IH.
  - apply occurrences_split.
  - intros g [Hne Hg]%list_elem_of_filter.
    apply Hsub in Hg. apply elem_of_cons in Hg as [?|?]; [done|done].
Qed.

Lemma sum_list_with_bound (f : A → nat) (n : nat) (E : list A) :
  (∀ x, x ∈ E → (f x ≤ n)%nat) →
  (sum_list_with f E ≤ n * length E)%nat.
Proof.
  induction E as [|x E IH]; intros Hle; simpl; [lia|].
  specialize (Hle x ltac:(by left)) as Hx.
  specialize (IH ltac:(intros y Hy; apply Hle; by right)). lia.
Qed.

(** Counts that are each at most [n] and add up to [n] times their number
    are all equal to [n]. *)
Lemma bounded_sum_all_equal (f : A → nat) (n : nat) (E : list A) :
  (∀ x, x ∈ E → (f x ≤ n)%nat) →
  sum_list_with f E = (n * length E)%nat →
  ∀ x, x ∈ E → f x = n.
Proof.
  induction E as [|e E IH]; intros Hle Hsum x Hx; [by apply elem_of_nil in Hx|].
  simpl in Hsum.
  pose proof (Hle e ltac:(by left)) as He.
  assert (Hle' : ∀ y, y ∈ E → (f y ≤ n)%nat) by (intros y Hy; apply Hle; by right).
  pose proof (sum_list_with_bound f n E Hle') as Hb.
  apply elem_of_cons in Hx as [->|Hx]; [lia|].
  apply IH; [done|lia|done].
Qed.

Lemma length_filter_ne (E : list A) x :
  NoDup E → x ∈ E → S (length (filter (fun y => y ≠ x) E)) = length E.
Proof.
  intros HE Hx. rewrite <- (occurrences_split x E).
  by rewrite occurrences_NoDup.
Qed.

Lemma exact_counts identity l (E : list A) gs :
  NoDup E → identity ∈ E →
  (∀ g, g ∈ gs → g ∈ E) → identity ∉ gs →
  Z.of_nat (length gs) = l * (Z.of_nat (length E) - 1) →
  (∀ g, g ∈ gs → Z.of_nat (occurrences g gs) ≤ l) →
  ∀ g, g ∈ E → g ≠ identity → Z.of_nat (occurrences g gs) = l.
Proof.
  intros HE Hid Hsub Hnid Hlen Hle g Hg Hne.
  set (E' := filter (fun y => y ≠ identity) E).
  assert (HE' : NoDup E') by (by apply NoDup_filter).
  assert (HlenE : S (length E') = length E) by (by apply length_filter_ne).
  assert (HgE' : g ∈ E') by (by apply list_elem_of_filter).
  assert (Hpos : (0 < length E')%nat).
  { destruct E'; [by apply elem_of_nil in HgE'|simpl; lia]. }
  assert (Hl : 0 ≤ l) by nia.
  assert (Hsum : sum_list_with (fun g => occurrences g gs) E' = length gs).
  { apply sum_occurrences; [done|]. intros x Hx.
    apply list_elem_of_filter. split; [by intros ->|by apply Hsub]. }
  rewrite <- (Z2Nat.id l) by done. f_equal.
  apply (bounded_sum_all_equal (fun g => occurrences g gs) (Z.to_nat l) E');
    [|nia|done].
  intros x _. destruct (decide (x ∈ gs)) as [Hx|Hx].
  - specialize (Hle x Hx). lia.
  - rewrite occurrences_not_in by done. lia.
Qed.

(** *** Blocks: distinct elements and identity differences *)

Lemma elem_of_block_differences op inv_ (dd : list A) g :
  g ∈ block_differences op inv_ dd ↔
  ∃ (i j : nat) (a b : A),
    i ≠ j ∧ dd !! i = Some a ∧ dd !! j = Some b ∧ g = op a (inv_ b).
Proof.
  unfold block_differences. rewrite list_elem_of_bind. split.
  - intros (i & Hg & Hi). apply list_elem_of_bind in Hg as (j & Hg & Hj).
    destruct (decide (i = j)); [by apply elem_of_nil in Hg|].
    destruct (dd !! i) as [a|] eqn:Ha; [|by apply elem_of_nil in Hg].
    destruct (dd !! j) as [b|] eqn:Hb; [|by apply elem_of_nil in Hg].
    apply list_elem_of_singleton in Hg. by exists i, j, a, b.
  - intros (i & j & a & b & Hij & Ha & Hb & ->).
    exists i. split; [|apply elem_of_seq; apply lookup_lt_Some in Ha; lia].
    apply list_elem_of_bind. exists j.
    split; [|apply elem_of_seq; apply lookup_lt_Some in Hb; lia].
    rewrite decide_False, Ha, Hb by done. by apply list_elem_of_singleton.
Qed.

Lemma length_pairs_from (F : nat → list A) (i n : nat) :
  (∀ j, j ≠ i → length (F j) = 1%nat) →
  length (seq 0 n ≫= fun j => if decide (i = j) then [] else F j) =
  (n - (if decide (i < n)%nat then 1 else 0))%nat.
Proof.
  intros HF. induction n as [|n IH]; [done|].
  rewrite seq_S, bind_app, length_app, IH, bind_singleton.
  change (0 + n)%nat with n.
  destruct (decide (i = n)) as [->|Hne].
  - rewrite decide_False by lia. rewrite decide_True by lia. simpl. lia.
  - rewrite HF by done.
    destruct (decide (i < n)%nat), (decide (i < S n)%nat); lia.
Qed.

Lemma length_block_differences op inv_ (dd : list A) :
  Z.of_nat (length (block_differences op inv_ dd)) =
  Z.of_nat (length dd) * (Z.of_nat (length dd) - 1).
Proof.
  unfold block_differences.
  set (n := length dd).
  assert (Hrow : ∀ i, (i < n)%nat →
    length (seq 0 n ≫= fun j =>
              if decide (i = j) then []
              else match dd !! i, dd !! j with
                   | Some a, Some b => [op a (inv_ b)]
                   | _, _ => []
                   end) = (n - 1)%nat).
  { intros i Hi.
    destruct (lookup_lt_is_Some_2 dd i Hi) as [a Ha]. rewrite Ha.
    transitivity (length (seq 0 n ≫= fun j =>
       if decide (i = j) then []
       else [op a (inv_ (default a (dd !! j)))])).
    { f_equal. clear Hi. assert (Hall : ∀ j, j ∈ seq 0 n → (j < n)%nat).
      { intros j Hj%elem_of_seq. lia. }
      induction (seq 0 n) as [|j js IH]; [done|]. csimpl.
      rewrite IH by (intros; apply Hall; by right). f_equal.
      destruct (decide (i = j)); [done|].
      destruct (lookup_lt_is_Some_2 dd j) as [b Hb];
        [apply Hall; by left|]. by rewrite Hb. }
    rewrite (length_pairs_from
               (fun j => [op a (inv_ (default a (dd !! j)))])) by done.
    by rewrite decide_True. }
  assert (Hall : ∀ m, (m ≤ n)%nat →
    length (seq 0 m ≫= fun i =>
      seq 0 n ≫= fun j =>
        if decide (i = j) then []
        else match dd !! i, dd !! j with
             | Some a, Some b => [op a (inv_ b)]
             | _, _ => []
             end) = (m * (n - 1))%nat).
  { induction m as [|m IH]; intros Hm; [done|].
    rewrite seq_S, bind_app, length_app, IH, bind_singleton by lia.
    change (0 + m)%nat with m. rewrite Hrow by lia. lia. }
  rewrite Hall by done. nia.
Qed.

Lemma length_differences G op inv_ D k :
  (∀ d, d ∈ D → Z.of_nat (length d) = k) →
  Z.of_nat (length (differences G op inv_ D)) =
  Z.of_nat (length D) * k * (k - 1).
Proof.
  intros Hk. unfold differences.
  induction D as [|d D IH]; [simpl; lia|]. csimpl.
  rewrite length_app, Nat2Z.inj_add, IH by (intros; apply Hk; by right).
  rewrite length_block_differences, length_fmap, (Hk d) by (by left).
  lia.
Qed.

Section Group.

Variables (G : Parent A) (identity : A) (op : A → A → A) (inv_ : A → A).
Hypothesis HG : IsGroup G identity op inv_.

Lemma difference_is_identity a b :
  a ∈ elements G → b ∈ elements G →
  op a (inv_ b) = identity ↔ a = b.
Proof.
  intros Ha Hb. split.
  - intros Hab.
    rewrite <- (op_id_r _ _ _ _ HG a Ha), <- (op_inv_l _ _ _ _ HG b Hb).
    rewrite (op_assoc _ _ _ _ HG) by eauto using inv_in.
    rewrite Hab. by apply (op_id_l _ _ _ _ HG).
  - intros ->. by apply (op_inv_r _ _ _ _ HG).
Qed.

Lemma block_NoDup (dd : list A) :
  (∀ x, x ∈ dd → x ∈ elements G) →
  NoDup dd ↔ identity ∉ block_differences op inv_ dd.
Proof.
  intros Hin. rewrite NoDup_alt, elem_of_block_differences. split.
  - intros Hnd (i & j & a & b & Hij & Ha & Hb & Hab).
    assert (a ∈ elements G) by (eapply Hin, list_elem_of_lookup_2; eauto).
    assert (b ∈ elements G) by (eapply Hin, list_elem_of_lookup_2; eauto).
    assert (a = b) as -> by (by apply difference_is_identity).
    apply Hij. by eapply Hnd.
  - intros Hno i j x Hi Hj.
    destruct (decide (i = j)) as [|Hij]; [done|].
    exfalso. apply Hno. exists i, j, x, x. split_and!; [done..|].
    assert (x ∈ elements G) by (eapply Hin, list_elem_of_lookup_2; eauto).
    symmetry. by apply difference_is_identity.
Qed.

Lemma differences_in D g :
  (∀ d x, d ∈ D → x ∈ d → coerce G x ∈ elements G) →
  g ∈ differences G op inv_ D → g ∈ elements G.
Proof.
  intros Hco. unfold differences. rewrite list_elem_of_bind.
  intros (d & Hg & Hd).
  apply elem_of_block_differences in Hg as (i & j & a & b & _ & Ha & Hb & ->).
  apply list_elem_of_lookup_2, list_elem_of_fmap in Ha as (a' & -> & Ha').
  apply list_elem_of_lookup_2, list_elem_of_fmap in Hb as (b' & -> & Hb').
  apply (op_in _ _ _ _ HG); [|apply (inv_in _ _ _ _ HG)]; eauto.
Qed.

Lemma blocks_NoDup D :
  (∀ d x, d ∈ D → x ∈ d → coerce G x ∈ elements G) →
  (∀ d, d ∈ D → NoDup (coerce G <$> d)) ↔
  identity ∉ differences G op inv_ D.
Proof.
  intros Hco. unfold differences. rewrite list_elem_of_bind. split.
  - intros Hnd (d & Hid & Hd). revert Hid. apply block_NoDup; [|by apply Hnd].
    intros x (x' & -> & Hx')%list_elem_of_fmap. eauto.
  - intros Hno d Hd. apply block_NoDup.
    + intros x (x' & -> & Hx')%list_elem_of_fmap. eauto.
    + intros Hid. apply Hno. eauto.
Qed.

(** The verifier in terms of what its loops see: with the parameters
    consistent, the call returns a truth value, and [True] exactly when no
    difference is the identity and none occurs more than [l] times. *)
Lemma verifier_bounded_counts D v k l :
  (∀ d x, d ∈ D → x ∈ d → coerce G x ∈ elements G) →
  v = cardinality G →
  (∀ d, d ∈ D → Z.of_nat (length d) = k) →
  Z.of_nat (length D) * k * (k - 1) = l * (v - 1) →
  let r := is_difference_family G D (Some v) (Some k) (Some l) in
  (r = Ret true ∨ r = Ret false) ∧
  (r = Ret true ↔
     identity ∉ differences G op inv_ D ∧
     (∀ g, g ∈ differences G op inv_ D →
           Z.of_nat (occurrences g (differences G op inv_ D)) ≤ l)).
Proof.
  intros Hco Hv Hk Hb r.
  set (gs := differences G op inv_ D).
  set (c0 := delete identity (foldl (fun c g => <[g:=0]> c) ∅ (elements G))).
  assert (Hc0 : ∀ g, g ∈ gs → g ≠ identity → c0 !! g = Some 0).
  { intros g Hg Hne. unfold c0.
    rewrite lookup_delete_ne, zero_counter_lookup by done.
    rewrite decide_True; [done|]. by eapply differences_in. }
  assert (Hr : r = match for_each (count_difference identity l) gs c0 with
                   | Ret (Continue _) => Ret true
                   | Ret (Return b) => Ret b
                   | Raise e => Raise e
                   end).
  { unfold r, is_difference_family.
    rewrite decide_False by (by intros ?; congruence). simpl.
    assert (existsb (fun d => bool_decide (Z.of_nat (length d) ≠ k)) D = false)
      as ->.
    { apply not_true_is_false. intros (d & Hd & Hne)%existsb_exists.
      apply bool_decide_eq_true in Hne. apply Hne, Hk.
      by apply list_elem_of_In. }
    rewrite decide_False by (by intros ?; congruence). simpl.
    rewrite (group_law_eq _ _ _ _ HG). simpl.
    rewrite zero_counter_lookup, decide_True by apply (identity_in _ _ _ _ HG).
    simpl. rewrite blocks_differences by done. fold gs c0.
    by destruct (for_each (count_difference identity l) gs c0) as [[?|?]|?]. }
  destruct (count_loop_spec identity l gs c0) as ((r0 & Hr0) & Hiff & Hfalse).
  { intros g Hg Hne. rewrite Hc0 by done. by eexists. }
  split.
  - rewrite Hr, Hr0. destruct r0 as [c'|b]; [by left|].
    rewrite (Hfalse b Hr0). by right.
  - transitivity (∃ c', for_each (count_difference identity l) gs c0
                        = Ret (Continue c')).
    { rewrite Hr, Hr0. destruct r0 as [c'|b].
      - split; [by eexists|done].
      - rewrite (Hfalse b Hr0). split; [done|by intros [? ?]]. }
    rewrite Hiff.
    split; intros [Hid Hcnt]; (split; [done|]).
    + intros g Hg.
      assert (g ≠ identity) by (by intros ->).
      specialize (Hcnt g 0 Hg (Hc0 g Hg ltac:(done))). lia.
    + intros g n Hg Hn.
      assert (g ≠ identity) by (by intros ->).
      rewrite Hc0 in Hn by done. injection Hn as <-.
      specialize (Hcnt g Hg). lia.
Qed.

(** C1. For a group [G] and a family [D] of [b] blocks, with
    [v = G.cardinality()], every block of length [k] and
    [b*k*(k-1) = l*(v-1)], the call [is_difference_family(G, D, v, k, l)]
    returns a truth value (it does not raise), and it returns [True] if
    and only if the elements of every block are pairwise distinct and every
    non-identity element of [G] occurs exactly [l] times among the
    differences [op(x, inv(y))] within the blocks.  The elements of a block
    are pairwise distinct exactly when no two distinct positions give the
    identity as difference. *)
Theorem is_difference_family_correct D v k l :
  (∀ d x, d ∈ D → x ∈ d → coerce G x ∈ elements G) →
  v = cardinality G →
  (∀ d, d ∈ D → Z.of_nat (length d) = k) →
  Z.of_nat (length D) * k * (k - 1) = l * (v - 1) →
  let r := is_difference_family G D (Some v) (Some k) (Some l) in
  (r = Ret true ∨ r = Ret false) ∧
  (r = Ret true ↔
     (∀ d, d ∈ D → NoDup (coerce G <$> d)) ∧
     (∀ g, g ∈ elements G → g ≠ identity →
        Z.of_nat (occurrences g (differences G op inv_ D)) = l)) ∧
  ((∀ d, d ∈ D → NoDup (coerce G <$> d)) ↔
   identity ∉ differences G op inv_ D).
Proof.
  intros Hco Hv Hk Hb r.
  destruct (verifier_bounded_counts D v k l Hco Hv Hk Hb) as [Hbool Hiff].
  fold r in Hbool, Hiff.
  set (gs := differences G op inv_ D) in *.
  assert (Hlen : Z.of_nat (length gs) =
                 l * (Z.of_nat (length (elements G)) - 1)).
  { unfold gs. rewrite (length_differences _ _ _ _ k) by done.
    rewrite Hb, Hv, (cardinality_eq _ _ _ _ HG). done. }
  split_and!; [done| |by apply blocks_NoDup].
  rewrite Hiff, (blocks_NoDup D Hco). fold gs.
  split; intros [Hid Hcnt]; (split; [done|]).
  - apply (exact_counts identity l (elements G) gs);
      [apply (elements_NoDup _ _ _ _ HG)|apply (identity_in _ _ _ _ HG)
      |by intros; eapply differences_in|done|done|done].
  - intros g Hg.
    assert (g ≠ identity) by (by intros ->).
    rewrite Hcnt; [lia|by eapply differences_in|done].
Qed.

End Group.

End Verifier.

(** ** Finite fields: algebra *)

Section Field.

Context {A : Type} `{Countable A}.
Variable K : Parent A.
Hypothesis HF : IsField K.

Let HG := field_additive K HF.

Local Abbreviation E := (elements K).

Lemma zero_in : zero K ∈ elements K.
Proof. apply (identity_in _ _ _ _ HG). Qed.

Lemma add_in a b : a ∈ E → b ∈ E → add K a b ∈ E.
Proof. apply (op_in _ _ _ _ HG). Qed.

Lemma neg_in a : a ∈ E → neg K a ∈ E.
Proof. apply (inv_in _ _ _ _ HG). Qed.

Lemma one_in : one K ∈ E.
Proof. rewrite <- (pow_0 K HF). by apply (pow_in K HF). Qed.

Lemma sub_in a b : a ∈ E → b ∈ E → sub K a b ∈ E.
Proof. intros. unfold sub. auto using add_in, neg_in. Qed.

Lemma sub_eq_zero a b : a ∈ E → b ∈ E → sub K a b = zero K ↔ a = b.
Proof. intros Ha Hb. by apply (difference_is_identity K _ _ _ HG). Qed.

Lemma add_idempotent z : z ∈ E → add K z z = z → z = zero K.
Proof.
  intros Hz Hzz.
  assert (Hstep : add K (add K z z) (neg K z) = z).
  { rewrite <- (op_assoc _ _ _ _ HG) by auto using neg_in.
    rewrite (op_inv_r _ _ _ _ HG z Hz).
    by apply (op_id_r _ _ _ _ HG). }
  rewrite Hzz in Hstep. by rewrite (op_inv_r _ _ _ _ HG z Hz) in Hstep.
Qed.

Lemma neg_unique u w : u ∈ E → w ∈ E → add K u w = zero K → w = neg K u.
Proof.
  intros Hu Hw Huw.
  rewrite <- (op_id_l _ _ _ _ HG w Hw).
  rewrite <- (op_inv_l _ _ _ _ HG u Hu).
  rewrite <- (op_assoc _ _ _ _ HG) by auto using neg_in.
  rewrite Huw. apply (op_id_r _ _ _ _ HG). by apply neg_in.
Qed.

Lemma mul_zero_r a : a ∈ E → mul K a (zero K) = zero K.
Proof.
  intros Ha. apply add_idempotent.
  - apply (mul_in K HF); [done|apply zero_in].
  - rewrite <- (mul_add_distr K HF) by auto using zero_in.
    by rewrite (op_id_l _ _ _ _ HG) by apply zero_in.
Qed.

Lemma mul_neg_r a b : a ∈ E → b ∈ E → mul K a (neg K b) = neg K (mul K a b).
Proof.
  intros Ha Hb. apply neg_unique.
  - by apply (mul_in K HF).
  - apply (mul_in K HF); [done|by apply neg_in].
  - rewrite <- (mul_add_distr K HF) by auto using neg_in.
    rewrite (op_inv_r _ _ _ _ HG b Hb). by apply mul_zero_r.
Qed.

Lemma mul_sub_distr a b c :
  a ∈ E → b ∈ E → c ∈ E →
  mul K a (sub K b c) = sub K (mul K a b) (mul K a c).
Proof.
  intros Ha Hb Hc. unfold sub.
  rewrite (mul_add_distr K HF) by auto using neg_in.
  by rewrite mul_neg_r.
Qed.

Lemma mul_cancel_r a b c :
  a ∈ E → b ∈ E → c ∈ E → c ≠ zero K →
  mul K a c = mul K b c → a = b.
Proof.
  intros Ha Hb Hc Hne Heq.
  apply (proj1 (sub_eq_zero a b Ha Hb)).
  assert (Hbc : mul K b c ∈ E) by (by apply (mul_in K HF)).
  assert (Hprod : mul K c (sub K a b) = zero K).
  { rewrite mul_sub_distr by done.
    rewrite (mul_comm K HF c a), (mul_comm K HF c b), Heq by done.
    by apply (proj2 (sub_eq_zero _ _ Hbc Hbc)). }
  apply (mul_integral K HF) in Hprod as [?|?]; [done|done|done|].
  by apply sub_in.
Qed.

Lemma field_cardinality : 2 ≤ cardinality K.
Proof.
  rewrite (cardinality_eq _ _ _ _ HG).
  pose proof (length_filter_ne E (zero K) (elements_NoDup _ _ _ _ HG) zero_in)
    as Hlen.
  assert (Hone : one K ∈ filter (fun y => y ≠ zero K) E).
  { apply list_elem_of_filter. split; [apply (one_nonzero K HF)|apply one_in]. }
  destruct (filter (fun y => y ≠ zero K) E);
    [by apply elem_of_nil in Hone|]. simpl in Hlen. lia.
Qed.

(** Powers of the generator. *)
Lemma pow_period a :
  0 ≤ a →
  pow K (multiplicative_generator K) (a + (cardinality K - 1)) =
  pow K (multiplicative_generator K) a.
Proof.
  intros Ha.
  assert (0 ≤ cardinality K - 1).
  { pose proof (cardinality_eq _ _ _ _ HG) as Hc.
    pose proof zero_in as Hz.
    destruct (elements K); [by apply elem_of_nil in Hz|]. simpl in Hc. lia. }
  rewrite (pow_add K HF), (pow_order K HF) by done.
  apply (mul_one_r K HF). by apply (pow_in K HF).
Qed.

End Field.

(** ** Cyclotomic cosets *)

(** Counting through an index list: among the values [f t], [t] in a
    duplicate-free list [T], a value [g] occurs at most [length U] times if
    some key [phi t] in [U] tells apart the [t] with [f t = g]. *)
Lemma occurrences_fmap_bound {A X Y : Type} `{EqDecision A}
    (f : X → A) (phi : X → Y) (T : list X) (U : list Y) (g : A) :
  NoDup T →
  (∀ t, t ∈ T → f t = g → phi t ∈ U) →
  (∀ t t', t ∈ T → t' ∈ T → f t = g → f t' = g → phi t = phi t' → t = t') →
  (occurrences g (f <$> T) ≤ length U)%nat.
Proof.
  intros HT HU Hinj.
  assert (Hocc : occurrences g (f <$> T) =
                 length (filter (fun t => f t = g) T)).
  { unfold occurrences. clear. induction T as [|t T IH]; [done|].
    rewrite fmap_cons, !filter_cons.
    destruct (decide (f t = g)); simpl; by rewrite IH. }
  rewrite Hocc, <- (length_fmap phi).
  apply submseteq_length, NoDup_submseteq.
  - apply NoDup_fmap_2_strong; [|by apply NoDup_filter].
    intros t t' [? ?]%list_elem_of_filter [? ?]%list_elem_of_filter ?.
    by apply Hinj.
  - intros y (t & -> & [? ?]%list_elem_of_filter)%list_elem_of_fmap.
    by apply HU.
Qed.

(** The shape of [cyclotomic_cosets(K, e)] for an index [e] of at least 2
    with [q = e*f + 1]: [e] cosets of [f] elements. *)
Lemma cyclotomic_cosets_shape {A : Type} `{Countable A} (K : Parent A) e f :
  2 ≤ e → 0 ≤ f → cardinality K = e * f + 1 →
  ∃ D, cyclotomic_cosets K e None false = Ret D ∧
       D = (fun i => (fun s => mul K (pow K (multiplicative_generator K) i)
                                 (pow K (pow K (multiplicative_generator K) e) s))
                       <$> xrange f) <$> xrange e ∧
       Z.of_nat (length D) = e ∧
       (∀ d, d ∈ D → Z.of_nat (length d) = f).
Proof.
  intros He Hf Hq. eexists. split_and!; [|reflexivity| |].
  - unfold cyclotomic_cosets, py_mod, py_floordiv.
    rewrite !decide_False by lia. simpl.
    replace (cardinality K `mod` e) with 1.
    2:{ rewrite Hq, Z.add_comm, Z.mul_comm, Z_mod_plus_full.
        symmetry. apply Z.mod_small. lia. }
    simpl. rewrite <- list_fmap_compose.
    replace ((cardinality K - 1) `div` e) with f.
    2:{ rewrite Hq. replace (e * f + 1 - 1) with (f * e) by lia.
        symmetry. apply Z.div_mul. lia. }
    reflexivity.
  - rewrite length_fmap. unfold xrange. rewrite length_seqZ. lia.
  - intros d (i & -> & _)%list_elem_of_fmap.
    rewrite length_fmap. unfold xrange. rewrite length_seqZ. lia.
Qed.

Lemma fmap_bind_list {X Y Z : Type} (f : Y → Z) (g : X → list Y) (l : list X) :
  f <$> (l ≫= g) = l ≫= (fun x => f <$> g x).
Proof.
  induction l as [|x l IH]; csimpl; [done|]. by rewrite fmap_app, IH.
Qed.

Lemma bind_ext_in {X Y : Type} (F G : X → list Y) (l : list X) :
  (∀ x, x ∈ l → F x = G x) → l ≫= F = l ≫= G.
Proof.
  induction l as [|x l IH]; intros Hext; csimpl; [done|].
  rewrite Hext by (by left). rewrite IH; [done|].
  intros y Hy. apply Hext. by right.
Qed.

Section Cyclotomic.

Context {A : Type} `{Countable A}.
Variable K : Parent A.
Hypothesis HF : IsField K.
Variables e k : Z.
Hypothesis He : 1 ≤ e.
Hypothesis Hk : 1 ≤ k.
Hypothesis Hq : cardinality K = e * k + 1.

Local Abbreviation P := (pow K (multiplicative_generator K)).
Local Abbreviation E := (elements K).

(** [y * xx**s] for [y = x**i] and [xx = x**e]. *)
Lemma coset_entry i s :
  0 ≤ i → 0 ≤ s → mul K (P i) (pow K (P e) s) = P (i + e * s).
Proof.
  intros Hi Hs.
  rewrite (pow_pow K HF), (pow_add K HF) by lia. done.
Qed.

Lemma cyclotomic_cosets_blocks :
  2 ≤ e →
  cyclotomic_cosets K e None false = Ret (coset_block K e k <$> xrange e).
Proof.
  intros He2.
  destruct (cyclotomic_cosets_shape K e k) as (D & HD & -> & _);
    [done|lia|done|].
  rewrite HD. f_equal.
  apply list_fmap_ext. intros _ i Hi%list_elem_of_lookup_2.
  apply list_fmap_ext. intros _ s Hs%list_elem_of_lookup_2.
  apply elem_of_seqZ in Hi, Hs. apply coset_entry; lia.
Qed.

Lemma coset_block_length i : length (coset_block K e k i) = Z.to_nat k.
Proof. unfold coset_block, xrange. by rewrite length_fmap, length_seqZ. Qed.

Lemma coset_block_lookup i (s : nat) :
  (s < Z.to_nat k)%nat →
  coset_block K e k i !! s = Some (P (i + e * Z.of_nat s)).
Proof.
  intros Hs. unfold coset_block, xrange.
  rewrite list_lookup_fmap, lookup_seqZ_lt by lia. done.
Qed.

Lemma coset_block_coerce i :
  0 ≤ i → coerce K <$> coset_block K e k i = coset_block K e k i.
Proof.
  intros Hi. unfold coset_block. rewrite <- list_fmap_compose.
  apply list_fmap_ext. intros _ s Hs%list_elem_of_lookup_2.
  apply elem_of_seqZ in Hs. simpl.
  apply (field_coerce K HF), (pow_in K HF). nia.
Qed.

(** The differences within the cosets, through their positions. *)
Lemma differences_cosets :
  differences K (add K) (neg K) (coset_block K e k <$> xrange e) =
  coset_difference K e <$> coset_pairs e k.
Proof.
  unfold differences, coset_pairs.
  rewrite list_fmap_bind, fmap_bind_list.
  apply bind_ext_in. intros i Hi. apply elem_of_seqZ in Hi. simpl.
  rewrite coset_block_coerce by lia.
  unfold block_differences. rewrite coset_block_length, fmap_bind_list.
  apply bind_ext_in. intros s Hs%elem_of_seq.
  rewrite fmap_bind_list.
  apply bind_ext_in. intros s' Hs'%elem_of_seq.
  rewrite !coset_block_lookup by lia.
  by destruct (decide (s = s')).
Qed.

Lemma elem_of_coset_pairs i (s s' : nat) :
  (i, s, s') ∈ coset_pairs e k ↔
  0 ≤ i < e ∧ (s < Z.to_nat k)%nat ∧ (s' < Z.to_nat k)%nat ∧ s ≠ s'.
Proof.
  unfold coset_pairs. rewrite list_elem_of_bind.
  setoid_rewrite list_elem_of_bind. setoid_rewrite list_elem_of_bind.
  setoid_rewrite elem_of_seqZ. setoid_rewrite elem_of_seq. split.
  - intros (i' & (s1 & (s1' & Hin & ?) & ?) & ?).
    destruct (decide (s1 = s1')); [by apply elem_of_nil in Hin|].
    apply list_elem_of_singleton in Hin. injection Hin as -> -> ->. lia.
  - intros (? & ? & ? & ?). exists i. split; [|lia].
    exists s. split; [|lia]. exists s'. split; [|lia].
    rewrite decide_False by done. by apply list_elem_of_singleton.
Qed.

Lemma NoDup_coset_pairs : NoDup (coset_pairs e k).
Proof.
  unfold coset_pairs.
  apply NoDup_bind; [| |apply NoDup_seqZ].
  { intros i1 i2 [[i s] s'] _ _ H1 H2.
    apply list_elem_of_bind in H1 as (s1 & H1 & _).
    apply list_elem_of_bind in H1 as (s1' & H1 & _).
    apply list_elem_of_bind in H2 as (s2 & H2 & _).
    apply list_elem_of_bind in H2 as (s2' & H2 & _).
    destruct (decide (s1 = s1')); [by apply elem_of_nil in H1|].
    destruct (decide (s2 = s2')); [by apply elem_of_nil in H2|].
    apply list_elem_of_singleton in H1, H2. congruence. }
  intros i _. apply NoDup_bind; [| |apply NoDup_seq].
  { intros s1 s2 [[i' s] s'] _ _ H1 H2.
    apply list_elem_of_bind in H1 as (s1' & H1 & _).
    apply list_elem_of_bind in H2 as (s2' & H2 & _).
    destruct (decide (s1 = s1')); [by apply elem_of_nil in H1|].
    destruct (decide (s2 = s2')); [by apply elem_of_nil in H2|].
    apply list_elem_of_singleton in H1, H2. congruence. }
  intros s _. apply NoDup_bind; [| |apply NoDup_seq].
  { intros s1' s2' [[i' s0] s'] _ _ H1 H2.
    destruct (decide (s = s1')); [by apply elem_of_nil in H1|].
    destruct (decide (s = s2')); [by apply elem_of_nil in H2|].
    apply list_elem_of_singleton in H1, H2. congruence. }
  intros s' _. destruct (decide (s = s')); [constructor|apply NoDup_singleton].
Qed.

(** The shift between two positions of a coset, in [1 .. k-1]. *)
Lemma shift_range (s s' : nat) :
  (s < Z.to_nat k)%nat → (s' < Z.to_nat k)%nat → s ≠ s' →
  1 ≤ (Z.of_nat s - Z.of_nat s') `mod` k < k.
Proof.
  intros Hs Hs' Hne.
  pose proof (Z.mod_pos_bound (Z.of_nat s - Z.of_nat s') k ltac:(lia)) as Hb.
  pose proof (Z.div_mod (Z.of_nat s - Z.of_nat s') k ltac:(lia)) as Hd.
  destruct (decide ((Z.of_nat s - Z.of_nat s') `mod` k = 0)) as [H0|]; [|lia].
  exfalso. rewrite H0 in Hd.
  set (d := (Z.of_nat s - Z.of_nat s') `div` k) in *.
  assert (d = 0) by (destruct (Z.lt_trichotomy d 0) as [?|[?|?]]; nia).
  lia.
Qed.

Lemma shift_inj (s r s' : nat) :
  (s < Z.to_nat k)%nat → (r < Z.to_nat k)%nat → (s' < Z.to_nat k)%nat →
  (Z.of_nat s - Z.of_nat s') `mod` k = (Z.of_nat r - Z.of_nat s') `mod` k →
  s = r.
Proof.
  intros Hs Hr Hs' Heq.
  pose proof (Z.div_mod (Z.of_nat s - Z.of_nat s') k ltac:(lia)) as Hd1.
  pose proof (Z.div_mod (Z.of_nat r - Z.of_nat s') k ltac:(lia)) as Hd2.
  rewrite Heq in Hd1.
  set (d1 := (Z.of_nat s - Z.of_nat s') `div` k) in *.
  set (d2 := (Z.of_nat r - Z.of_nat s') `div` k) in *.
  assert (d1 = d2) by (destruct (Z.lt_trichotomy d1 d2) as [?|[?|?]]; nia).
  subst d1. lia.
Qed.

Lemma coset_power_shift i (s s' : nat) :
  0 ≤ i → (s < Z.to_nat k)%nat → (s' < Z.to_nat k)%nat →
  P (i + e * Z.of_nat s) =
  mul K (P (i + e * Z.of_nat s'))
        (P (e * ((Z.of_nat s - Z.of_nat s') `mod` k))).
Proof.
  intros Hi Hs Hs'.
  pose proof (Z.mod_pos_bound (Z.of_nat s - Z.of_nat s') k ltac:(lia)) as Hb.
  rewrite <- (pow_add K HF) by nia.
  destruct (decide (s' ≤ s)%nat) as [Hle|Hgt].
  - rewrite Z.mod_small by lia. f_equal. lia.
  - replace (Z.of_nat s - Z.of_nat s')
      with ((Z.of_nat s - Z.of_nat s' + k) + (-1) * k) by lia.
    rewrite Z_mod_plus_full, Z.mod_small by lia.
    rewrite <- (pow_period K HF (i + e * Z.of_nat s)) by nia.
    f_equal. rewrite Hq. lia.
Qed.

Lemma unit_difference_nonzero u :
  1 ≤ u < k → sub K (P (e * u)) (one K) ≠ zero K.
Proof.
  intros Hu Hz.
  assert (Ha : P (e * u) ∈ E) by (apply (pow_in K HF); nia).
  apply (proj1 (sub_eq_zero K HF _ _ Ha (one_in K HF))) in Hz.
  rewrite <- (pow_0 K HF) in Hz.
  apply (pow_inj K HF) in Hz; [nia|rewrite Hq; nia|rewrite Hq; nia].
Qed.

Lemma coset_difference_factor i (s s' : nat) :
  0 ≤ i → (s < Z.to_nat k)%nat → (s' < Z.to_nat k)%nat →
  coset_difference K e (i, s, s') =
  mul K (P (i + e * Z.of_nat s'))
        (sub K (P (e * ((Z.of_nat s - Z.of_nat s') `mod` k))) (one K)).
Proof.
  intros Hi Hs Hs'. unfold coset_difference. simpl.
  pose proof (Z.mod_pos_bound (Z.of_nat s - Z.of_nat s') k ltac:(lia)) as Hb.
  rewrite (mul_sub_distr K HF);
    [|apply (pow_in K HF); nia|apply (pow_in K HF); nia|apply (one_in K HF)].
  rewrite <- coset_power_shift by done.
  rewrite (mul_one_r K HF) by (apply (pow_in K HF); nia). done.
Qed.

Lemma coset_difference_nonzero t :
  t ∈ coset_pairs e k → coset_difference K e t ≠ zero K.
Proof.
  destruct t as [[i s] s']. intros (Hi & Hs & Hs' & Hne)%elem_of_coset_pairs.
  rewrite coset_difference_factor by lia. intros Hz.
  pose proof (shift_range s s' Hs Hs' Hne) as Hu.
  apply (mul_integral K HF) in Hz as [Hz|Hz].
  - revert Hz. apply (pow_nonzero K HF). rewrite Hq. nia.
  - by apply unit_difference_nonzero in Hz.
  - apply (pow_in K HF). nia.
  - apply (sub_in K HF); [apply (pow_in K HF); nia|apply (one_in K HF)].
Qed.

Lemma coset_difference_inj t t' :
  t ∈ coset_pairs e k → t' ∈ coset_pairs e k →
  coset_difference K e t = coset_difference K e t' →
  (Z.of_nat t.1.2 - Z.of_nat t.2) `mod` k =
  (Z.of_nat t'.1.2 - Z.of_nat t'.2) `mod` k →
  t = t'.
Proof.
  destruct t as [[i s] s'], t' as [[j r] r']. simpl.
  intros (Hi & Hs & Hs' & Hne)%elem_of_coset_pairs
         (Hj & Hr & Hr' & Hne')%elem_of_coset_pairs Hdiff Hshift.
  rewrite !coset_difference_factor in Hdiff by lia.
  pose proof (shift_range s s' Hs Hs' Hne) as Hu.
  rewrite <- Hshift in Hdiff.
  apply (mul_cancel_r K HF) in Hdiff.
  - apply (pow_inj K HF) in Hdiff; [|rewrite Hq; nia..].
    assert (s' = r') as ->
      by (destruct (Nat.lt_trichotomy s' r') as [?|[?|?]]; [nia|done|nia]).
    assert (i = j) as -> by lia.
    f_equal. f_equal. by eapply shift_inj.
  - apply (pow_in K HF); nia.
  - apply (pow_in K HF); nia.
  - apply (sub_in K HF); [apply (pow_in K HF); nia|apply (one_in K HF)].
  - by apply unit_difference_nonzero.
Qed.

Lemma elem_of_coset_block i y :
  y ∈ coset_block K e k i ↔ ∃ s, 0 ≤ s < k ∧ y = P (i + e * s).
Proof.
  unfold coset_block, xrange. rewrite list_elem_of_fmap.
  setoid_rewrite elem_of_seqZ. split.
  - intros (s & -> & ?). exists s. split; [lia|done].
  - intros (s & ? & ->). exists s. split; [done|lia].
Qed.

Lemma coset_exponent_inj i1 s1 i2 s2 :
  0 ≤ i1 < e → 0 ≤ s1 < k → 0 ≤ i2 < e → 0 ≤ s2 < k →
  P (i1 + e * s1) = P (i2 + e * s2) → i1 = i2 ∧ s1 = s2.
Proof.
  intros Hi1 Hs1 Hi2 Hs2 Heq.
  apply (pow_inj K HF) in Heq; [|rewrite Hq; nia..].
  assert (s1 = s2) as ->
    by (destruct (Z.lt_trichotomy s1 s2) as [?|[?|?]]; [nia|done|nia]).
  split; lia.
Qed.

(** The cosets of index [e] partition the non-zero elements: listed one
    after the other they hold each non-zero element of [K] once. *)
Lemma cosets_partition :
  NoDup (mjoin (coset_block K e k <$> xrange e)) ∧
  ∀ y, y ∈ mjoin (coset_block K e k <$> xrange e) ↔
       y ∈ elements K ∧ y ≠ zero K.
Proof.
  assert (Hjoin : mjoin (coset_block K e k <$> xrange e) =
                  xrange e ≫= coset_block K e k).
  { generalize (xrange e). intros l.
    induction l as [|i l IH]; csimpl; [done|]. by rewrite IH. }
  rewrite Hjoin. split.
  - apply NoDup_bind; [| |apply NoDup_seqZ].
    + intros i1 i2 y Hi1%elem_of_seqZ Hi2%elem_of_seqZ
             (s1 & Hs1 & ->)%elem_of_coset_block
             (s2 & Hs2 & Heq)%elem_of_coset_block.
      apply coset_exponent_inj in Heq; [tauto|lia..].
    + intros i Hi%elem_of_seqZ. unfold coset_block.
      apply NoDup_fmap_2_strong; [|apply NoDup_seqZ].
      intros s1 s2 Hs1%elem_of_seqZ Hs2%elem_of_seqZ Heq.
      apply coset_exponent_inj in Heq; [tauto|lia..].
  - intros y. rewrite list_elem_of_bind. split.
    + intros (i & (s & Hs & ->)%elem_of_coset_block & Hi%elem_of_seqZ).
      split; [apply (pow_in K HF); nia|].
      apply (pow_nonzero K HF). rewrite Hq. nia.
    + intros [Hy Hne].
      destruct (pow_all K HF y Hy Hne) as (a & Ha & ->).
      rewrite Hq in Ha.
      pose proof (Z.div_mod a e ltac:(lia)) as Hd.
      pose proof (Z.mod_pos_bound a e ltac:(lia)) as Hm.
      exists (a `mod` e). split; [|apply elem_of_seqZ; lia].
      apply elem_of_coset_block. exists (a `div` e). split.
      * split; [apply Z.div_pos; lia|].
        apply Z.div_lt_upper_bound; lia.
      * f_equal. lia.
Qed.

Lemma coset_differences_bounded g :
  (Z.of_nat (occurrences g (coset_difference K e <$> coset_pairs e k))
   ≤ k - 1).
Proof.
  pose proof (occurrences_fmap_bound (coset_difference K e)
    (fun t : Z * nat * nat => (Z.of_nat t.1.2 - Z.of_nat t.2) `mod` k)
    (coset_pairs e k) (seqZ 1 (k - 1)) g NoDup_coset_pairs) as Hb.
  rewrite length_seqZ in Hb.
  assert (occurrences g (coset_difference K e <$> coset_pairs e k)
          ≤ Z.to_nat (k - 1))%nat; [|lia].
  apply Hb.
  - intros [[i s] s'] (Hi & Hs & Hs' & Hne)%elem_of_coset_pairs _. simpl.
    apply elem_of_seqZ. pose proof (shift_range s s' Hs Hs' Hne). lia.
  - intros t t' Ht Ht' Hg Hg' Hshift.
    apply coset_difference_inj; [done|done|congruence|done].
Qed.

(** The cosets of index [e] pass the verifier as a family with blocks of
    [k] elements and [l = k - 1]. *)
Lemma cosets_verified :
  is_difference_family K (coset_block K e k <$> xrange e)
    (Some (cardinality K)) (Some k) (Some (k - 1)) = Ret true.
Proof.
  pose proof (verifier_bounded_counts K (zero K) (add K) (neg K)
                (field_additive K HF) (coset_block K e k <$> xrange e)
                (cardinality K) k (k - 1)) as Hv.
  cbv zeta in Hv. apply Hv; clear Hv.
  - intros d x (i & -> & Hi%elem_of_seqZ)%list_elem_of_fmap
             (s & Hs & ->)%elem_of_coset_block.
    rewrite (field_coerce K HF); apply (pow_in K HF); nia.
  - done.
  - intros d (i & -> & _)%list_elem_of_fmap.
    rewrite coset_block_length. lia.
  - rewrite length_fmap. unfold xrange. rewrite length_seqZ, Hq. nia.
  - rewrite differences_cosets. split.
    + intros (t & Hz & Ht)%list_elem_of_fmap.
      by apply (coset_difference_nonzero t).
    + intros g _. apply coset_differences_bounded.
Qed.

End Cyclotomic.

(** X6. For a field [K] of [q] elements and an index [e >= 2] that
    divides [q - 1], [cyclotomic_cosets(K, e)] returns [e] cosets of
    [(q-1)/e] elements each which, listed one after the other, hold every
    non-zero element of [K] exactly once. *)
Theorem cyclotomic_cosets_partition {A : Type} `{Countable A} (K : Parent A) e :
  IsField K → 2 ≤ e → (cardinality K - 1) `mod` e = 0 →
  ∃ D, cyclotomic_cosets K e None false = Ret D ∧
       Z.of_nat (length D) = e ∧
       (∀ d, d ∈ D → Z.of_nat (length d) = (cardinality K - 1) `div` e) ∧
       NoDup (mjoin D) ∧
       (∀ y, y ∈ mjoin D ↔ y ∈ elements K ∧ y ≠ zero K).
Proof.
  intros HF He Hmod.
  pose proof (field_cardinality K HF) as Hq2.
  set (k := (cardinality K - 1) `div` e).
  assert (Hq : cardinality K = e * k + 1).
  { pose proof (Z.div_mod (cardinality K - 1) e ltac:(lia)). unfold k. lia. }
  assert (Hk : 1 ≤ k) by nia.
  exists (coset_block K e k <$> xrange e).
  pose proof (cosets_partition K HF e k ltac:(lia) Hk Hq) as [Hnd Hall].
  split_and!; [|  | |done|done].
  - by apply cyclotomic_cosets_blocks; [|lia|..].
  - rewrite length_fmap. unfold xrange. rewrite length_seqZ. lia.
  - intros d (i & -> & _)%list_elem_of_fmap.
    unfold coset_block, xrange. rewrite length_fmap, length_seqZ. lia.
Qed.

(** ** The rings Z/nZ as groups *)

Lemma elem_of_Zmod (n g x : Z) : x ∈ elements (Zmod n g) ↔ 0 ≤ x < n.
Proof. simpl. rewrite elem_of_seqZ. lia. Qed.

Lemma Zmod_coerce_in (n g x : Z) : 0 < n → coerce (Zmod n g) x ∈ elements (Zmod n g).
Proof. intros Hn. apply elem_of_Zmod. simpl. by apply Z.mod_pos_bound. Qed.

Lemma Zmod_is_group (n g : Z) :
  0 < n → IsGroup (Zmod n g) 0 (add (Zmod n g)) (neg (Zmod n g)).
Proof.
  intros Hn. split; try setoid_rewrite elem_of_Zmod.
  - reflexivity.
  - simpl. rewrite length_seqZ. lia.
  - apply NoDup_seqZ.
  - lia.
  - intros x y _ _. simpl. by apply Z.mod_pos_bound.
  - intros x _. simpl. by apply Z.mod_pos_bound.
  - intros x y z _ _ _. simpl.
    rewrite Zplus_mod_idemp_r, Zplus_mod_idemp_l. f_equal. lia.
  - intros x Hx. simpl. by apply Z.mod_small.
  - intros x Hx. simpl. rewrite Z.add_0_r. by apply Z.mod_small.
  - intros x Hx. simpl. rewrite Zplus_mod_idemp_l.
    replace (- x + x) with 0 by lia. by apply Z.mod_0_l; lia.
  - intros x Hx. simpl. rewrite Zplus_mod_idemp_r.
    replace (x + - x) with 0 by lia. by apply Z.mod_0_l; lia.
Qed.

(** The ring laws of Z/nZ that do not depend on [n] being prime. *)
Lemma Zmod_pow_nonneg (n g y a : Z) :
  0 ≤ a → pow (Zmod n g) y a = (y ^ a) `mod` n.
Proof. intros Ha. simpl. by rewrite decide_False by lia. Qed.

Lemma Zmod_pow_add (n g a b : Z) :
  0 < n → 0 ≤ a → 0 ≤ b →
  pow (Zmod n g) g (a + b) =
  mul (Zmod n g) (pow (Zmod n g) g a) (pow (Zmod n g) g b).
Proof.
  intros Hn Ha Hb. rewrite !Zmod_pow_nonneg by lia. simpl.
  rewrite Z.pow_add_r by done. apply Zmult_mod.
Qed.

Lemma Zmod_pow_pow (n g a b : Z) :
  0 < n → 0 ≤ a → 0 ≤ b →
  pow (Zmod n g) (pow (Zmod n g) g a) b = pow (Zmod n g) g (a * b).
Proof.
  intros Hn Ha Hb. rewrite !Zmod_pow_nonneg by nia.
  rewrite <- Zpower_mod by done. by rewrite Z.pow_mul_r.
Qed.

Lemma Zmod_mul_add_distr (n g a b c : Z) :
  mul (Zmod n g) a (add (Zmod n g) b c) =
  add (Zmod n g) (mul (Zmod n g) a b) (mul (Zmod n g) a c).
Proof.
  simpl. rewrite Zmult_mod_idemp_r, <- Zplus_mod. f_equal. lia.
Qed.

(** The field of seven elements, with generator 3. *)
Lemma elements_7 (a : Z) :
  0 ≤ a < 7 → a = 0 ∨ a = 1 ∨ a = 2 ∨ a = 3 ∨ a = 4 ∨ a = 5 ∨ a = 6.
Proof. lia. Qed.

Lemma GF7_is_field : IsField (Zmod 7 3).
Proof.
  split; try setoid_rewrite elem_of_Zmod.
  - apply Zmod_is_group. lia.
  - intros y Hy. simpl. by apply Z.mod_small.
  - intros a b _ _. simpl. by apply Z.mod_pos_bound.
  - intros a b _ _. simpl. f_equal. lia.
  - intros a Ha. simpl. rewrite Z.mul_1_r. by apply Z.mod_small.
  - intros a b c _ _ _. apply Zmod_mul_add_distr.
  - intros a b Ha%elements_7 Hb%elements_7. simpl.
    destruct Ha as [->|[->|[->|[->|[->|[->| ->]]]]]];
      destruct Hb as [->|[->|[->|[->|[->|[->| ->]]]]]];
      vm_compute; (discriminate || tauto).
  - reflexivity.
  - intros a b Ha Hb. apply Zmod_pow_add; lia.
  - intros a b Ha Hb. apply Zmod_pow_pow; lia.
  - reflexivity.
  - intros a Ha. rewrite Zmod_pow_nonneg by lia. by apply Z.mod_pos_bound.
  - intros a Ha. simpl in Ha.
    assert (a = 0 ∨ a = 1 ∨ a = 2 ∨ a = 3 ∨ a = 4 ∨ a = 5) as Hcases by lia.
    destruct Hcases as [->|[->|[->|[->|[->| ->]]]]]; vm_compute; discriminate.
  - intros a b Ha Hb. simpl in Ha, Hb.
    assert (a = 0 ∨ a = 1 ∨ a = 2 ∨ a = 3 ∨ a = 4 ∨ a = 5) as Ha' by lia.
    assert (b = 0 ∨ b = 1 ∨ b = 2 ∨ b = 3 ∨ b = 4 ∨ b = 5) as Hb' by lia.
    destruct Ha' as [->|[->|[->|[->|[->| ->]]]]];
      destruct Hb' as [->|[->|[->|[->|[->| ->]]]]];
      vm_compute; (discriminate || reflexivity || congruence).
  - intros y Hy%elements_7 Hne. simpl in Hne. simpl.
    destruct Hy as [->|[->|[->|[->|[->|[->| ->]]]]]]; [done| | | | | |].
    + exists 0. split; [lia|reflexivity].
    + exists 2. split; [lia|reflexivity].
    + exists 1. split; [lia|reflexivity].
    + exists 4. split; [lia|reflexivity].
    + exists 5. split; [lia|reflexivity].
    + exists 3. split; [lia|reflexivity].
  - vm_compute. discriminate.
Qed.

Lemma GFp_7 : GFp 7 = Zmod 7 3.
Proof. unfold GFp. f_equal. Qed.

(** C1 at the planar difference set [{1, 2, 4}] of Z/7Z. *)
Lemma is_difference_family_correct_witness :
  let G := Zmod 7 3 in
  let D := [[1; 2; 4]] in
  let r := is_difference_family G D (Some 7) (Some 3) (Some 1) in
  (r = Ret true ∨ r = Ret false) ∧
  (r = Ret true ↔
     (∀ d, d ∈ D → NoDup (coerce G <$> d)) ∧
     (∀ g, g ∈ elements G → g ≠ 0 →
        Z.of_nat (occurrences g (differences G (add G) (neg G) D)) = 1)) ∧
  ((∀ d, d ∈ D → NoDup (coerce G <$> d)) ↔
   0 ∉ differences G (add G) (neg G) D).
Proof.
  intros G D.
  apply (is_difference_family_correct G 0 (add G) (neg G)
           (Zmod_is_group 7 3 ltac:(lia)) D 7 3 1).
  - intros d x _ _. by apply Zmod_coerce_in.
  - reflexivity.
  - intros d ->%list_elem_of_singleton. reflexivity.
  - reflexivity.
Defined.

(** ** Edge cases of the verifier and of the coset generator *)

Section Edges.

Context {A : Type} `{Countable A}.

Lemma assertion_fails_at_one (K : Parent A) cosets with_zero :
  cyclotomic_cosets K 1 cosets with_zero = Raise AssertionError.
Proof.
  unfold cyclotomic_cosets, py_mod. simpl. by rewrite Z.mod_1_r.
Qed.

(** C7 (what the code does).  With [e = 1], a divisor of every [q - 1],
    the assertion [q % e == 1] fails, since [q % 1] is [0]: the call raises
    instead of returning the single coset of all non-zero elements. *)
Theorem cyclotomic_cosets_index_one (K : Parent A) cosets with_zero :
  cyclotomic_cosets K 1 cosets with_zero = Raise AssertionError.
Proof. apply assertion_fails_at_one. Qed.

(** C10, first half: with an empty family and no [k] the call fails on
    [D[0]]. *)
Lemma empty_family_without_k (G : Parent A) :
  is_difference_family G [] None None None = Raise IndexError.
Proof. reflexivity. Qed.

(** C10, second half, for a group with more than one element: with an
    empty family and [k] supplied the call returns [True], the inferred
    [l] being [0 // (v-1) = 0]. *)
Lemma empty_family_with_k (G : Parent A) identity op inv_ k :
  group_law G = Ret (identity, op, inv_) →
  identity ∈ elements G →
  cardinality G ≠ 1 →
  is_difference_family G [] None (Some k) None = Ret true ∧
  py_floordiv (0 * k * (k - 1)) (cardinality G - 1) = Ret 0.
Proof.
  intros Hlaw Hid Hcard. unfold is_difference_family, py_mod, py_floordiv.
  simpl. rewrite !decide_False by lia. simpl. rewrite Hlaw. simpl.
  rewrite zero_counter_lookup, decide_True by done.
  split; reflexivity.
Qed.

(** C10 (what the code does for the trivial group).  With an empty family
    and [k] supplied, inferring [l] computes [0 % (v - 1)] with [v = 1]:
    the call raises [ZeroDivisionError] instead of returning [True]. *)
Theorem empty_family_trivial_group (G : Parent A) k :
  cardinality G = 1 →
  is_difference_family G [] None (Some k) None = Raise ZeroDivisionError.
Proof.
  intros Hcard. unfold is_difference_family, py_mod. simpl.
  rewrite Hcard. reflexivity.
Qed.

End Edges.

(** C10 at [Zmod(1)], the trivial group, and [k = 3]. *)
Lemma empty_family_trivial_group_witness :
  is_difference_family (Zmod 1 0) [] None (Some 3) None
  = Raise ZeroDivisionError.
Proof.
  apply (empty_family_trivial_group (Zmod 1 0) 3). reflexivity.
Defined.

(** ** The constructor's dispatch *)

Section Constructor.

Context {A : Type} `{Countable A}.
Variable is_zero : A -> bool.
Variable GF : Z -> Parent A.
Variable is_prime_power : Z -> bool.
Variable is_square : Z -> bool.
Variable DF_constructions : gmap (Z * Z * Z) (Parent A * list (list A)).

Local Abbreviation construct :=
  (difference_family is_zero GF is_prime_power is_square DF_constructions).


(** C4 (what the code does).  For feasible parameters that are a key of
    the table, the call returns the pair of the table entry in both modes:
    [existence] is not looked at, so that [existence=True] yields the pair
    and not [True]. *)
Theorem database_lookup_ignores_existence v k l entry existence check :
  py_mod (l * (v - 1)) (k * (k - 1)) = Ret 0 →
  DF_constructions !! (v, k, l) = Some entry →
  construct v k l existence check = Ret (VPair entry.1 entry.2).
Proof.
  intros Hmod Hdb. unfold difference_family.
  rewrite Hmod. simpl. by rewrite Hdb.
Qed.

(** C3 (what the code does).  For a prime power [v] and feasible
    parameters outside the table, with [l] neither [k-1] nor [1] and more
    than one block, the call raises [NotImplementedError] in both modes:
    an existence query raises instead of returning [Unknown]. *)
Theorem existence_query_not_implemented v k l existence check :
  py_mod (l * (v - 1)) (k * (k - 1)) = Ret 0 →
  DF_constructions !! (v, k, l) = None →
  is_prime_power v = true →
  l ≠ k - 1 → l ≠ 1 → (l * (v - 1)) `div` (k * (k - 1)) ≠ 1 →
  construct v k l existence check = Raise NotImplementedError.
Proof.
  intros Hmod Hdb Hpp Hl Hl1 Ht. unfold difference_family.
  rewrite Hmod. simpl.
  rewrite Hdb. unfold py_mod in Hmod. unfold py_floordiv.
  destruct (decide (k * (k - 1) = 0)); [done|]. simpl.
  rewrite Hpp. unfold prime_power_case.
  rewrite decide_False by done. rewrite decide_False by done. simpl.
  rewrite decide_True by done. done.
Qed.

(** With [k] equal to [0] or [1] the feasibility test itself divides by
    zero, in both modes. *)
Lemma feasibility_zero_division v k l existence check :
  k * (k - 1) = 0 →
  construct v k l existence check = Raise ZeroDivisionError.
Proof.
  intros Hk. unfold difference_family, py_mod.
  by rewrite decide_True.
Qed.

(** C6, as amended.  For a prime power [v] and [2 <= k < v - 1], with
    [l = k - 1] and (v,k,l) feasible and outside the table, the call with
    [existence=False] returns the field [GF(v)] together with all
    cyclotomic cosets of index [(v-1)/k]: these are [(v-1)/k] blocks of
    [k] elements each, so that [b*k*(k-1) = l*(v-1)] with [l = k-1], and
    the verifier accepts them as a family with these parameters. *)
Theorem cyclotomic_branch v k l check :
  is_prime_power v = true →
  IsField (GF v) → cardinality (GF v) = v →
  2 ≤ k → k < v - 1 → l = k - 1 →
  py_mod (l * (v - 1)) (k * (k - 1)) = Ret 0 →
  DF_constructions !! (v, k, l) = None →
  ∃ D, construct v k l false check = Ret (VPair (GF v) D) ∧
       cyclotomic_cosets (GF v) ((v - 1) `div` k) None false = Ret D ∧
       Z.of_nat (length D) = (v - 1) `div` k ∧
       (∀ d, d ∈ D → Z.of_nat (length d) = k) ∧
       Z.of_nat (length D) * k * (k - 1) = l * (v - 1) ∧
       is_difference_family (GF v) D (Some v) (Some k) (Some l) = Ret true.
Proof.
  intros Hpp HF Hq Hk Hkv -> Hmod Hdb.
  assert (Hdiv : v - 1 = k * ((v - 1) `div` k)).
  { unfold py_mod in Hmod. destruct (decide (k * (k - 1) = 0)); [done|].
    injection Hmod as Hmod. apply Z.mod_divide in Hmod; [|done].
    destruct Hmod as [c Hc].
    assert (v - 1 = c * k) as -> by nia.
    rewrite Z.div_mul by lia. lia. }
  set (e := (v - 1) `div` k) in *.
  assert (He : 2 ≤ e) by nia.
  assert (Hqe : cardinality (GF v) = e * k + 1) by lia.
  pose proof (cyclotomic_cosets_blocks (GF v) HF e k ltac:(lia) ltac:(lia)
                Hqe He) as HD.
  exists (coset_block (GF v) e k <$> xrange e).
  assert (Hlen : Z.of_nat (length (coset_block (GF v) e k <$> xrange e)) = e).
  { rewrite length_fmap. unfold xrange. rewrite length_seqZ. lia. }
  split_and!; [|done|done| |nia|].
  - unfold difference_family. rewrite Hmod. simpl. rewrite Hdb.
    unfold py_floordiv. rewrite decide_False by nia. simpl.
    rewrite Hpp. unfold prime_power_case. rewrite decide_True by done.
    unfold py_floordiv. rewrite decide_False by lia. simpl.
    fold e. by rewrite HD.
  - intros d (i & -> & _)%list_elem_of_fmap.
    unfold coset_block, xrange. rewrite length_fmap, length_seqZ. lia.
  - pose proof (cosets_verified (GF v) HF e k ltac:(lia) ltac:(lia) Hqe)
      as Hver.
    by rewrite Hq in Hver.
Qed.

(** X17. With [k = v - 1] the index is [1] and the coset generator's
    assertion fails, although the existence query for the same parameters
    answers [True]. *)
Lemma cyclotomic_branch_index_one v k l check :
  is_prime_power v = true →
  2 ≤ k → k = v - 1 → l = k - 1 →
  DF_constructions !! (v, k, l) = None →
  difference_family is_zero GF is_prime_power is_square DF_constructions
    v k l true check = Ret (VBool true) ∧
  difference_family is_zero GF is_prime_power is_square DF_constructions
    v k l false check = Raise AssertionError.
Proof.
  intros Hpp Hk -> -> Hdb.
  assert (Hm : ((v - 1 - 1) * (v - 1)) `mod` ((v - 1) * (v - 1 - 1)) = 0).
  { rewrite (Z.mul_comm (v - 1 - 1)). apply Z_mod_same_full. }
  unfold difference_family, py_mod. rewrite decide_False by nia.
  rewrite Hm. simpl. rewrite Hdb.
  unfold py_floordiv. rewrite decide_False by nia. simpl.
  rewrite Hpp. unfold prime_power_case. rewrite !decide_True by done.
  split; [done|].
  unfold py_floordiv. rewrite decide_False by lia. simpl.
  rewrite Z_div_same_full by lia.
  by rewrite assertion_fails_at_one.
Qed.

End Constructor.


(** C4 at a table with the single key (21,5,1), for the difference set
    [{0, 1, 4, 14, 16}] of Z/21Z: the existence query returns the pair. *)
Lemma database_lookup_ignores_existence_witness :
  difference_family Z_is_zero GFp Z_is_prime_power Z_is_square
    {[ (21, 5, 1) := (Zmod 21 0, [[0; 1; 4; 14; 16]]) ]} 21 5 1 true true
  = Ret (VPair (Zmod 21 0) [[0; 1; 4; 14; 16]]).
Proof.
  apply (database_lookup_ignores_existence Z_is_zero GFp Z_is_prime_power
           Z_is_square {[ (21, 5, 1) := (Zmod 21 0, [[0; 1; 4; 14; 16]]) ]}
           21 5 1 (Zmod 21 0, [[0; 1; 4; 14; 16]]) true true).
  - reflexivity.
  - apply lookup_singleton_eq.
Defined.

(** C3 at (v,k,l) = (13,3,3) and an empty table: the existence query
    raises. *)
Lemma existence_query_not_implemented_witness :
  difference_family Z_is_zero GFp Z_is_prime_power Z_is_square ∅ 13 3 3 true true
  = Raise NotImplementedError.
Proof.
  apply (existence_query_not_implemented Z_is_zero GFp Z_is_prime_power
           Z_is_square ∅ 13 3 3 true true).
  - reflexivity.
  - apply lookup_empty.
  - vm_compute. reflexivity.
  - lia.
  - lia.
  - vm_compute. discriminate.
Defined.

(** C2 (what the code does at (v,k,l) = (7,-2,1)).  The parameters pass
    the feasibility test (6 divides 6); Wilson's even branch runs with
    [m = -1] on empty ranges and builds the family [[[0]]], which the
    gate accepts because it infers [k = 1] and [l = 0] from the family;
    checked against the requested parameters the family is rejected. *)
Theorem wilson_branch_negative_k :
  difference_family Z_is_zero GFp Z_is_prime_power Z_is_square ∅
    7 (-2) 1 false true = Ret (VPair (GFp 7) [[0]]) ∧
  is_difference_family (GFp 7) [[0]] None None None = Ret true ∧
  is_difference_family (GFp 7) [[0]] (Some 7) (Some (-2)) (Some 1) = Ret false.
Proof. split_and!; vm_compute; reflexivity. Qed.

(** C6 at (v,k,l) = (7,3,2): the cyclotomic cosets of index 2 of GF(7). *)
Lemma cyclotomic_branch_witness :
  ∃ D, difference_family Z_is_zero GFp Z_is_prime_power Z_is_square ∅
         7 3 2 false true = Ret (VPair (GFp 7) D) ∧
       cyclotomic_cosets (GFp 7) ((7 - 1) `div` 3) None false = Ret D ∧
       Z.of_nat (length D) = (7 - 1) `div` 3 ∧
       (∀ d, d ∈ D → Z.of_nat (length d) = 3) ∧
       Z.of_nat (length D) * 3 * (3 - 1) = 2 * (7 - 1) ∧
       is_difference_family (GFp 7) D (Some 7) (Some 3) (Some 2) = Ret true.
Proof.
  apply (cyclotomic_branch Z_is_zero GFp Z_is_prime_power Z_is_square ∅
           7 3 2 true).
  - vm_compute. reflexivity.
  - rewrite GFp_7. apply GF7_is_field.
  - reflexivity.
  - lia.
  - lia.
  - reflexivity.
  - reflexivity.
  - apply lookup_empty.
Defined.

(** C6 as stated fails at (v,k,l) = (7,3,2): the family returned has the
    two blocks [{1,2,4}] and [{3,6,5}], not [k = 3] blocks. *)
Lemma cyclotomic_branch_not_k_blocks :
  ∃ K D, difference_family Z_is_zero GFp Z_is_prime_power Z_is_square ∅
           7 3 2 false true = Ret (VPair K D) ∧
         D = [[1; 2; 4]; [3; 6; 5]] ∧
         Z.of_nat (length D) ≠ 3.
Proof.
  exists (GFp 7), [[1; 2; 4]; [3; 6; 5]].
  split_and!; [vm_compute; reflexivity|reflexivity|simpl; lia].
Qed.

(** * Further properties of the verifier *)

Section VerifierParameters.

Context {A : Type} `{Countable A}.

Implicit Types (G : Parent A) (D : list (list A)).

Lemma lengths_checked D k :
  existsb (fun d => bool_decide (Z.of_nat (length d) ≠ k)) D = false ↔
  ∀ d, d ∈ D → Z.of_nat (length d) = k.
Proof.
  split.
  - intros Hex d Hd. destruct (decide (Z.of_nat (length d) = k)); [done|].
    assert (existsb (fun d => bool_decide (Z.of_nat (length d) ≠ k)) D = true);
      [|congruence].
    apply existsb_exists. exists d. split; [by apply list_elem_of_In|].
    by apply bool_decide_eq_true.
  - intros Hall. apply not_true_is_false.
    intros (d & Hd%list_elem_of_In & Hne%bool_decide_eq_true)%existsb_exists.
    by apply Hne, Hall.
Qed.

Lemma inconsistent_parameters_rejected G D v k l :
  cardinality G ≠ v ∨
  (∃ d, d ∈ D ∧ Z.of_nat (length d) ≠ k) ∨
  Z.of_nat (length D) * k * (k - 1) ≠ l * (v - 1) →
  is_difference_family G D (Some v) (Some k) (Some l) = Ret false.
Proof.
  intros Hbad. unfold is_difference_family.
  destruct (decide (cardinality G ≠ v)) as [|Hv]; [done|]. simpl.
  destruct (existsb _ D) eqn:Hex; [done|].
  destruct (decide (Z.of_nat (length D) * k * (k - 1) ≠ l * (v - 1)))
    as [|Hb]; [done|].
  exfalso. destruct Hbad as [?|[(d & Hd & Hne)|?]]; [done| |done].
  apply Hne. by eapply lengths_checked.
Qed.

(** X1. Whatever the parent [G] is, a group or not: when [v] is not
    [G.cardinality()], or some block has not [k] elements, or
    [b*k*(k-1)] differs from [l*(v-1)], the call
    [is_difference_family(G, D, v, k, l)] returns [False]; it does not
    raise, and it does not get as far as [group_law]. *)
Theorem verifier_rejects_inconsistent_parameters G D v k l :
  cardinality G ≠ v ∨
  (∃ d, d ∈ D ∧ Z.of_nat (length d) ≠ k) ∨
  Z.of_nat (length D) * k * (k - 1) ≠ l * (v - 1) →
  is_difference_family G D (Some v) (Some k) (Some l) = Ret false.
Proof.
  intros [Hv|[(d & Hd & Hne)|Hb]]; unfold is_difference_family.
  - by rewrite decide_True.
  - destruct (decide (cardinality G ≠ v)); [done|]. simpl.
    assert (existsb (fun d => bool_decide (Z.of_nat (length d) ≠ k)) D = true)
      as ->; [|done].
    apply existsb_exists. exists d. split; [by apply list_elem_of_In|].
    by apply bool_decide_eq_true.
  - destruct (decide (cardinality G ≠ v)); [done|]. simpl.
    destruct (existsb _ D); [done|]. by rewrite decide_True.
Qed.

Lemma is_difference_family_phases G D v k l :
  is_difference_family G D v k l =
  match (match v with
         | None => Some (cardinality G)
         | Some v => if decide (cardinality G ≠ v) then None else Some v
         end) with
  | None => Ret false
  | Some v =>
      k ← match k with
          | None => d0 ← index D 0; Ret (Z.of_nat (length d0))
          | Some k => Ret k
          end;
      checked_phase G D v k l
  end.
Proof. reflexivity. Qed.

(** When the parameters inferred from the family are the requested ones,
    the call without parameters is the call with them. *)
Lemma inferred_parameters_agree G D d0 v k l :
  cardinality G = v → head D = Some d0 → Z.of_nat (length d0) = k →
  v ≠ 1 → Z.of_nat (length D) * k * (k - 1) = l * (v - 1) →
  is_difference_family G D None None None =
  is_difference_family G D (Some v) (Some k) (Some l).
Proof.
  intros <- Hd0 Hk Hv Hb.
  destruct D as [|d D']; [done|]. injection Hd0 as ->.
  assert (Hidx : index (d0 :: D') 0 = Ret d0) by reflexivity.
  set (DD := d0 :: D') in *.
  unfold is_difference_family.
  rewrite decide_False by (by intros ?). rewrite Hidx.
  unfold mbind, result_bind. cbv beta iota. rewrite Hk.
  destruct (existsb _ DD); [done|].
  unfold py_mod, py_floordiv. rewrite !decide_False by lia.
  rewrite Hb, Z_mod_mult, Z.div_mul by lia.
  repeat (rewrite decide_False by first [lia | by intros ?]). done.
Qed.

(** X2. The optional parameters: for a non-empty family over a parent with
    more than one element, [is_difference_family(G, D)] is the call
    [is_difference_family(G, D, v, k, l)] with [v = G.cardinality()], [k]
    the length of the first block and any [l] with
    [b*k*(k-1) = l*(v-1)]: the same value or the same exception. *)
Theorem verifier_infers_parameters G D d0 v k l :
  cardinality G = v → head D = Some d0 → Z.of_nat (length d0) = k →
  v ≠ 1 → Z.of_nat (length D) * k * (k - 1) = l * (v - 1) →
  is_difference_family G D None None None =
  is_difference_family G D (Some v) (Some k) (Some l).
Proof.
  intros <- Hd0 Hk Hv Hb. rewrite !is_difference_family_phases.
  rewrite decide_False by (by intros ?).
  destruct D as [|d D']; [done|]. injection Hd0 as ->.
  change (index (d0 :: D') 0) with (Ret d0).
  change (checked_phase G (d0 :: D') (cardinality G)
            (Z.of_nat (length d0)) None =
          checked_phase G (d0 :: D') (cardinality G) k (Some l)).
  rewrite Hk. unfold checked_phase.
  destruct (existsb _ (d0 :: D')); [done|]. f_equal.
  unfold infer_l, py_mod, py_floordiv. rewrite !decide_False by lia.
  change (Ret ?x ≫= ?f) with (f x). cbv beta.
  rewrite Hb, Z_mod_mult, Z.div_mul by lia.
  repeat (rewrite decide_False by first [lia | by intros ?]). done.
Qed.

End VerifierParameters.

(** X1 at Z/5Z and the family [[0, 1]] checked with [k = 3]. *)
Lemma verifier_rejects_inconsistent_parameters_witness :
  is_difference_family (Zmod 5 0) [[0; 1]] (Some 5) (Some 3) (Some 1)
  = Ret false.
Proof.
  apply (verifier_rejects_inconsistent_parameters (Zmod 5 0) [[0; 1]] 5 3 1).
  right; left. exists [0; 1]. split; [by left|simpl; lia].
Defined.

(** X2 at the docstring's family of Z/41Z. *)
Lemma verifier_infers_parameters_witness :
  is_difference_family (Zmod 41 0) [[0;1;4;11;29]; [0;2;8;17;22]]
    None None None =
  is_difference_family (Zmod 41 0) [[0;1;4;11;29]; [0;2;8;17;22]]
    (Some 41) (Some 5) (Some 1).
Proof.
  apply (verifier_infers_parameters (Zmod 41 0)
           [[0;1;4;11;29]; [0;2;8;17;22]] [0;1;4;11;29] 41 5 1);
    [reflexivity|reflexivity|reflexivity|lia|reflexivity].
Defined.

(** ** Lists of pairs of positions *)

Section Pairs.

Context {X Y : Type}.

Lemma bind_positions (F : X → list Y) (l : list X) :
  l ≫= F =
  seq 0 (length l) ≫= fun i => match l !! i with Some a => F a | None => [] end.
Proof.
  induction l as [|a l IH]; [done|].
  cbn [length seq]. rewrite !bind_cons, <- fmap_S_seq, list_fmap_bind.
  by rewrite IH.
Qed.

Lemma bind_app_pointwise {Z : Type} (F G : Z → list Y) (l : list Z) :
  l ≫= (fun x => F x ++ G x) ≡ₚ (l ≫= F) ++ (l ≫= G).
Proof.
  induction l as [|x l IH]; [done|].
  rewrite !bind_cons, IH.
  rewrite <- !(assoc_L (++)). apply Permutation_app_head.
  rewrite !(assoc_L (++)). apply Permutation_app_tail.
  apply Permutation_app_comm.
Qed.

Lemma bind_perm_pointwise {Z : Type} (F G : Z → list Y) (l : list Z) :
  (∀ x, x ∈ l → F x ≡ₚ G x) → l ≫= F ≡ₚ l ≫= G.
Proof.
  induction l as [|x l IH]; intros Hext; [done|].
  rewrite !bind_cons. apply Permutation_app.
  - apply Hext. by left.
  - apply IH. intros y Hy. apply Hext. by right.
Qed.

(** A row of a square with the diagonal entry taken out and put last. *)
Lemma row_without_diagonal (G : nat → list Y) (i n : nat) :
  (i < n)%nat →
  (seq 0 n ≫= fun j => if decide (i = j) then [] else G j) ++ G i ≡ₚ
  seq 0 n ≫= G.
Proof.
  induction n as [|n IH]; intros Hi; [lia|].
  rewrite seq_S, !bind_app, !bind_singleton. change (0 + n)%nat with n.
  destruct (decide (i = n)) as [->|Hne].
  - rewrite app_nil_r. apply Permutation_app_tail.
    apply bind_perm_pointwise. intros j Hj%elem_of_seq.
    by rewrite decide_False by lia.
  - rewrite <- (assoc_L (++)), (Permutation_app_comm (G n)), (assoc_L (++)).
    apply Permutation_app_tail, IH. lia.
Qed.

End Pairs.

Section VerifierInvariance.

Context {A : Type} `{Countable A}.
Variables (G : Parent A) (identity : A) (op : A → A → A) (inv_ : A → A).
Hypothesis HG : IsGroup G identity op inv_.

Implicit Types (D : list (list A)) (d : list A).

(** Two families whose blocks have, one by one, the same lengths and feed
    the same differences to the counter get the same answer. *)
Lemma verifier_congruence D D' v k l :
  Forall2 (fun d d' => length d = length d' ∧
             block_differences op inv_ (coerce G <$> d) =
             block_differences op inv_ (coerce G <$> d')) D D' →
  is_difference_family G D v k l = is_difference_family G D' v k l.
Proof.
  intros HDD.
  assert (Hlen : length D = length D') by (by eapply Forall2_length).
  assert (Hidx : (d0 ← index D 0; Ret (Z.of_nat (length d0))) =
                 (d0 ← index D' 0; Ret (Z.of_nat (length d0)))).
  { destruct HDD as [|d d' ?? [Hd _] _]; [done|]. unfold index. simpl.
    by rewrite Hd. }
  assert (Hex : ∀ k, existsb (fun d => bool_decide (Z.of_nat (length d) ≠ k)) D
                   = existsb (fun d => bool_decide (Z.of_nat (length d) ≠ k)) D').
  { intros k0. clear -HDD. induction HDD as [|d d' ?? [Hd _] _ IH]; [done|].
    simpl. by rewrite Hd, IH. }
  assert (Hloop : ∀ k l c,
    existsb (fun d => bool_decide (Z.of_nat (length d) ≠ k)) D = false →
    for_each (block_step G identity op inv_ k l) D c =
    for_each (block_step G identity op inv_ k l) D' c).
  { intros k0 l0 c Hk.
    assert (Hk' := Hk). rewrite Hex in Hk'.
    rewrite lengths_checked in Hk, Hk'.
    rewrite !blocks_differences by done. f_equal.
    unfold differences. clear -HDD.
    induction HDD as [|d d' ?? [_ Hd] _ IH]; [done|].
    csimpl. by rewrite Hd, IH. }
  rewrite !is_difference_family_phases.
  destruct (match v with
            | Some v0 => if decide (cardinality G ≠ v0) then None else Some v0
            | None => Some (cardinality G)
            end) as [v0|]; [|done].
  assert (Hbody : ∀ k0, checked_phase G D v0 k0 l = checked_phase G D' v0 k0 l).
  { intros k0. unfold checked_phase. rewrite <- Hex, <- Hlen.
    destruct (existsb _ D) eqn:Hexk; [done|].
    destruct (infer_l _ v0 k0 l) as [[l0|]|]; [|done..].
    change (counting_phase G D k0 l0 = counting_phase G D' k0 l0).
    unfold counting_phase. rewrite (group_law_eq _ _ _ _ HG).
    change (Ret (identity, op, inv_) ≫= ?f) with (f (identity, op, inv_)).
    cbv beta iota.
    destruct (foldl _ ∅ (elements G) !! identity); [|done].
    change (Ret ?x ≫= ?f) with (f x). cbv beta.
    by rewrite Hloop. }
  destruct k as [k0|].
  - apply Hbody.
  - unfold index in *.
    destruct HDD as [|d d' ?? [Hd _] _]; [done|]. simpl.
    rewrite Hd. apply Hbody.
Qed.

Lemma quotient_translate a b g :
  a ∈ elements G → b ∈ elements G → g ∈ elements G →
  op (op a g) (inv_ (op b g)) = op a (inv_ b).
Proof.
  intros Ha Hb Hg.
  assert (Hbg : op b g ∈ elements G) by (by apply (op_in _ _ _ _ HG)).
  assert (Hw : inv_ (op b g) ∈ elements G) by (by apply (inv_in _ _ _ _ HG)).
  assert (Hib : inv_ b ∈ elements G) by (by apply (inv_in _ _ _ _ HG)).
  assert (Hgw : op g (inv_ (op b g)) = inv_ b).
  { rewrite <- (op_id_l _ _ _ _ HG (op g (inv_ (op b g))))
      by (by apply (op_in _ _ _ _ HG)).
    rewrite <- (op_inv_l _ _ _ _ HG b Hb).
    rewrite <- (op_assoc _ _ _ _ HG (inv_ b) b)
      by (try done; by apply (op_in _ _ _ _ HG)).
    rewrite (op_assoc _ _ _ _ HG b g) by done.
    rewrite (op_inv_r _ _ _ _ HG (op b g) Hbg).
    by apply (op_id_r _ _ _ _ HG). }
  rewrite <- (op_assoc _ _ _ _ HG) by done. by rewrite Hgw.
Qed.

Lemma block_differences_translate d g :
  g ∈ elements G → (∀ x, x ∈ d → x ∈ elements G) →
  block_differences op inv_ (translate_block op g d) =
  block_differences op inv_ d.
Proof.
  intros Hg Hd. unfold block_differences, translate_block.
  rewrite length_fmap.
  apply bind_ext_in. intros i _. apply bind_ext_in. intros j _.
  destruct (decide (i = j)); [done|].
  rewrite !list_lookup_fmap.
  destruct (d !! i) as [a|] eqn:Ha; [|done].
  destruct (d !! j) as [b|] eqn:Hb; [|done]. simpl.
  rewrite quotient_translate; [done|..|done];
    eapply Hd, list_elem_of_lookup_2; eauto.
Qed.

(** X3. Translating a block: over a group whose elements coerce to
    themselves, replacing a block [d] of a family by its translate, every
    element [x] of [d] becoming [op(x, g)], changes nothing to what
    [is_difference_family] returns or raises, whichever of [v], [k], [l]
    are supplied. *)
Theorem verifier_translation_invariant D1 d D2 g v k l :
  (∀ x, x ∈ elements G → coerce G x = x) →
  g ∈ elements G → (∀ x, x ∈ d → x ∈ elements G) →
  is_difference_family G (D1 ++ translate_block op g d :: D2) v k l =
  is_difference_family G (D1 ++ d :: D2) v k l.
Proof.
  intros Hco Hg Hd. apply verifier_congruence.
  apply Forall2_app; [by apply Forall_Forall2_diag, Forall_true|].
  constructor; [|by apply Forall_Forall2_diag, Forall_true].
  split; [apply length_fmap|].
  assert (Hfix : ∀ d', (∀ x, x ∈ d' → x ∈ elements G) → coerce G <$> d' = d').
  { intros d' Hd'. rewrite <- (list_fmap_id d') at 2.
    apply list_fmap_ext. intros ? x Hx%list_elem_of_lookup_2. simpl.
    by apply Hco, Hd'. }
  rewrite !Hfix; [by apply block_differences_translate|done|].
  intros y (x & -> & Hx)%list_elem_of_fmap.
  apply (op_in _ _ _ _ HG); auto.
Qed.

(** All ordered pairs of a block, the diagonal included, are the
    differences of distinct positions together with the diagonal. *)
Lemma block_differences_all_pairs (dd : list A) :
  block_differences op inv_ dd ++ ((fun a => op a (inv_ a)) <$> dd) ≡ₚ
  dd ≫= fun a => dd ≫= fun b => [op a (inv_ b)].
Proof.
  set (n := length dd).
  set (cell := fun (i j : nat) =>
         match dd !! i, dd !! j with
         | Some a, Some b => [op a (inv_ b)]
         | _, _ => []
         end).
  assert (Hdiag : (fun a => op a (inv_ a)) <$> dd = seq 0 n ≫= fun i => cell i i).
  { transitivity (dd ≫= fun a => [op a (inv_ a)]).
    { clear. induction dd as [|a l IH]; [done|]. csimpl. by rewrite IH. }
    rewrite bind_positions. apply bind_ext_in. intros i _.
    unfold cell. by destruct (dd !! i). }
  assert (Hall : (dd ≫= fun a => dd ≫= fun b => [op a (inv_ b)]) =
                 seq 0 n ≫= fun i => seq 0 n ≫= fun j => cell i j).
  { rewrite bind_positions. apply bind_ext_in. intros i Hi%elem_of_seq.
    destruct (lookup_lt_is_Some_2 dd i) as [a Ha]; [unfold n in Hi; lia|].
    rewrite Ha, bind_positions. apply bind_ext_in. intros j _.
    unfold cell. rewrite Ha. by destruct (dd !! j). }
  rewrite Hdiag, Hall. unfold block_differences. fold n.
  rewrite <- bind_app_pointwise.
  apply bind_perm_pointwise. intros i Hi%elem_of_seq.
  apply (row_without_diagonal (cell i)). lia.
Qed.

Lemma block_differences_Permutation (dd dd' : list A) :
  dd ≡ₚ dd' → block_differences op inv_ dd ≡ₚ block_differences op inv_ dd'.
Proof.
  intros Hperm.
  pose proof (block_differences_all_pairs dd) as H1.
  pose proof (block_differences_all_pairs dd') as H2.
  assert (H3 : (dd ≫= fun a => dd ≫= fun b => [op a (inv_ b)]) ≡ₚ
               (dd' ≫= fun a => dd' ≫= fun b => [op a (inv_ b)])).
  { etransitivity; [apply (bind_Permutation _ _ _ Hperm)|].
    apply bind_perm_pointwise. intros a _.
    apply (bind_Permutation _ _ _ Hperm). }
  assert (H4 : (fun a => op a (inv_ a)) <$> dd ≡ₚ
               (fun a => op a (inv_ a)) <$> dd')
    by (by apply fmap_Permutation).
  apply (Permutation_app_inv_r ((fun a => op a (inv_ a)) <$> dd)).
  etransitivity; [exact H1|]. etransitivity; [exact H3|].
  etransitivity; [symmetry; exact H2|].
  apply Permutation_app_head. by symmetry.
Qed.

Lemma occurrences_Permutation g (gs gs' : list A) :
  gs ≡ₚ gs' → occurrences g gs = occurrences g gs'.
Proof. intros Hp. unfold occurrences. by rewrite Hp. Qed.

Lemma reordered_length D D' : reordered D D' → length D = length D'.
Proof.
  intros (D'' & Hp & Hf). rewrite Hp. by eapply Forall2_length.
Qed.

Lemma reordered_blocks D D' :
  reordered D D' →
  (∀ d', d' ∈ D' → ∃ d, d ∈ D ∧ d ≡ₚ d') ∧
  (∀ d, d ∈ D → ∃ d', d' ∈ D' ∧ d ≡ₚ d').
Proof.
  intros (D'' & Hp & Hf). split.
  - intros d' Hd'.
    assert (∃ d, d ∈ D'' ∧ d ≡ₚ d') as (d & Hd & Hdd).
    { clear Hp. induction Hf as [|d0 d0' ?? Hd0 _ IH]; [by apply elem_of_nil in Hd'|].
      apply elem_of_cons in Hd' as [->|Hd'].
      - exists d0. split; [by left|done].
      - destruct (IH Hd') as (d & ? & ?). exists d. split; [by right|done]. }
    exists d. split; [by rewrite Hp|done].
  - intros d Hd. rewrite Hp in Hd. clear Hp.
    induction Hf as [|d0 d0' ?? Hd0 _ IH]; [by apply elem_of_nil in Hd|].
    apply elem_of_cons in Hd as [->|Hd].
    + exists d0'. split; [by left|done].
    + destruct (IH Hd) as (d' & ? & ?). exists d'. split; [by right|done].
Qed.

Lemma reordered_differences D D' :
  reordered D D' →
  differences G op inv_ D ≡ₚ differences G op inv_ D'.
Proof.
  intros (D'' & Hp & Hf). unfold differences.
  etransitivity; [apply (bind_Permutation _ _ _ Hp)|].
  clear Hp. induction Hf as [|d d' ?? Hd _ IH]; [done|].
  rewrite !bind_cons. apply Permutation_app; [|done].
  apply block_differences_Permutation. by apply fmap_Permutation.
Qed.

(** X4. The order of the blocks and the order of the elements within a
    block do not matter: over a group, for a family whose elements coerce
    into [G], [is_difference_family(G, D, v, k, l)] returns the same truth
    value for [D] and for any reordering of [D]. *)
Theorem verifier_order_invariant D D' v k l :
  (∀ d x, d ∈ D → x ∈ d → coerce G x ∈ elements G) →
  reordered D D' →
  is_difference_family G D (Some v) (Some k) (Some l) =
  is_difference_family G D' (Some v) (Some k) (Some l).
Proof.
  intros Hco Hre.
  pose proof (reordered_length D D' Hre) as Hlen.
  pose proof (reordered_blocks D D' Hre) as [Hfrom Hto].
  pose proof (reordered_differences D D' Hre) as Hdiff.
  assert (Hco' : ∀ d x, d ∈ D' → x ∈ d → coerce G x ∈ elements G).
  { intros d' x Hd' Hx. destruct (Hfrom d' Hd') as (d & Hd & Hdd).
    apply (Hco d x Hd). by rewrite Hdd. }
  destruct (decide (cardinality G = v)) as [Hv|Hv].
  2:{ rewrite !inconsistent_parameters_rejected; auto. }
  destruct (decide (Z.of_nat (length D) * k * (k - 1) = l * (v - 1)))
    as [Hb|Hb].
  2:{ rewrite !inconsistent_parameters_rejected; auto.
      right; right. by rewrite <- Hlen. }
  destruct (existsb (fun d => bool_decide (Z.of_nat (length d) ≠ k)) D)
    eqn:Hex.
  { apply existsb_exists in Hex
      as (d & Hd%list_elem_of_In & Hne%bool_decide_eq_true).
    destruct (Hto d Hd) as (d' & Hd' & Hdd).
    rewrite !inconsistent_parameters_rejected; [done|..].
    - right; left. exists d'. split; [done|]. by rewrite <- Hdd.
    - right; left. by exists d. }
  rewrite lengths_checked in Hex.
  assert (Hex' : ∀ d', d' ∈ D' → Z.of_nat (length d') = k).
  { intros d' Hd'. destruct (Hfrom d' Hd') as (d & Hd & Hdd).
    rewrite <- Hdd. by apply Hex. }
  destruct (verifier_bounded_counts G identity op inv_ HG D v k l
              Hco (eq_sym Hv) Hex Hb) as [Hbool Hiff].
  destruct (verifier_bounded_counts G identity op inv_ HG D' v k l
              Hco' (eq_sym Hv) Hex' ltac:(by rewrite <- Hlen))
    as [Hbool' Hiff'].
  assert (Hsame : is_difference_family G D (Some v) (Some k) (Some l) = Ret true
                ↔ is_difference_family G D' (Some v) (Some k) (Some l) = Ret true).
  { rewrite Hiff, Hiff'.
    split; intros [Hid Hcnt]; split.
    - by rewrite <- Hdiff.
    - intros g Hg. rewrite <- (occurrences_Permutation g _ _ Hdiff).
      apply Hcnt. by rewrite Hdiff.
    - by rewrite Hdiff.
    - intros g Hg. rewrite (occurrences_Permutation g _ _ Hdiff).
      apply Hcnt. by rewrite <- Hdiff. }
  destruct Hbool as [Ht|Hf], Hbool' as [Ht'|Hf']; try congruence.
  - apply Hsame in Ht. congruence.
  - apply Hsame in Ht'. congruence.
Qed.

End VerifierInvariance.

(** X3 at Z/7Z: the block [{1,2,4}] and its translate by 3, [{4,5,0}]. *)
Lemma verifier_translation_invariant_witness :
  is_difference_family (Zmod 7 3) [[4; 5; 0]] (Some 7) (Some 3) (Some 1) =
  is_difference_family (Zmod 7 3) [[1; 2; 4]] (Some 7) (Some 3) (Some 1).
Proof.
  apply (verifier_translation_invariant (Zmod 7 3) 0 (add (Zmod 7 3))
           (neg (Zmod 7 3)) (Zmod_is_group 7 3 ltac:(lia))
           [] [1; 2; 4] [] 3 (Some 7) (Some 3) (Some 1)).
  - intros x Hx%elem_of_Zmod. simpl. by apply Z.mod_small.
  - apply elem_of_Zmod. lia.
  - intros x Hx. apply elem_of_Zmod.
    repeat (apply elem_of_cons in Hx as [->|Hx]; [lia|]).
    by apply elem_of_nil in Hx.
Defined.

(** X4 at the docstring's family of Z/41Z, its blocks swapped and their
    elements shuffled. *)
Lemma verifier_order_invariant_witness :
  is_difference_family (Zmod 41 0) [[0;1;4;11;29]; [0;2;8;17;22]]
    (Some 41) (Some 5) (Some 1) =
  is_difference_family (Zmod 41 0) [[22;17;8;2;0]; [1;0;4;29;11]]
    (Some 41) (Some 5) (Some 1).
Proof.
  apply (verifier_order_invariant (Zmod 41 0) 0 (add (Zmod 41 0))
           (neg (Zmod 41 0)) (Zmod_is_group 41 0 ltac:(lia))).
  - intros d x _ _. by apply Zmod_coerce_in.
  - exists [[0;2;8;17;22]; [0;1;4;11;29]]. split.
    + apply perm_swap.
    + repeat constructor.
      * symmetry. apply (Permutation_rev [22;17;8;2;0]).
      * change ([0;1;4;11;29] ≡ₚ [1;0] ++ [4;29;11]).
        change [0;1;4;11;29] with ([0;1] ++ [4;11;29]).
        apply Permutation_app; [apply perm_swap|].
        apply perm_skip, perm_swap.
Defined.

(** * Further properties of the verifier: the one-element group *)

Section OneElement.

Context {A : Type} `{Countable A}.

(** X5. On a parent with one element [l] cannot be inferred: whenever
    [v] passes (it is left out, or is 1) and all blocks have [k] elements
    ([k] supplied, or the length of the first block), the call without
    [l] computes [b*k*(k-1) % 0] and raises [ZeroDivisionError]. *)
Theorem verifier_one_element_group (G : Parent A) D v k k0 :
  cardinality G = 1 →
  v = None ∨ v = Some 1 →
  k = Some k0 ∨
    (k = None ∧ ∃ d0, head D = Some d0 ∧ Z.of_nat (length d0) = k0) →
  (∀ d, d ∈ D → Z.of_nat (length d) = k0) →
  is_difference_family G D v k None = Raise ZeroDivisionError.
Proof.
  intros Hq Hv Hk Hlen. rewrite is_difference_family_phases, Hq.
  assert (Hphase : checked_phase G D 1 k0 None = Raise ZeroDivisionError).
  { unfold checked_phase.
    rewrite (proj2 (lengths_checked D k0) Hlen). reflexivity. }
  destruct Hv as [-> | ->], Hk as [-> | (-> & d0 & Hd0 & <-)];
    try rewrite decide_False by (by intros ?); try exact Hphase.
  - destruct D as [|d D']; [done|]. injection Hd0 as ->. exact Hphase.
  - destruct D as [|d D']; [done|]. injection Hd0 as ->. exact Hphase.
Qed.

End OneElement.

(** X5 at [is_difference_family(Zmod(1), [[0]])]. *)
Lemma verifier_one_element_group_witness :
  is_difference_family (Zmod 1 0) [[0]] None None None
  = Raise ZeroDivisionError.
Proof.
  apply (verifier_one_element_group (Zmod 1 0) [[0]] None None 1).
  - reflexivity.
  - by left.
  - right. split; [done|]. by exists [0].
  - intros d ->%list_elem_of_singleton. reflexivity.
Defined.

(** * Further properties of the coset generator *)

Section CosetGenerator.

Context {A : Type} `{Countable A}.

Implicit Types (K : Parent A).

(** X7. The docstring's statement that all cyclotomic cosets form a
    (q, f, f-1) difference family: for a field [K] of [q] elements and an
    index [e >= 2] with [q - 1 = e*f], the verifier accepts the family
    [cyclotomic_cosets(K, e)] with [v = q], [k = f] and [l = f - 1]. *)
Theorem cyclotomic_cosets_difference_family K e f :
  IsField K → 2 ≤ e → 1 ≤ f → cardinality K = e * f + 1 →
  ∃ D, cyclotomic_cosets K e None false = Ret D ∧
       is_difference_family K D (Some (cardinality K)) (Some f)
         (Some (f - 1)) = Ret true.
Proof.
  intros HF He Hf Hq.
  exists (coset_block K e f <$> xrange e). split.
  - apply cyclotomic_cosets_blocks; [done|lia|done..].
  - apply (cosets_verified K HF e f); [lia|done|done].
Qed.

(** X8. When the coset generator fails: [e = 0] raises
    [ZeroDivisionError] (from [q % e]); every negative [e], and every
    [e] with [q % e != 1], fails the assertion; in all other cases the
    call returns. *)
Theorem cyclotomic_cosets_failures K e cosets with_zero :
  (e = 0 →
   cyclotomic_cosets K e cosets with_zero = Raise ZeroDivisionError) ∧
  (e ≠ 0 → cardinality K `mod` e ≠ 1 →
   cyclotomic_cosets K e cosets with_zero = Raise AssertionError) ∧
  (e < 0 →
   cyclotomic_cosets K e cosets with_zero = Raise AssertionError) ∧
  (e ≠ 0 → cardinality K `mod` e = 1 →
   ∃ D, cyclotomic_cosets K e cosets with_zero = Ret D).
Proof.
  assert (Hfail : e ≠ 0 → cardinality K `mod` e ≠ 1 →
            cyclotomic_cosets K e cosets with_zero = Raise AssertionError).
  { intros He Hm. unfold cyclotomic_cosets, py_mod.
    rewrite decide_False by done.
    change (Ret ?x ≫= ?f) with (f x). cbv beta.
    by rewrite decide_False. }
  split_and!; [|done| |].
  - intros ->. reflexivity.
  - intros He. apply Hfail; [lia|].
    pose proof (Z.mod_neg_bound (cardinality K) e He). lia.
  - intros He Hm. unfold cyclotomic_cosets, py_mod, py_floordiv.
    rewrite !decide_False by done.
    change (Ret ?x ≫= ?f) with (f x). cbv beta.
    rewrite decide_True by done.
    change (Ret ?x ≫= ?f) with (f x). cbv beta.
    destruct with_zero; by eexists.
Qed.


End CosetGenerator.

(** X6 at [cyclotomic_cosets(GF(7), 2)]. *)
Lemma cyclotomic_cosets_partition_witness :
  ∃ D, cyclotomic_cosets (Zmod 7 3) 2 None false = Ret D ∧
       Z.of_nat (length D) = 2 ∧
       (∀ d, d ∈ D → Z.of_nat (length d) = (7 - 1) `div` 2) ∧
       NoDup (mjoin D) ∧
       (∀ y, y ∈ mjoin D ↔ y ∈ elements (Zmod 7 3) ∧ y ≠ 0).
Proof.
  apply (cyclotomic_cosets_partition (Zmod 7 3) 2 GF7_is_field);
    [lia|reflexivity].
Defined.

(** X7 at [cyclotomic_cosets(GF(7), 2)], the docstring's example. *)
Lemma cyclotomic_cosets_difference_family_witness :
  ∃ D, cyclotomic_cosets (Zmod 7 3) 2 None false = Ret D ∧
       is_difference_family (Zmod 7 3) D (Some 7) (Some 3) (Some 2) = Ret true.
Proof.
  apply (cyclotomic_cosets_difference_family (Zmod 7 3) 2 3 GF7_is_field);
    [lia|lia|reflexivity].
Defined.


(** * Further properties of the image checker *)

Section CheckerMore.

Context {A : Type} `{Countable A}.
Variable is_zero : A -> bool.

Implicit Types (elts : list A) (f : gmap A Z) (images : gset Z).

(** The counter of consumed elements only shifts the count. *)
Lemma distinct_images_loop_shift elts f images n :
  returned (distinct_images_loop is_zero elts f images n) =
    returned (distinct_images_loop is_zero elts f images 0) ∧
  images_after (distinct_images_loop is_zero elts f images n) =
    images_after (distinct_images_loop is_zero elts f images 0) ∧
  consumed (distinct_images_loop is_zero elts f images n) =
    (n + consumed (distinct_images_loop is_zero elts f images 0))%nat.
Proof.
  revert images n. induction elts as [|e elts IH]; intros images n; simpl.
  { split_and!; [done|done|lia]. }
  destruct (is_zero e); simpl; [split_and!; [done|done|lia]|].
  destruct (f !! e) as [i|]; simpl; [|split_and!; [done|done|lia]].
  destruct (decide (i ∈ images)); simpl; [split_and!; [done|done|lia]|].
  destruct (IH ({[i]} ∪ images) (S n)) as (-> & -> & ->).
  destruct (IH ({[i]} ∪ images) 1%nat) as (-> & -> & ->).
  split_and!; [done|done|lia].
Qed.

Lemma distinct_images_loop_app elts1 elts2 f images n :
  distinct_images_loop is_zero (elts1 ++ elts2) f images n =
  match returned (distinct_images_loop is_zero elts1 f images n) with
  | Ret true =>
      distinct_images_loop is_zero elts2 f
        (images_after (distinct_images_loop is_zero elts1 f images n))
        (consumed (distinct_images_loop is_zero elts1 f images n))
  | _ => distinct_images_loop is_zero elts1 f images n
  end.
Proof.
  revert images n. induction elts1 as [|e elts1 IH]; intros images n; simpl.
  { done. }
  destruct (is_zero e); simpl; [done|].
  destruct (f !! e) as [i|]; simpl; [|done].
  destruct (decide (i ∈ images)); simpl; [done|].
  apply IH.
Qed.

(** X10. Checking a sequence in two parts: when the call on [elts1]
    returns [True], the call on [elts1 + elts2] with the same set returns
    what the call on [elts2] returns with the set as the first call left
    it, leaves the same set, and has consumed [len(elts1)] elements more;
    otherwise it stops exactly as the call on [elts1] does and [elts2] is
    never touched. *)
Theorem checker_concatenation elts1 elts2 f (s : gset Z) :
  let o1 := _nonzero_and_have_distinct_images is_zero elts1 f (Some s) in
  let o2 := _nonzero_and_have_distinct_images is_zero elts2 f
              (Some (images_after o1)) in
  let o := _nonzero_and_have_distinct_images is_zero (elts1 ++ elts2) f
             (Some s) in
  (returned o1 = Ret true →
     returned o = returned o2 ∧ images_after o = images_after o2 ∧
     consumed o = (length elts1 + consumed o2)%nat) ∧
  (returned o1 ≠ Ret true → o = o1).
Proof.
  intros o1 o2 o.
  assert (Ho : o = match returned o1 with
                   | Ret true =>
                       distinct_images_loop is_zero elts2 f (images_after o1)
                         (consumed o1)
                   | _ => o1
                   end)
    by apply distinct_images_loop_app.
  split.
  - intros Ht. rewrite Ht in Ho. rewrite Ho.
    destruct (distinct_images_loop_shift elts2 f (images_after o1)
                (consumed o1)) as (-> & -> & ->).
    split_and!; [done|done|]. f_equal.
    pose proof (distinct_images_loop_run is_zero elts1 f s 0) as Hrun.
    cbv zeta in Hrun.
    change (distinct_images_loop is_zero elts1 f s 0) with o1 in Hrun.
    destruct Hrun as (m & ims & _ & _ & _ & _ & Hend).
    destruct Hend as [(_ & -> & ->)|(e & _ & _ & Hwhy)]; [done|].
    destruct Hwhy as [[_ ?]|[(_ & _ & ?)|(_ & ? & _)]]; congruence.
  - intros Hne. rewrite Ho.
    destruct (returned o1) as [[|]|]; done.
Qed.

(** When the loop stops at an element that is zero or whose image is
    taken, the elements up to and including it do not satisfy the
    contract. *)
Lemma stop_breaks_contract elts f images m e (ims : list Z) :
  Forall2 (fun e i => is_zero e = false ∧ f !! e = Some i) (take m elts) ims →
  elts !! m = Some e →
  is_zero e = true ∨
  (∃ i, f !! e = Some i ∧ i ∈ (list_to_set ims ∪ images : gset Z)) →
  ¬ nonzero_distinct is_zero (take (S m) elts) f images.
Proof.
  intros Hpre He Hwhy (Hnz & ims' & Hf' & Hnd' & Hfresh').
  rewrite (take_S_r _ _ _ He) in Hnz, Hf'.
  rewrite Forall_app, Forall_singleton in Hnz. destruct Hnz as [_ Hnz].
  apply Forall2_app_inv_l in Hf' as (ims1 & ims2 & Hf1 & Hf2 & ->).
  apply Forall2_cons_inv_l in Hf2 as (i' & ims3 & Hi' & Hnil & ->).
  apply Forall2_nil_inv_l in Hnil as ->.
  destruct Hwhy as [Hz|(i & Hi & Hin)]; [congruence|].
  rewrite Hi in Hi'. injection Hi' as <-.
  assert (ims1 = ims) as ->.
  { eapply images_functional; [exact Hf1|].
    eapply Forall2_impl; [exact Hpre|]. by intros ?? [_ ?]. }
  apply NoDup_app in Hnd' as (_ & Hdisj & _).
  rewrite Forall_app, Forall_singleton in Hfresh'.
  destruct Hfresh' as [_ Hfresh'].
  apply elem_of_union in Hin as [Hin|Hin]; [|done].
  apply elem_of_list_to_set in Hin.
  apply (Hdisj i Hin). by left.
Qed.

(** X11. The only exception the checker raises is [KeyError], and it
    raises it exactly when some element, preceded only by elements that
    satisfy the contract, is non-zero and is not a key of [f]. *)
Theorem checker_missing_key elts f (images : option (gset Z)) :
  let o := _nonzero_and_have_distinct_images is_zero elts f images in
  let forbidden := match images with None => ∅ | Some s => s end in
  (∀ ex, returned o = Raise ex → ex = KeyError) ∧
  (returned o = Raise KeyError ↔
   ∃ (n : nat) (e : A),
     elts !! n = Some e ∧
     nonzero_distinct is_zero (take n elts) f forbidden ∧
     is_zero e = false ∧ f !! e = None).
Proof.
  intros o forbidden.
  pose proof (distinct_images_loop_run is_zero elts f forbidden 0) as Hrun.
  cbv zeta in Hrun.
  change (distinct_images_loop is_zero elts f forbidden 0) with o in Hrun.
  destruct Hrun as (m & ims & Hpre & Hnd & Hfresh & _ & Hend).
  pose proof (accepted_prefix_distinct is_zero _ _ _ _ Hpre Hnd Hfresh) as Hok.
  split.
  - intros ex Hex.
    destruct Hend as [(Hr & _)|(e & _ & _ & Hwhy)]; [congruence|].
    destruct Hwhy as [[_ ?]|[(_ & _ & ?)|(_ & ? & _)]]; congruence.
  - split.
    + intros Hkey.
      destruct Hend as [(Hr & _)|(e & He & _ & Hwhy)]; [congruence|].
      destruct Hwhy as [[_ ?]|[(Hz & Hf & _)|(_ & ? & _)]];
        [congruence| |congruence].
      by exists m, e.
    + intros (n & e & He & Hcontract & Hz & Hf).
      assert (Hn : (n < length elts)%nat) by (by eapply lookup_lt_Some).
      assert (Hmn : (m ≤ n)%nat).
      { destruct (decide (m ≤ n)%nat) as [|Hgt]; [done|]. exfalso.
        assert (Hin : take m elts !! n = Some e)
          by (rewrite lookup_take_lt by lia; done).
        destruct (Forall2_lookup_l _ _ _ _ _ Hpre Hin) as (i & _ & _ & Hfi).
        congruence. }
      destruct Hend as [(_ & -> & _)|(e' & He' & _ & Hwhy)]; [lia|].
      destruct (decide (m = n)) as [->|Hne].
      { assert (e' = e) as -> by congruence.
        destruct Hwhy as [[? _]|[(_ & _ & ?)|(_ & _ & i & ? & _)]];
          [congruence|done|congruence]. }
      exfalso.
      assert (Hprefix : nonzero_distinct is_zero (take (S m) elts) f forbidden).
      { replace (take (S m) elts) with (take (S m) (take n elts))
          by (rewrite take_take; f_equal; lia).
        by apply nonzero_distinct_take. }
      destruct Hwhy as [[Hz' _]|[(Hz' & Hf' & _)|(_ & _ & i & Hfi & Hi)]].
      * apply (stop_breaks_contract elts f forbidden m e' ims Hpre He');
          [by left|done].
      * destruct Hprefix as (_ & ims' & Hf2 & _).
        rewrite (take_S_r _ _ _ He') in Hf2.
        apply Forall2_app_inv_l in Hf2 as (? & ? & _ & Hf2 & _).
        apply Forall2_cons_inv_l in Hf2 as (? & ? & ? & _). congruence.
      * apply (stop_breaks_contract elts f forbidden m e' ims Hpre He');
          [right; eauto|done].
Qed.

End CheckerMore.

(** * What the verifier raises *)

Section VerifierExceptions.

Context {A : Type} `{Countable A}.

Implicit Types (G : Parent A) (D : list (list A)) (gs : list A)
  (c : gmap A Z) (g identity : A) (l : Z).

(** The counting loop raises only [KeyError], at a difference other than
    the identity that is not a key of the counter the loop started with. *)
Lemma count_loop_raises identity l gs c ex :
  for_each (count_difference identity l) gs c = Raise ex →
  ex = KeyError ∧ ∃ g, g ∈ gs ∧ g ≠ identity ∧ c !! g = None.
Proof.
  revert c. induction gs as [|g gs IH]; intros c; simpl; [discriminate|].
  unfold count_difference at 1.
  destruct (decide (g = identity)) as [->|Hg]; [discriminate|].
  destruct (c !! g) as [n|] eqn:Hn.
  - destruct (decide (n + 1 > l)); [discriminate|].
    intros (-> & g' & Hg' & Hne & Hnone)%IH. split; [done|].
    exists g'. split_and!; [by right|done|].
    destruct (decide (g' = g)) as [->|Hgg].
    + by rewrite lookup_insert_eq in Hnone.
    + by rewrite lookup_insert_ne in Hnone.
  - intros [= <-]. split; [done|]. exists g. split_and!; [by left|done|done].
Qed.

Lemma existsb_lengths D (k : Z) :
  existsb (fun d => bool_decide (Z.of_nat (length d) ≠ k)) D = false →
  ∀ d, d ∈ D → Z.of_nat (length d) = k.
Proof.
  induction D as [|d0 D IH]; simpl; [by intros _ d ?%elem_of_nil|].
  intros [Hd0 HD]%orb_false_elim d [->|Hd]%elem_of_cons; [|by apply IH].
  apply bool_decide_eq_false in Hd0.
  destruct (decide (Z.of_nat (length d0) = k)); [done|by exfalso].
Qed.

(** X12. The verifier raises in four situations only: [IndexError] when
    [k] is not given and the family is empty ([D[0]]); [ZeroDivisionError]
    when [l] is not given and [G] has one element (the modulus [v-1]);
    [NameError] when [G] is neither in [Groups()] nor in
    [CommutativeAdditiveGroups()], where [group_law] evaluates the unbound
    name [ZZ]; [KeyError] when the identity is not among the elements that
    iterating over [G] yields, or some difference of two members of a
    block, other than the identity, is not among them.  In particular the
    [ValueError] of [group_law] is never raised. *)
Theorem verifier_exceptions G D (v k l : option Z) ex :
  is_difference_family G D v k l = Raise ex →
  (ex = IndexError ∧ k = None ∧ D = []) ∨
  (ex = ZeroDivisionError ∧ l = None ∧ cardinality G = 1) ∨
  (ex = NameError ∧ category_of G = Unclassified) ∨
  (ex = KeyError ∧
   ∃ identity op inv_, group_law G = Ret (identity, op, inv_) ∧
     (identity ∉ elements G ∨
      ∃ g, g ∈ differences G op inv_ D ∧ g ≠ identity ∧ g ∉ elements G)).
Proof.
  unfold is_difference_family.
  set (cv := match v with
             | None => Some (cardinality G)
             | Some v0 => if decide (cardinality G ≠ v0) then None else Some v0
             end).
  assert (Hcv : cv = None ∨ cv = Some (cardinality G)).
  { unfold cv. destruct v as [v0|]; [|by right].
    destruct (decide (cardinality G ≠ v0)) as [|Hv]; [by left|right].
    f_equal. destruct (decide (cardinality G = v0)); [done|by exfalso]. }
  destruct Hcv as [->| ->]; [discriminate|].
  set (kk := match k with
             | None => d0 ← index D 0; Ret (Z.of_nat (length d0))
             | Some k0 => Ret k0
             end).
  destruct kk as [k0|ex0] eqn:Hkk; simpl.
  2:{ intros [= <-]. left. unfold kk in Hkk.
      destruct k as [k0|]; [discriminate|].
      destruct D as [|d0 D']; [|discriminate].
      injection Hkk as <-. done. }
  destruct (existsb _ D) eqn:Hlen; [discriminate|].
  pose proof (existsb_lengths D k0 Hlen) as Hk0.
  set (ll := match l with
             | None =>
                 r ← py_mod (Z.of_nat (length D) * k0 * (k0 - 1))
                            (cardinality G - 1);
                 if decide (r ≠ 0) then Ret None
                 else l0 ← py_floordiv (Z.of_nat (length D) * k0 * (k0 - 1))
                                       (cardinality G - 1); Ret (Some l0)
             | Some l0 =>
                 if decide (Z.of_nat (length D) * k0 * (k0 - 1)
                            ≠ l0 * (cardinality G - 1))
                 then Ret None else Ret (Some l0)
             end).
  destruct ll as [[l0|]|ex0] eqn:Hll; simpl; [|discriminate|].
  2:{ intros [= <-]. right; left. unfold ll in Hll.
      destruct l as [l0|].
      { destruct (decide _); discriminate. }
      unfold py_mod, py_floordiv in Hll.
      destruct (decide (cardinality G - 1 = 0)) as [Hz|Hz].
      - injection Hll as <-. split_and!; [done|done|lia].
      - simpl in Hll. destruct (decide _); discriminate. }
  unfold group_law.
  destruct (category_of G) eqn:Hcat; simpl.
  3:{ intros [= <-]. right; right; left. done. }
  - rewrite zero_counter_lookup.
    destruct (decide (one G ∈ elements G)) as [Hin|Hnin]; simpl.
    2:{ rewrite lookup_empty. simpl. intros [= <-]. right; right; right.
        split; [done|]. exists (one G), (mul G), (inv G). split; [done|].
        by left. }
    rewrite (blocks_differences _ _ _ _ _ _ _ _ Hk0).
    destruct (for_each _ (differences G (mul G) (inv G) D) _)
      as [r|ex1] eqn:Hloop; simpl; [destruct r; discriminate|].
    intros [= <-]. right; right; right.
    apply count_loop_raises in Hloop as (-> & g & Hg & Hne & Hnone).
    split; [done|]. exists (one G), (mul G), (inv G). split; [done|].
    right. exists g. split_and!; [done|done|].
    rewrite lookup_delete_ne, zero_counter_lookup in Hnone by done.
    intros Hin'. by rewrite decide_True in Hnone.
  - rewrite zero_counter_lookup.
    destruct (decide (zero G ∈ elements G)) as [Hin|Hnin]; simpl.
    2:{ rewrite lookup_empty. simpl. intros [= <-]. right; right; right.
        split; [done|]. exists (zero G), (add G), (neg G). split; [done|].
        by left. }
    rewrite (blocks_differences _ _ _ _ _ _ _ _ Hk0).
    destruct (for_each _ (differences G (add G) (neg G) D) _)
      as [r|ex1] eqn:Hloop; simpl; [destruct r; discriminate|].
    intros [= <-]. right; right; right.
    apply count_loop_raises in Hloop as (-> & g & Hg & Hne & Hnone).
    split; [done|]. exists (zero G), (add G), (neg G). split; [done|].
    right. exists g. split_and!; [done|done|].
    rewrite lookup_delete_ne, zero_counter_lookup in Hnone by done.
    intros Hin'. by rewrite decide_True in Hnone.
Qed.

End VerifierExceptions.

(** X12 at the empty family without [k]: [D[0]] raises. *)
Lemma verifier_exceptions_witness :
  (IndexError = IndexError ∧ @None Z = None ∧ @nil (list Z) = []) ∨
  (IndexError = ZeroDivisionError ∧ @None Z = None ∧
   cardinality (Zmod 7 3) = 1) ∨
  (IndexError = NameError ∧ category_of (Zmod 7 3) = Unclassified) ∨
  (IndexError = KeyError ∧
   ∃ identity op inv_, group_law (Zmod 7 3) = Ret (identity, op, inv_) ∧
     (identity ∉ elements (Zmod 7 3) ∨
      ∃ g, g ∈ differences (Zmod 7 3) op inv_ [] ∧ g ≠ identity ∧
           g ∉ elements (Zmod 7 3))).
Proof.
  apply (verifier_exceptions (Zmod 7 3) [] None None None IndexError).
  reflexivity.
Defined.

(** * Further properties of the constructor *)

Section ConstructorModes.

Context {A : Type} `{Countable A}.
Variable is_zero : A -> bool.
Variable GF : Z -> Parent A.
Variable is_prime_power : Z -> bool.
Variable is_square : Z -> bool.
Variable DF_constructions : gmap (Z * Z * Z) (Parent A * list (list A)).

Local Abbreviation construct :=
  (difference_family is_zero GF is_prime_power is_square DF_constructions).
Local Abbreviation checker := (_nonzero_and_have_distinct_images is_zero).

#[local] Arguments Returned {A T} x.
#[local] Arguments Fall {A T} x.

Lemma checker_raises elts f images ex :
  returned (checker elts f images) = Raise ex → ex = KeyError.
Proof.
  unfold _nonzero_and_have_distinct_images.
  generalize (match images with None => (∅ : gset Z) | Some s => s end).
  generalize 0%nat.
  induction elts as [|e elts IH]; intros n s; simpl; [discriminate|].
  destruct (is_zero e); simpl; [discriminate|].
  destruct (f !! e) as [i|]; simpl; [|congruence].
  destruct (decide (i ∈ s)); simpl; [discriminate|apply IH].
Qed.

Lemma cyclotomic_cosets_outcome (K : Parent A) e cosets with_zero :
  (∃ D, cyclotomic_cosets K e cosets with_zero = Ret D) ∨
  cyclotomic_cosets K e cosets with_zero = Raise AssertionError ∨
  cyclotomic_cosets K e cosets with_zero = Raise ZeroDivisionError.
Proof.
  unfold cyclotomic_cosets, py_mod, py_floordiv.
  destruct (decide (e = 0)); simpl; [by right; right|].
  destruct (decide (_ = 1)); simpl; [|by right; left].
  left. destruct with_zero; by eexists.
Qed.

Lemma length_translates (K : Parent A) x m t B :
  length (translates K x m t B) = Z.to_nat t ∧
  ∀ d, d ∈ translates K x m t B → length d = length B.
Proof.
  unfold translates, xrange. split.
  - by rewrite length_fmap, length_seqZ.
  - intros d (i & -> & _)%list_elem_of_fmap. by rewrite length_fmap.
Qed.

(** The pieces of the body in the two modes: with [existence=True] a piece
    returns [True] where the construction yields its result, falls through
    where the construction falls through, and raises what it raises. *)
Lemma single_block_modes (K : Parent A) v k :
  (single_block is_square K v k true = Ret (Returned (VBool true)) ∧
   ((∃ D, single_block is_square K v k false = Ret (Returned (VPair K D))) ∨
    single_block is_square K v k false = Raise AssertionError ∨
    single_block is_square K v k false = Raise ZeroDivisionError)) ∨
  (single_block is_square K v k true = Ret (Fall tt) ∧
   single_block is_square K v k false = Ret (Fall tt)).
Proof.
  unfold single_block.
  assert (Hc : ∀ e cosets wz,
    (∃ D, (D ← cyclotomic_cosets K e cosets wz;
           Ret (Returned (VPair K D) : flow unit)) = Ret (Returned (VPair K D))) ∨
    (D ← cyclotomic_cosets K e cosets wz;
     Ret (Returned (VPair K D) : flow unit)) = Raise AssertionError ∨
    (D ← cyclotomic_cosets K e cosets wz;
     Ret (Returned (VPair K D) : flow unit)) = Raise ZeroDivisionError).
  { intros e cosets wz.
    destruct (cyclotomic_cosets_outcome K e cosets wz) as [[D ->]|[->| ->]];
      [left; by exists D|by right; left|by right; right]. }
  repeat (match goal with
          | |- context [if ?b then _ else _] => destruct b
          end; [left; split; [done|apply Hc]|]).
  by right.
Qed.

Lemma wilson_odd_modes (K : Parent A) v k t :
  (wilson_odd is_zero K v k t true = Ret (Returned (VBool true)) ∧
   ∃ m B, wilson_odd is_zero K v k t false =
            Ret (Fall (Some (translates K (multiplicative_generator K) m t B))) ∧
          (1 ≤ k → Z.of_nat (length B) = k)) ∨
  (wilson_odd is_zero K v k t true = Ret (Fall None) ∧
   wilson_odd is_zero K v k t false = Ret (Fall None)) ∨
  (∃ ex, wilson_odd is_zero K v k t true = Raise ex ∧
         wilson_odd is_zero K v k t false = Raise ex ∧
         (ex = KeyError ∨ (ex = ZeroDivisionError ∧ k * (k - 1) = 0))).
Proof.
  unfold wilson_odd, py_floordiv.
  destruct (decide (k = 0)) as [->|Hk]; simpl.
  { right; right. exists ZeroDivisionError. auto. }
  match goal with
  | |- context [returned ?o] => destruct (returned o) as [[|]|ex] eqn:Hc
  end; simpl.
  - left. split; [done|]. eexists _, _. split; [done|].
    intros Hk1. unfold xrange. rewrite length_fmap, length_seqZ. lia.
  - right; left. done.
  - right; right. exists ex. apply checker_raises in Hc as ->. auto.
Qed.

Lemma wilson_even_modes (K : Parent A) v k t :
  (wilson_even is_zero K v k t true = Ret (Returned (VBool true)) ∧
   ∃ m B, wilson_even is_zero K v k t false =
            Ret (Fall (Some (translates K (multiplicative_generator K) m t B))) ∧
          (1 ≤ k → Z.of_nat (length B) = k)) ∨
  (wilson_even is_zero K v k t true = Ret (Fall None) ∧
   wilson_even is_zero K v k t false = Ret (Fall None)) ∨
  (∃ ex, wilson_even is_zero K v k t true = Raise ex ∧
         wilson_even is_zero K v k t false = Raise ex ∧
         (ex = KeyError ∨ (ex = ZeroDivisionError ∧ k * (k - 1) = 0))).
Proof.
  unfold wilson_even, py_floordiv.
  destruct (decide (k - 1 = 0)) as [Hk|Hk]; simpl.
  { right; right. exists ZeroDivisionError. split_and!; [done|done|].
    right. split; [done|]. rewrite Hk. lia. }
  match goal with
  | |- context [returned ?o] => destruct (returned o) as [[|]|ex] eqn:Hc
  end; simpl.
  - left. split; [done|]. eexists _, _. split; [done|].
    intros Hk1. unfold xrange.
    cbn [length]. rewrite length_fmap, length_seqZ. lia.
  - right; left. done.
  - right; right. exists ex. apply checker_raises in Hc as ->. auto.
Qed.

Lemma search_c_outcome (K : Parent A) r to_coset cs :
  (∃ c, search_c is_zero K r to_coset cs = Ret c) ∨
  search_c is_zero K r to_coset cs = Raise KeyError.
Proof.
  induction cs as [|c cs IH]; simpl; [left; by eexists|].
  match goal with
  | |- context [returned ?o] => destruct (returned o) as [[|]|ex] eqn:Hc
  end; simpl.
  - left; by eexists.
  - done.
  - right. by apply checker_raises in Hc as ->.
Qed.

Lemma wilson_6_modes (K : Parent A) v t :
  (wilson_6 is_zero K v t true = Ret (Returned (VBool true)) ∧
   ∃ m B, wilson_6 is_zero K v t false =
            Ret (Fall (Some (translates K (multiplicative_generator K) m t B))) ∧
          Z.of_nat (length B) = 6) ∨
  (wilson_6 is_zero K v t true = Ret (Fall None) ∧
   wilson_6 is_zero K v t false = Ret (Fall None)) ∨
  (wilson_6 is_zero K v t true = Raise KeyError ∧
   wilson_6 is_zero K v t false = Raise KeyError).
Proof.
  unfold wilson_6.
  match goal with
  | |- context [search_c is_zero K ?r ?tc ?cs] =>
      destruct (search_c_outcome K r tc cs) as [[[c|] ->]| ->]
  end; simpl.
  - left. split; [done|]. by eexists _, _.
  - right; left. done.
  - right; right. done.
Qed.

(** The prime-power part of the body in the two modes. *)
Lemma prime_power_case_modes v k l t :
  let K := GF v in
  let pe := prime_power_case is_zero GF is_square v k l t true in
  let pc := prime_power_case is_zero GF is_square v k l t false in
  (pe = Ret (Returned (VBool true)) ∧ (l = k - 1 ∨ t = 1) ∧
   ((∃ D, pc = Ret (Returned (VPair K D))) ∨
    pc = Raise AssertionError ∨ pc = Raise ZeroDivisionError)) ∨
  (pe = Ret (Returned (VBool true)) ∧ l = 1 ∧
   ∃ m B, pc = Ret (Fall (Some (K, translates K (multiplicative_generator K)
                                     m t B))) ∧
          (1 ≤ k → Z.of_nat (length B) = k)) ∨
  (pe = Ret (Fall None) ∧ pc = Ret (Fall None)) ∨
  (∃ ex, pe = Raise ex ∧ pc = Raise ex ∧
         (ex = NotImplementedError ∨ ex = KeyError ∨
          (ex = ZeroDivisionError ∧ k * (k - 1) = 0))).
Proof.
  intros K pe pc. unfold pe, pc, prime_power_case. fold K.
  destruct (decide (l = k - 1)) as [Hl|Hl].
  { left. split_and!; [done|by left|].
    unfold py_floordiv. destruct (decide (k = 0)); simpl; [by right; right|].
    destruct (cyclotomic_cosets_outcome K ((v - 1) `div` k) None false)
      as [[D ->]|[->| ->]]; simpl;
      [left; by exists D|by right; left|by right; right]. }
  assert (Hrest :
    ∀ (first_e first_c : result (flow unit)),
      first_e = Ret (Fall tt) → first_c = Ret (Fall tt) →
      let rest ex := fun _ : unit =>
        if decide (l ≠ 1) then Raise NotImplementedError
        else
          and_then (if decide (k `mod` 2 = 1)
                    then wilson_odd is_zero K v k t ex
                    else wilson_even is_zero K v k t ex) (fun D =>
          and_then (match D with
                    | None => if decide (k = 6) then wilson_6 is_zero K v t ex
                              else Ret (Fall None)
                    | Some D => Ret (Fall (Some D))
                    end) (fun D =>
          Ret (Fall (match D with
                     | None => None
                     | Some D => Some (K, D)
                     end)))) in
      (and_then first_e (rest true) = Ret (Returned (VBool true)) ∧ l = 1 ∧
       ∃ m B, and_then first_c (rest false) =
                Ret (Fall (Some (K, translates K (multiplicative_generator K)
                                      m t B))) ∧
              (1 ≤ k → Z.of_nat (length B) = k)) ∨
      (and_then first_e (rest true) = Ret (Fall None) ∧
       and_then first_c (rest false) = Ret (Fall None)) ∨
      (∃ ex, and_then first_e (rest true) = Raise ex ∧
             and_then first_c (rest false) = Raise ex ∧
             (ex = NotImplementedError ∨ ex = KeyError ∨
              (ex = ZeroDivisionError ∧ k * (k - 1) = 0)))).
  { intros first_e first_c -> -> rest. unfold rest. simpl.
    destruct (decide (l ≠ 1)) as [Hl1|Hl1].
    { right; right. exists NotImplementedError. auto. }
    assert (l = 1) as Hl1' by (destruct (decide (l = 1)); [done|by exfalso]).
    assert (Hw :
      ∀ we wc : result (flow (option (list (list A)))),
        ((we = Ret (Returned (VBool true)) ∧
          ∃ m B, wc = Ret (Fall (Some (translates K (multiplicative_generator K)
                                         m t B))) ∧
                 (1 ≤ k → Z.of_nat (length B) = k)) ∨
         (we = Ret (Fall None) ∧ wc = Ret (Fall None)) ∨
         (∃ ex, we = Raise ex ∧ wc = Raise ex ∧
                (ex = KeyError ∨ (ex = ZeroDivisionError ∧ k * (k - 1) = 0)))) →
        let tail ex := fun D : option (list (list A)) =>
          and_then (match D with
                    | None => if decide (k = 6) then wilson_6 is_zero K v t ex
                              else Ret (Fall None)
                    | Some D => Ret (Fall (Some D))
                    end) (fun D =>
          Ret (Fall (match D with
                     | None => None
                     | Some D => Some (K, D)
                     end))) in
        (and_then we (tail true) = Ret (Returned (VBool true)) ∧ l = 1 ∧
         ∃ m B, and_then wc (tail false) =
                  Ret (Fall (Some (K, translates K (multiplicative_generator K)
                                        m t B))) ∧
                (1 ≤ k → Z.of_nat (length B) = k)) ∨
        (and_then we (tail true) = Ret (Fall None) ∧
         and_then wc (tail false) = Ret (Fall None)) ∨
        (∃ ex, and_then we (tail true) = Raise ex ∧
               and_then wc (tail false) = Raise ex ∧
               (ex = NotImplementedError ∨ ex = KeyError ∨
                (ex = ZeroDivisionError ∧ k * (k - 1) = 0)))).
    { intros we wc [(-> & m & B & -> & HB)|[[-> ->]|(ex & -> & -> & Hex)]] tail;
        unfold tail; simpl.
      - left. split_and!; [done|done|]. by exists m, B.
      - destruct (decide (k = 6)) as [->|Hk6]; [|by right; left].
        destruct (wilson_6_modes K v t)
          as [(-> & m & B & -> & HB)|[[-> ->]|[-> ->]]]; simpl.
        + left. split_and!; [done|done|]. by exists m, B.
        + by right; left.
        + right; right. exists KeyError. auto.
      - right; right. exists ex. split_and!; [done|done|]. tauto. }
    destruct (decide (k `mod` 2 = 1)).
    - apply (Hw _ _ (wilson_odd_modes K v k t)).
    - apply (Hw _ _ (wilson_even_modes K v k t)). }
  destruct (decide (t = 1)) as [Ht|Ht].
  - destruct (single_block_modes K v k) as [(He & Hc)|[He Hc]].
    + left. rewrite He. split_and!; [done|by right|].
      destruct Hc as [[D ->]|[->| ->]]; simpl;
        [left; by exists D|by right; left|by right; right].
    + right. apply (Hrest _ _ He Hc).
  - right. by apply Hrest.
Qed.

(** X13. An existence query does not depend on [check]; outside the table
    it answers [True], [False] or [Unknown], or raises
    [NotImplementedError], [KeyError] or [ZeroDivisionError]: it never
    returns a family, never calls the coset generator or the verifier;
    and it raises [ZeroDivisionError] exactly when [k] is [0] or [1]. *)
Theorem existence_query_answers v k l check :
  let query := difference_family is_zero GF is_prime_power is_square
                 DF_constructions v k l true in
  (∀ check', query check' = query check) ∧
  (DF_constructions !! (v, k, l) = None →
   query check = Ret (VBool true) ∨
   query check = Ret (VBool false) ∨
   query check = Ret VUnknown ∨
   query check = Raise NotImplementedError ∨
   query check = Raise KeyError ∨
   query check = Raise ZeroDivisionError) ∧
  (query check = Raise ZeroDivisionError ↔ k = 0 ∨ k = 1).
Proof.
  intros query. subst query.
  assert (Hshape : ∀ c,
    construct v k l true c =
    (r ← py_mod (l * (v - 1)) (k * (k - 1));
     if decide (r ≠ 0) then Ret (VBool false)
     else match DF_constructions !! (v, k, l) with
          | Some entry => Ret (VPair entry.1 entry.2)
          | None =>
              if is_prime_power v then
                match prime_power_case is_zero GF is_square v k l
                        ((l * (v - 1)) `div` (k * (k - 1))) true with
                | Ret (Returned x) => Ret x
                | Ret (Fall _) => Ret VUnknown
                | Raise ex => Raise ex
                end
              else Ret VUnknown
          end)).
  { intros c. unfold difference_family, py_mod, py_floordiv.
    destruct (decide (k * (k - 1) = 0)); simpl; [done|].
    destruct (decide (_ ≠ 0)); [done|].
    destruct (DF_constructions !! (v, k, l)); [done|].
    destruct (is_prime_power v); simpl; [|done].
    destruct (prime_power_case_modes v k l ((l * (v - 1)) `div` (k * (k - 1))))
      as [(-> & _)|[(-> & _)|[(-> & _)|(ex & -> & _)]]]; simpl; done. }
  split_and!.
  - intros c'. by rewrite !Hshape.
  - intros Hdb. rewrite Hshape, Hdb. unfold py_mod.
    destruct (decide (k * (k - 1) = 0)); simpl; [tauto|].
    destruct (decide (_ ≠ 0)); [tauto|].
    destruct (is_prime_power v); [|tauto].
    destruct (prime_power_case_modes v k l ((l * (v - 1)) `div` (k * (k - 1))))
      as [(-> & _)|[(-> & _)|[(-> & _)|(ex & -> & _ & Hex)]]]; simpl;
      [tauto..|].
    destruct Hex as [->|[->|[-> ?]]]; tauto.
  - rewrite Hshape. unfold py_mod.
    destruct (decide (k * (k - 1) = 0)) as [Hk|Hk]; simpl.
    { split; [intros _; nia|done]. }
    split; [|intros ?; exfalso; nia].
    destruct (decide (_ ≠ 0)); [discriminate|].
    destruct (DF_constructions !! (v, k, l)); [discriminate|].
    destruct (is_prime_power v); [|discriminate].
    destruct (prime_power_case_modes v k l ((l * (v - 1)) `div` (k * (k - 1))))
      as [(-> & _)|[(-> & _)|[(-> & _)|(ex & -> & _ & Hex)]]]; simpl;
      [discriminate..|].
    intros [= ->]. destruct Hex as [?|[?|[_ ?]]]; [discriminate..|done].
Qed.

(** X14. Outside the table, what an existence query answers is matched by
    what the construction (without the final check) does: [False] exactly
    when the construction raises [EmptySetError]; [Unknown] only when it
    raises [NotImplementedError]; [True] only when it returns a family
    over [GF(v)] or the coset generator fails ([AssertionError], or
    [ZeroDivisionError] at index 0); and an exception of the query is the
    exception of the construction. *)
Theorem existence_matches_construction v k l check :
  DF_constructions !! (v, k, l) = None →
  let query := difference_family is_zero GF is_prime_power is_square
                 DF_constructions v k l true check in
  let built := difference_family is_zero GF is_prime_power is_square
                 DF_constructions v k l false false in
  (query = Ret (VBool false) ↔ built = Raise EmptySetError) ∧
  (query = Ret VUnknown → built = Raise NotImplementedError) ∧
  (query = Ret (VBool true) →
   (∃ D, built = Ret (VPair (GF v) D)) ∨
   built = Raise AssertionError ∨
   built = Raise ZeroDivisionError) ∧
  (∀ ex, query = Raise ex → built = Raise ex).
Proof.
  intros Hdb query built. subst query built.
  unfold difference_family, py_mod, py_floordiv. rewrite Hdb.
  destruct (decide (k * (k - 1) = 0)); simpl.
  { split_and!; [by split|done..]. }
  destruct (decide (_ ≠ 0)).
  { split_and!; [by split|done..]. }
  destruct (is_prime_power v); simpl.
  2:{ split_and!; [by split|done..]. }
  destruct (prime_power_case_modes v k l ((l * (v - 1)) `div` (k * (k - 1))))
    as [(-> & _ & Hc)|[(-> & _ & m & B & -> & _)|[(-> & ->)|(ex & -> & -> & Hex)]]];
    simpl.
  - destruct Hc as [[D ->]|[->| ->]]; simpl;
      (split_and!; [by split|done| |done]); intros _;
      [left; by exists D|by right; left|by right; right].
  - split_and!; [by split|done| |done]. intros _. left. by eexists.
  - split_and!; [by split|done..].
  - destruct Hex as [->|[->|[-> _]]]; (split_and!; [by split|done..]).
Qed.

(** X15. [check=True] only adds a rejection: whatever a call returns with
    [check=True] it returns with [check=False]; an exception of the call
    with [check=False] is raised with [check=True] as well; and a family
    returned with [check=False] is, with [check=True], returned unchanged,
    or replaced by [RuntimeError], or by the exception the verifier raises
    on it. *)
Theorem check_only_rejects v k l existence :
  (∀ x, construct v k l existence true = Ret x →
        construct v k l existence false = Ret x) ∧
  (∀ ex, construct v k l existence false = Raise ex →
         construct v k l existence true = Raise ex) ∧
  (∀ K D, construct v k l existence false = Ret (VPair K D) →
     construct v k l existence true = Ret (VPair K D) ∨
     construct v k l existence true = Raise RuntimeError ∨
     ∃ ex, is_difference_family K D None None None = Raise ex ∧
           construct v k l existence true = Raise ex).
Proof.
  unfold difference_family.
  destruct (py_mod _ _) as [r|ex0]; simpl; [|by split_and!].
  destruct (decide (r ≠ 0)); [destruct existence; by split_and!; auto|].
  destruct (DF_constructions !! (v, k, l)) as [entry|].
  { split_and!; [done|done|]. intros K D [= <- <-]. by left. }
  destruct (py_floordiv _ _) as [t|ex0]; simpl; [|by split_and!].
  destruct (if is_prime_power v then _ else _) as [[x|[[K D]|]]|ex0]; simpl.
  - split_and!; [done|done|]. intros K D ->. by left.
  - destruct (is_difference_family K D None None None) as [[|]|ex1] eqn:Hv;
      simpl.
    + split_and!; [done|done|]. intros ?? [= <- <-]. by left.
    + split_and!; [done|done|]. intros ?? [= <- <-]. right; by left.
    + split_and!; [done|done|]. intros ?? [= <- <-]. right; right.
      by exists ex1.
  - destruct existence; split_and!; done.
  - split_and!; done.
Qed.

(** X16. Wilson's constructions behind the gate: for [l = 1], [k >= 3],
    more than one block and parameters outside the table, whatever the
    call with [check=True] returns is the field [GF(v)] with
    [(v-1)/(k*(k-1))] blocks of [k] elements which the verifier accepts
    for the requested parameters [(v, k, 1)]. *)
Theorem wilson_families_verified v k x :
  DF_constructions !! (v, k, 1) = None →
  cardinality (GF v) = v →
  3 ≤ k → v - 1 ≠ k * (k - 1) →
  construct v k 1 false true = Ret x →
  ∃ D, x = VPair (GF v) D ∧
       Z.of_nat (length D) = (v - 1) `div` (k * (k - 1)) ∧
       (∀ d, d ∈ D → Z.of_nat (length d) = k) ∧
       is_difference_family (GF v) D (Some v) (Some k) (Some 1) = Ret true.
Proof.
  intros Hdb Hq Hk Ht. unfold difference_family, py_mod, py_floordiv.
  rewrite Hdb. rewrite !decide_False by nia. simpl.
  destruct (decide (_ ≠ 0)) as [|Hr]; [discriminate|].
  assert (Hr' : (1 * (v - 1)) `mod` (k * (k - 1)) = 0)
    by (destruct (decide ((1 * (v - 1)) `mod` (k * (k - 1)) = 0));
        [done|by exfalso]).
  rewrite Z.mul_1_l in Hr'.
  assert (Hexact : v - 1 = k * (k - 1) * ((v - 1) `div` (k * (k - 1))))
    by (apply Z_div_exact_full_2; [nia|done]).
  destruct (is_prime_power v); simpl; [|discriminate].
  rewrite Z.mul_1_l.
  set (t := (v - 1) `div` (k * (k - 1))) in *.
  destruct (prime_power_case_modes v k 1 t)
    as [(_ & [?|?] & _)|[(_ & _ & m & B & -> & HB)|[(_ & ->)|(ex & _ & -> & _)]]];
    [lia|nia| |discriminate|discriminate].
  simpl.
  set (D := translates (GF v) (multiplicative_generator (GF v)) m t B).
  destruct (length_translates (GF v) (multiplicative_generator (GF v)) m t B)
    as [HlenD HlenB]. fold D in HlenD, HlenB.
  destruct (is_difference_family (GF v) D None None None) as [[|]|ex1] eqn:Hv;
    simpl; [|discriminate..].
  intros [= <-]. exists D.
  assert (Hblocks : ∀ d, d ∈ D → Z.of_nat (length d) = k).
  { intros d Hd. rewrite (HlenB d Hd). apply HB. lia. }
  destruct D as [|d0 D'] eqn:HD.
  { exfalso. clear -Hv. unfold is_difference_family in Hv.
    simpl in Hv. discriminate. }
  assert (Ht1 : 1 ≤ t).
  { destruct (decide (1 ≤ t)); [done|]. exfalso.
    simpl in HlenD. lia. }
  assert (HlenZ : Z.of_nat (length (d0 :: D')) = t) by (rewrite HlenD; lia).
  split_and!; [done|done|done|].
  rewrite <- Hv. symmetry.
  apply (inferred_parameters_agree (GF v) (d0 :: D') d0 v k 1);
    [done|done|apply Hblocks; by left|nia|].
  rewrite HlenZ. lia.
Qed.

End ConstructorModes.

(** X14 at (v,k,l) = (13,3,1) and an empty table. *)
Lemma existence_matches_construction_witness :
  let query := difference_family Z_is_zero GFp Z_is_prime_power Z_is_square ∅
                 13 3 1 true true in
  let built := difference_family Z_is_zero GFp Z_is_prime_power Z_is_square ∅
                 13 3 1 false false in
  (query = Ret (VBool false) ↔ built = Raise EmptySetError) ∧
  (query = Ret VUnknown → built = Raise NotImplementedError) ∧
  (query = Ret (VBool true) →
   (∃ D, built = Ret (VPair (GFp 13) D)) ∨
   built = Raise AssertionError ∨
   built = Raise ZeroDivisionError) ∧
  (∀ ex, query = Raise ex → built = Raise ex).
Proof.
  apply (existence_matches_construction Z_is_zero GFp Z_is_prime_power
           Z_is_square ∅ 13 3 1 true).
  apply lookup_empty.
Defined.

(** X16 at (v,k,l) = (13,3,1): Wilson's construction for odd [k] gives
    the two blocks [{1,3,9}] and [{2,6,5}] of Z/13Z. *)
Lemma wilson_families_verified_witness :
  ∃ D, VPair (GFp 13) [[1; 3; 9]; [2; 6; 5]] = VPair (GFp 13) D ∧
       Z.of_nat (length D) = (13 - 1) `div` (3 * (3 - 1)) ∧
       (∀ d, d ∈ D → Z.of_nat (length d) = 3) ∧
       is_difference_family (GFp 13) D (Some 13) (Some 3) (Some 1) = Ret true.
Proof.
  apply (wilson_families_verified Z_is_zero GFp Z_is_prime_power Z_is_square ∅
           13 3 (VPair (GFp 13) [[1; 3; 9]; [2; 6; 5]])).
  - apply lookup_empty.
  - reflexivity.
  - lia.
  - lia.
  - vm_compute. reflexivity.
Defined.

(** X17 at (v,k,l) = (7,6,5): the six non-zero elements of GF(7). *)
Lemma cyclotomic_branch_index_one_witness :
  difference_family Z_is_zero GFp Z_is_prime_power Z_is_square ∅ 7 6 5 true true
    = Ret (VBool true) ∧
  difference_family Z_is_zero GFp Z_is_prime_power Z_is_square ∅ 7 6 5 false true
    = Raise AssertionError.
Proof.
  apply (cyclotomic_branch_index_one Z_is_zero GFp Z_is_prime_power
           Z_is_square ∅ 7 6 5 true).
  - vm_compute. reflexivity.
  - lia.
  - lia.
  - lia.
  - apply lookup_empty.
Defined.

(** * The coset table of Wilson's constructions *)

Section CosetTable.

Context {A : Type} `{Countable A}.

(** A dictionary built by successive assignments holds, at a key, the
    value of some item with that key, and has no other keys. *)
Lemma foldl_insert_lookup (L : list (A * Z)) (d : gmap A Z) (y : A) :
  (∃ i, (y, i) ∈ L ∧
        foldl (fun d (kv : A * Z) => <[kv.1 := kv.2]> d) d L !! y = Some i) ∨
  ((∀ i, (y, i) ∉ L) ∧
   foldl (fun d (kv : A * Z) => <[kv.1 := kv.2]> d) d L !! y = d !! y).
Proof.
  induction L as [|[y' i'] L IH] using rev_ind.
  { right. split; [by intros i ?%elem_of_nil|done]. }
  rewrite foldl_app. cbn [foldl fst snd].
  destruct (decide (y' = y)) as [->|Hne].
  - left. exists i'. rewrite lookup_insert_eq.
    split; [|done]. apply elem_of_app. right. by left.
  - rewrite lookup_insert_ne by done.
    destruct IH as [(i & Hi & Hl)|[Hnone Hl]].
    + left. exists i. split; [|done]. apply elem_of_app. by left.
    + right. split; [|done]. intros i [?|Hin]%elem_of_app; [by eapply Hnone|].
      apply list_elem_of_singleton in Hin. congruence.
Qed.

Variable K : Parent A.
Hypothesis HF : IsField K.
Variable m : Z.
Hypothesis Hm : 1 ≤ m.
Hypothesis Hdiv : (cardinality K - 1) `mod` m = 0.

Local Abbreviation x := (multiplicative_generator K).
Local Abbreviation f := ((cardinality K - 1) `div` m).
Local Abbreviation items :=
  (concat ((fun i => (fun j => (mul K (pow K x i) (pow K (pow K x m) j), i))
                       <$> xrange f) <$> xrange m)).

Lemma table_cardinality : cardinality K = m * f + 1 ∧ 1 ≤ f.
Proof.
  pose proof (field_cardinality K HF) as Hq.
  pose proof (Z_div_exact_full_2 (cardinality K - 1) m ltac:(lia) Hdiv) as He.
  split; [lia|]. nia.
Qed.

Lemma elem_of_items (kv : A * Z) :
  kv ∈ items ↔
  ∃ i j, 0 ≤ i < m ∧ 0 ≤ j < f ∧ kv = (pow K x (i + m * j), i).
Proof.
  rewrite list_elem_of_In, in_concat. split.
  - intros (row & Hrow & Hkv).
    apply list_elem_of_In, list_elem_of_fmap in Hrow as (i & -> & Hi).
    apply list_elem_of_In, list_elem_of_fmap in Hkv as (j & -> & Hj).
    unfold xrange in Hi, Hj. apply elem_of_seqZ in Hi, Hj.
    exists i, j. split_and!; [lia..|].
    by rewrite (coset_entry K HF m Hm i j) by lia.
  - intros (i & j & Hi & Hj & ->).
    exists ((fun j => (mul K (pow K x i) (pow K (pow K x m) j), i))
              <$> xrange f).
    split.
    + apply list_elem_of_In, list_elem_of_fmap. exists i. split; [done|].
      unfold xrange. apply elem_of_seqZ. lia.
    + apply list_elem_of_In, list_elem_of_fmap. exists j. split.
      * by rewrite (coset_entry K HF m Hm i j) by lia.
      * unfold xrange. apply elem_of_seqZ. lia.
Qed.

Lemma pow_mod a :
  0 ≤ a → pow K x a = pow K x (a `mod` (cardinality K - 1)).
Proof.
  intros Ha. pose proof (field_cardinality K HF) as Hq.
  set (n := cardinality K - 1) in *.
  assert (Hstep : ∀ c : nat, ∀ r, 0 ≤ r →
            pow K x (r + Z.of_nat c * n) = pow K x r).
  { induction c as [|c IH]; intros r Hr.
    - f_equal. lia.
    - replace (r + Z.of_nat (S c) * n) with ((r + Z.of_nat c * n) + n) by lia.
      unfold n. rewrite (pow_period K HF) by nia. by apply IH. }
  pose proof (Z.div_mod a n ltac:(lia)) as Hdm.
  pose proof (Z.mod_pos_bound a n ltac:(lia)) as Hr.
  assert (Hc : 0 ≤ a `div` n) by (apply Z.div_pos; lia).
  rewrite Hdm at 1.
  replace (n * a `div` n + a `mod` n)
    with (a `mod` n + Z.of_nat (Z.to_nat (a `div` n)) * n) by lia.
  apply Hstep. lia.
Qed.

(** The table holds [i] at a key exactly when the key is [x**(i + m*j)]
    for a row [i] and a column [j] of the comprehension: no key is assigned
    twice. *)
Lemma coset_table_items y i :
  coset_table K x (pow K x m) m (cardinality K - 1) !! y = Some i ↔
  ∃ j, 0 ≤ i < m ∧ 0 ≤ j < f ∧ y = pow K x (i + m * j).
Proof.
  destruct table_cardinality as [Hq Hf].
  unfold coset_table.
  destruct (foldl_insert_lookup items ∅ y) as [(i' & Hi' & ->)|[Hnone ->]].
  - apply elem_of_items in Hi' as (i0 & j0 & Hi0 & Hj0 & [= -> ->]).
    split.
    + intros [= <-]. by exists j0.
    + intros (j & Hi & Hj & Heq). f_equal.
      by destruct (coset_exponent_inj K HF m f Hm Hq _ _ _ _ Hi0 Hj0 Hi Hj Heq).
  - rewrite lookup_empty. split; [done|].
    intros (j & Hi & Hj & ->). destruct (Hnone i).
    apply elem_of_items. by exists i, j.
Qed.

(** X18. Over a field [K] of [q] elements with generator [x], and for
    [m >= 1] dividing [q - 1], the dictionary
    [{x**i * xx**j: i for i in xrange(m) for j in xrange((q-1)/m)}] with
    [xx = x**m] sends [x**a] to [a % m] for every [a >= 0]: it is the
    index of the coset of the [m]-th powers; and its keys are exactly the
    non-zero elements of [K]. *)
Theorem coset_table_logarithm :
  let to_coset := coset_table K x (pow K x m) m (cardinality K - 1) in
  (∀ a, 0 ≤ a → to_coset !! pow K x a = Some (a `mod` m)) ∧
  (∀ y, is_Some (to_coset !! y) ↔ y ∈ elements K ∧ y ≠ zero K).
Proof.
  intros to_coset.
  destruct table_cardinality as [Hq Hf].
  assert (Hlog : ∀ r, 0 ≤ r < cardinality K - 1 →
            to_coset !! pow K x r = Some (r `mod` m)).
  { intros r Hr.
    pose proof (Z.div_mod r m ltac:(lia)) as Hdm.
    pose proof (Z.mod_pos_bound r m ltac:(lia)) as Hi.
    apply coset_table_items. exists (r `div` m).
    split_and!; [lia|lia|apply Z.div_pos; lia| |f_equal; lia].
    apply Z.div_lt_upper_bound; [lia|]. lia. }
  split.
  - intros a Ha. rewrite (pow_mod a Ha).
    rewrite Hlog by (apply Z.mod_pos_bound; lia).
    f_equal. apply Z.mod_mod_divide. exists f. lia.
  - intros y. split.
    + intros [i (j & Hi & Hj & ->)%coset_table_items].
      split; [apply (pow_in K HF); nia|].
      apply (pow_nonzero K HF). nia.
    + intros [Hy Hnz].
      destruct (pow_all K HF y Hy Hnz) as (a & Ha & ->).
      rewrite Hlog by done. by eexists.
Qed.

End CosetTable.

(** X18 in GF(7) with generator 3 and [m = 2]: the table sends the
    squares 1, 2, 4 to 0 and the non-squares 3, 5, 6 to 1. *)
Lemma coset_table_logarithm_witness :
  let to_coset := coset_table (Zmod 7 3) 3 (pow (Zmod 7 3) 3 2) 2
                    (cardinality (Zmod 7 3) - 1) in
  (∀ a, 0 ≤ a → to_coset !! pow (Zmod 7 3) 3 a = Some (a `mod` 2)) ∧
  (∀ y, is_Some (to_coset !! y) ↔
        y ∈ elements (Zmod 7 3) ∧ y ≠ zero (Zmod 7 3)).
Proof.
  apply (coset_table_logarithm (Zmod 7 3) GF7_is_field 2).
  - lia.
  - reflexivity.
Defined.

(** * Wilson's tests over a field *)

Section WilsonTests.

Context {A : Type} `{Countable A}.
Variable is_zero : A -> bool.
Variable GF : Z -> Parent A.
Variable is_prime_power : Z -> bool.
Variable is_square : Z -> bool.
Variable DF_constructions : gmap (Z * Z * Z) (Parent A * list (list A)).

#[local] Arguments Returned {A T} x.
#[local] Arguments Fall {A T} x.

(** The checker returns a truth value when every non-zero element it is
    given is a key of [f]. *)
Lemma checker_returns elts f images :
  (∀ e, e ∈ elts → is_zero e = false → is_Some (f !! e)) →
  ∃ b, returned (_nonzero_and_have_distinct_images is_zero elts f images)
       = Ret b.
Proof.
  unfold _nonzero_and_have_distinct_images.
  generalize (match images with None => (∅ : gset Z) | Some s => s end).
  generalize 0%nat.
  induction elts as [|e elts IH]; intros n s Hkeys; simpl; [by eexists|].
  destruct (is_zero e) eqn:Hz; simpl; [by eexists|].
  destruct (Hkeys e ltac:(by left) Hz) as [i ->]; simpl.
  destruct (decide (i ∈ s)); simpl; [by eexists|].
  apply IH. intros e' He'. apply Hkeys. by right.
Qed.

Variable K : Parent A.
Hypothesis HF : IsField K.
Hypothesis Hzero : is_zero (zero K) = true.
Variables v k : Z.
Hypothesis Hq : cardinality K = v.
Hypothesis Hk : k * (k - 1) ≠ 0.
Hypothesis Hfeasible : (v - 1) `mod` (k * (k - 1)) = 0.

Local Abbreviation x := (multiplicative_generator K).

Lemma feasible_multiple d :
  (d | k * (k - 1)) → (v - 1) `mod` d = 0.
Proof.
  intros [c Hc].
  apply Z.mod_divide in Hfeasible as [c' Hc']; [|done].
  destruct (decide (d = 0)) as [->|Hd]; [lia|].
  apply Z.mod_divide; [done|]. exists (c' * c). rewrite Hc', Hc. ring.
Qed.

(** Every non-zero element of the field is a key of the table. *)
Lemma table_key m y :
  1 ≤ m → (m | k * (k - 1)) →
  y ∈ elements K → is_zero y = false →
  is_Some (coset_table K x (pow K x m) m (v - 1) !! y).
Proof.
  intros Hm Hdiv Hy Hz.
  assert (Hnz : y ≠ zero K) by (intros ->; congruence).
  destruct (pow_all K HF y Hy Hnz) as (a & Ha & ->).
  pose proof (feasible_multiple m Hdiv) as Hmod. rewrite <- Hq in Hmod |- *.
  pose proof (Z_div_exact_full_2 _ m ltac:(lia) Hmod) as He.
  pose proof (Z.div_mod a m ltac:(lia)) as Hdm.
  pose proof (Z.mod_pos_bound a m ltac:(lia)) as Hi.
  exists (a `mod` m).
  apply (coset_table_items K HF m Hm Hmod). exists (a `div` m).
  split_and!; [lia|lia|apply Z.div_pos; lia| |f_equal; lia].
  apply Z.div_lt_upper_bound; [lia|]. lia.
Qed.

(** The keys of the table are elements of the field. *)
Lemma table_key_in m y :
  1 ≤ m → (m | k * (k - 1)) →
  is_Some (coset_table K x (pow K x m) m (v - 1) !! y) → y ∈ elements K.
Proof.
  intros Hm Hdiv [i Hy].
  pose proof (feasible_multiple m Hdiv) as Hmod. rewrite <- Hq in Hmod, Hy.
  apply (coset_table_items K HF m Hm Hmod) in Hy as (j & Hi & Hj & ->).
  apply (pow_in K HF). nia.
Qed.

Lemma root_power_in e j :
  0 ≤ e → 0 ≤ j → pow K (pow K x e) j ∈ elements K.
Proof.
  intros He Hj. rewrite (pow_pow K HF) by done. apply (pow_in K HF). nia.
Qed.

Lemma wilson_odd_returns t existence :
  k `mod` 2 = 1 →
  ∃ r, wilson_odd is_zero K v k t existence = Ret r.
Proof.
  intros Hodd. pose proof (field_cardinality K HF) as Hv. rewrite Hq in Hv.
  unfold wilson_odd, py_floordiv.
  rewrite decide_False by (intros ->; lia). simpl.
  set (m := (k - 1) `div` 2).
  assert (Hkm : k = 2 * m + 1).
  { pose proof (Z.div_mod k 2 ltac:(lia)) as Hdm.
    assert (m = k `div` 2); [|lia]. unfold m.
    rewrite Hdm at 1. rewrite Hodd.
    replace (2 * k `div` 2 + 1 - 1) with (k `div` 2 * 2) by lia.
    by rewrite Z.div_mul. }
  match goal with
  | |- context [returned ?o] =>
      assert (Hc : ∃ b, returned o = Ret b); [|destruct Hc as [b ->]]
  end.
  { apply checker_returns.
    intros e (j & -> & Hj)%list_elem_of_fmap Hz.
    unfold xrange2 in Hj. apply elem_of_seqZ in Hj.
    assert (Hm : 1 ≤ m) by lia.
    apply table_key; [done| |apply (sub_in K HF)|done].
    - exists (2 * k). lia.
    - apply root_power_in; [|lia].
      apply Z.div_pos; lia.
    - apply (one_in K HF). }
  simpl. destruct b, existence; by eexists.
Qed.

Lemma wilson_even_returns t existence :
  k `mod` 2 ≠ 1 →
  ∃ r, wilson_even is_zero K v k t existence = Ret r.
Proof.
  intros Heven. pose proof (field_cardinality K HF) as Hv. rewrite Hq in Hv.
  unfold wilson_even, py_floordiv.
  rewrite decide_False by (intros ?; apply Hk; lia). simpl.
  set (m := k `div` 2).
  assert (Hkm : k = 2 * m).
  { pose proof (Z.div_mod k 2 ltac:(lia)) as Hdm.
    pose proof (Z.mod_pos_bound k 2 ltac:(lia)).
    unfold m. lia. }
  match goal with
  | |- context [returned ?o] =>
      assert (Hc : ∃ b, returned o = Ret b); [|destruct Hc as [b ->]]
  end.
  { apply checker_returns.
    intros e (j & -> & Hj)%list_elem_of_fmap Hz.
    unfold xrange2 in Hj. apply elem_of_seqZ in Hj.
    assert (Hm : 1 ≤ m) by lia.
    apply table_key; [done| |apply (sub_in K HF)|done].
    - exists (2 * (k - 1)). lia.
    - apply root_power_in; [|lia].
      apply Z.div_pos; lia.
    - apply (one_in K HF). }
  simpl. destruct b, existence; by eexists.
Qed.

Lemma search_c_returns r to_coset cs :
  r ∈ elements K → pow K r 2 ∈ elements K →
  (∀ y, y ∈ elements K → is_zero y = false → is_Some (to_coset !! y)) →
  (∀ c, c ∈ cs → c ∈ elements K) →
  ∃ found, search_c is_zero K r to_coset cs = Ret found.
Proof.
  intros Hr Hr2 Hkeys. induction cs as [|c cs IH]; intros Hcs; simpl;
    [by eexists|].
  assert (Hc : c ∈ elements K) by (apply Hcs; by left).
  pose proof (one_in K HF) as H1.
  match goal with
  | |- context [returned ?o] =>
      assert (Hb : ∃ b, returned o = Ret b); [|destruct Hb as [b ->]]
  end.
  { apply checker_returns. intros e He. apply Hkeys.
    repeat (apply elem_of_cons in He as [->|He]);
      [..|by apply elem_of_nil in He];
      repeat first [apply (sub_in K HF)|apply (mul_in K HF)|done]. }
  simpl. destruct b; [by eexists|].
  apply IH. intros c' Hc'. apply Hcs. by right.
Qed.

Lemma wilson_6_returns t existence :
  k = 6 →
  ∃ r, wilson_6 is_zero K v t existence = Ret r.
Proof.
  intros Hk6. pose proof (field_cardinality K HF) as Hv. rewrite Hq in Hv.
  assert (Hdiv : (5 | k * (k - 1))) by (exists 6; lia).
  unfold wilson_6.
  match goal with
  | |- context [search_c is_zero K ?r ?tc ?cs] =>
      destruct (search_c_returns r tc cs) as [found ->]
  end.
  - apply (pow_in K HF). apply Z.div_pos; lia.
  - apply root_power_in; [apply Z.div_pos; lia|lia].
  - intros y Hy Hz. by apply table_key.
  - intros c (kv & -> & Hkv)%list_elem_of_fmap.
    destruct kv as [c i]. apply elem_of_map_to_list in Hkv.
    apply (table_key_in 5); [lia|done|by eexists].
  - simpl. destruct found, existence; by eexists.
Qed.

End WilsonTests.

Section ConstructorOverFields.

Context {A : Type} `{Countable A}.
Variable is_zero : A -> bool.
Variable GF : Z -> Parent A.
Variable is_prime_power : Z -> bool.
Variable is_square : Z -> bool.
Variable DF_constructions : gmap (Z * Z * Z) (Parent A * list (list A)).

#[local] Arguments Returned {A T} x.
#[local] Arguments Fall {A T} x.

(** Where a [KeyError] of the prime-power part comes from. *)
Lemma prime_power_case_key_error v k l t existence :
  prime_power_case is_zero GF is_square v k l t existence = Raise KeyError →
  l = 1 ∧
  ((k `mod` 2 = 1 ∧
    wilson_odd is_zero (GF v) v k t existence = Raise KeyError) ∨
   (k `mod` 2 ≠ 1 ∧
    wilson_even is_zero (GF v) v k t existence = Raise KeyError) ∨
   (k = 6 ∧ wilson_6 is_zero (GF v) v t existence = Raise KeyError)).
Proof.
  unfold prime_power_case.
  destruct (decide (l = k - 1)).
  { destruct existence; [discriminate|].
    unfold py_floordiv. destruct (decide (k = 0)); simpl; [discriminate|].
    destruct (cyclotomic_cosets_outcome (GF v) ((v - 1) `div` k) None false)
      as [[D ->]|[->| ->]]; simpl; discriminate. }
  set (first := if decide (t = 1) then single_block is_square (GF v) v k existence
                else Ret (Fall tt)).
  assert (Hfirst : first = Ret (Fall tt) ∨ (∃ y, first = Ret (Returned y)) ∨
                   first = Raise AssertionError ∨
                   first = Raise ZeroDivisionError).
  { unfold first. destruct (decide (t = 1)); [|by left].
    destruct (single_block_modes is_square (GF v) v k)
      as [(He & Hc)|[He Hc]]; destruct existence.
    - right; left. by eexists.
    - destruct Hc as [[D ->]|[->| ->]]; [right; left; by eexists|tauto..].
    - by left.
    - by left. }
  destruct Hfirst as [->|[[y ->]|[->| ->]]]; simpl; [|discriminate..].
  destruct (decide (l ≠ 1)) as [|Hl]; [discriminate|].
  assert (l = 1) by (destruct (decide (l = 1)); [done|by exfalso]).
  intros Hraise. split; [done|].
  destruct (decide (k `mod` 2 = 1)).
  - destruct (wilson_odd is_zero (GF v) v k t existence)
      as [[y|[D|]]|ex] eqn:Hw; simpl in Hraise; [discriminate..| |].
    + destruct (decide (k = 6)); [|discriminate].
      destruct (wilson_6 is_zero (GF v) v t existence)
        as [[y|[D|]]|ex] eqn:Hw6; simpl in Hraise; [discriminate..|].
      right; right. split; [done|]. congruence.
    + left. split; [done|]. congruence.
  - destruct (wilson_even is_zero (GF v) v k t existence)
      as [[y|[D|]]|ex] eqn:Hw; simpl in Hraise; [discriminate..| |].
    + destruct (decide (k = 6)); [|discriminate].
      destruct (wilson_6 is_zero (GF v) v t existence)
        as [[y|[D|]]|ex] eqn:Hw6; simpl in Hraise; [discriminate..|].
      right; right. split; [done|]. congruence.
    + right; left. split; [done|]. congruence.
Qed.

(** X19. When [GF(v)] is a field of [v] elements whose zero answers
    [is_zero()], then for parameters outside the table neither an existence
    query nor a construction without the final check raises [KeyError]:
    every element Wilson's tests look up in the coset table is zero (and
    then not looked up) or one of its keys. *)
Theorem wilson_tests_find_their_keys v k l check :
  IsField (GF v) → cardinality (GF v) = v →
  is_zero (zero (GF v)) = true →
  DF_constructions !! (v, k, l) = None →
  difference_family is_zero GF is_prime_power is_square DF_constructions
    v k l true check ≠ Raise KeyError ∧
  difference_family is_zero GF is_prime_power is_square DF_constructions
    v k l false false ≠ Raise KeyError.
Proof.
  intros HF Hq Hzero Hdb.
  assert (Hpp : ∀ existence,
    (l * (v - 1)) `mod` (k * (k - 1)) = 0 → k * (k - 1) ≠ 0 →
    prime_power_case is_zero GF is_square v k l
      ((l * (v - 1)) `div` (k * (k - 1))) existence ≠ Raise KeyError).
  { intros existence Hr Hk [-> Hw]%prime_power_case_key_error.
    rewrite Z.mul_1_l in Hr.
    destruct Hw as [[Hodd Hw]|[[Heven Hw]|[Hk6 Hw]]].
    - destruct (wilson_odd_returns is_zero (GF v) HF Hzero v k Hq Hk Hr
                  ((1 * (v - 1)) `div` (k * (k - 1))) existence Hodd)
        as [r Hret]. congruence.
    - destruct (wilson_even_returns is_zero (GF v) HF Hzero v k Hq Hk Hr
                  ((1 * (v - 1)) `div` (k * (k - 1))) existence Heven)
        as [r Hret]. congruence.
    - destruct (wilson_6_returns is_zero (GF v) HF Hzero v k Hq Hk Hr
                  ((1 * (v - 1)) `div` (k * (k - 1))) existence Hk6)
        as [r Hret]. congruence. }
  unfold difference_family, py_mod, py_floordiv. rewrite Hdb.
  destruct (decide (k * (k - 1) = 0)) as [|Hk]; simpl; [done|].
  destruct (decide (_ ≠ 0)) as [|Hr]; [done|].
  assert (Hr' : (l * (v - 1)) `mod` (k * (k - 1)) = 0)
    by (destruct (decide ((l * (v - 1)) `mod` (k * (k - 1)) = 0));
        [done|by exfalso]).
  destruct (is_prime_power v); simpl; [|done].
  split.
  - pose proof (Hpp true Hr' Hk) as Hne.
    destruct (prime_power_case_modes is_zero GF is_prime_power is_square
                v k l ((l * (v - 1)) `div` (k * (k - 1))))
      as [(He & _)|[(He & _)|[(He & _)|(ex & He & _)]]];
      rewrite He in Hne |- *; simpl; congruence.
  - pose proof (Hpp false Hr' Hk) as Hne.
    destruct (prime_power_case is_zero GF is_square v k l
                ((l * (v - 1)) `div` (k * (k - 1))) false)
      as [[y|[[K D]|]]|ex]; simpl; congruence.
Qed.

End ConstructorOverFields.

(** ** The field GF(13) *)

Ltac enumerate a lo :=
  first
    [ exfalso; lia
    | destruct (decide (a = lo)) as [->|?];
      [|let lo' := eval compute in (lo + 1) in enumerate a lo'] ].

Lemma GF13_is_field : IsField (Zmod 13 2).
Proof.
  split; try setoid_rewrite elem_of_Zmod.
  - apply Zmod_is_group. lia.
  - intros y Hy. simpl. by apply Z.mod_small.
  - intros a b _ _. simpl. by apply Z.mod_pos_bound.
  - intros a b _ _. simpl. f_equal. lia.
  - intros a Ha. simpl. rewrite Z.mul_1_r. by apply Z.mod_small.
  - intros a b c _ _ _. apply Zmod_mul_add_distr.
  - intros a b Ha Hb. simpl.
    enumerate a 0; enumerate b 0; vm_compute; (discriminate || tauto).
  - reflexivity.
  - intros a b Ha Hb. apply Zmod_pow_add; lia.
  - intros a b Ha Hb. apply Zmod_pow_pow; lia.
  - reflexivity.
  - intros a Ha. rewrite Zmod_pow_nonneg by lia. by apply Z.mod_pos_bound.
  - intros a Ha. simpl in Ha. enumerate a 0; vm_compute; discriminate.
  - intros a b Ha Hb. simpl in Ha, Hb.
    enumerate a 0; enumerate b 0;
      vm_compute; (discriminate || reflexivity || congruence).
  - intros y Hy Hne. simpl in Hne. simpl.
    enumerate y 0; [done|..].
    + exists 0. split; [lia|reflexivity].
    + exists 1. split; [lia|reflexivity].
    + exists 4. split; [lia|reflexivity].
    + exists 2. split; [lia|reflexivity].
    + exists 9. split; [lia|reflexivity].
    + exists 5. split; [lia|reflexivity].
    + exists 11. split; [lia|reflexivity].
    + exists 3. split; [lia|reflexivity].
    + exists 8. split; [lia|reflexivity].
    + exists 10. split; [lia|reflexivity].
    + exists 7. split; [lia|reflexivity].
    + exists 6. split; [lia|reflexivity].
  - vm_compute. discriminate.
Qed.

Lemma GFp_13 : GFp 13 = Zmod 13 2.
Proof. unfold GFp. f_equal. Qed.

(** X19 at (v,k,l) = (13,3,1), where Wilson's test looks up [r - 1] for
    the cube root of unity [r = 3] of GF(13). *)
Lemma wilson_tests_find_their_keys_witness :
  difference_family Z_is_zero GFp Z_is_prime_power Z_is_square ∅
    13 3 1 true true ≠ Raise KeyError ∧
  difference_family Z_is_zero GFp Z_is_prime_power Z_is_square ∅
    13 3 1 false false ≠ Raise KeyError.
Proof.
  apply (wilson_tests_find_their_keys Z_is_zero GFp Z_is_prime_power
           Z_is_square ∅ 13 3 1 true).
  - rewrite GFp_13. apply GF13_is_field.
  - reflexivity.
  - reflexivity.
  - apply lookup_empty.
Defined.

(** * The squares of a field of order 3 modulo 4 *)

Section Swap.

Context {X Y Z : Type}.

(** Two nested comprehensions in either order list the same items. *)
Lemma bind_swap (l1 : list X) (l2 : list Y) (F : X → Y → list Z) :
  (l1 ≫= fun a => l2 ≫= fun b => F a b) ≡ₚ
  (l2 ≫= fun b => l1 ≫= fun a => F a b).
Proof.
  induction l1 as [|a l1 IH]; csimpl.
  { induction l2 as [|b l2 IH2]; csimpl; [done|exact IH2]. }
  rewrite IH. symmetry.
  exact (bind_app_pointwise (fun b => F a b)
           (fun b => l1 ≫= fun a' => F a' b) l2).
Qed.

End Swap.

Section Occurrences.

Context {A : Type} `{EqDecision A}.

Lemma occurrences_fmap_inj (f : A → A) (g : A) (l : list A) :
  (∀ a, a ∈ l → f a = f g → a = g) →
  occurrences (f g) (f <$> l) = occurrences g l.
Proof.
  induction l as [|a l IH]; intros Hinj; [done|].
  rewrite fmap_cons, !occurrences_cons, IH.
  2:{ intros a' Ha'. apply Hinj. by right. }
  destruct (decide (f a = f g)) as [Hfa|Hfa], (decide (a = g)) as [Ha|Ha];
    try done.
  - destruct Ha. apply Hinj; [by left|done].
  - destruct Hfa. by rewrite Ha.
Qed.

Lemma fmap_block_differences (f : A → A) (op : A → A → A) (inv_ : A → A)
    (dd : list A) :
  (∀ a b, a ∈ dd → b ∈ dd → f (op a (inv_ b)) = op (f a) (inv_ (f b))) →
  f <$> block_differences op inv_ dd = block_differences op inv_ (f <$> dd).
Proof.
  intros Hf. unfold block_differences.
  rewrite length_fmap, fmap_bind_list.
  apply bind_ext_in. intros i _.
  rewrite fmap_bind_list.
  apply bind_ext_in. intros j _.
  destruct (decide (i = j)); [done|].
  rewrite !list_lookup_fmap.
  destruct (dd !! i) as [a|] eqn:Ha, (dd !! j) as [b|] eqn:Hb; simpl;
    try done.
  f_equal. apply Hf; by eapply list_elem_of_lookup_2.
Qed.

(** The sum of a function that is [n] on a duplicate-free list except at
    one member, where it is [0]. *)
Lemma sum_constant_but_one (f : A → nat) (n : nat) (z : A) (E : list A) :
  NoDup E → z ∈ E → f z = 0%nat →
  (∀ y, y ∈ E → y ≠ z → f y = n) →
  sum_list_with f E = (n * (length E - 1))%nat.
Proof.
  intros HE Hz Hfz.
  assert (Hout : ∀ E', z ∉ E' → (∀ y, y ∈ E' → y ≠ z → f y = n) →
            sum_list_with f E' = (n * length E')%nat).
  { induction E' as [|y E' IH]; intros Hnz Hn; simpl; [lia|].
    rewrite IH; [|set_solver|intros y' Hy'; apply Hn; by right].
    rewrite (Hn y); [lia|by left|set_solver]. }
  induction HE as [|y E Hy HE IH]; intros Hn.
  { by apply elem_of_nil in Hz. }
  simpl. destruct (decide (y = z)) as [->|Hne].
  - rewrite Hfz, Nat.sub_0_r. simpl.
    apply Hout; [done|]. intros y' Hy'. apply Hn. by right.
  - apply elem_of_cons in Hz as [?|Hz]; [congruence|].
    rewrite (Hn y ltac:(by left) Hne).
    rewrite IH; [|done|intros y' Hy'; apply Hn; by right].
    destruct E as [|e E]; [by apply elem_of_nil in Hz|]. simpl. lia.
Qed.

End Occurrences.

Section Paley.

Context {A : Type} `{Countable A}.
Variable K : Parent A.
Hypothesis HF : IsField K.
Variable h : Z.
Hypothesis Hq : cardinality K = 2 * h + 1.
Hypothesis Hodd : h `mod` 2 = 1.

Local Abbreviation x := (multiplicative_generator K).
Local Abbreviation E := (elements K).
Local Abbreviation squares := (coset_block K 2 h 0).
Local Abbreviation diffs := (block_differences (add K) (neg K) squares).

Lemma field_group : IsGroup K (zero K) (add K) (neg K).
Proof. apply (field_additive K HF). Qed.

Lemma half_positive : 1 ≤ h.
Proof. pose proof (field_cardinality K HF). lia. Qed.

(** *** Some more field algebra *)

Lemma neg_neg a : a ∈ E → neg K (neg K a) = a.
Proof.
  intros Ha. symmetry.
  apply (neg_unique K HF); [by apply (neg_in K HF)|done|].
  by apply (op_inv_l _ _ _ _ field_group).
Qed.

Lemma neg_inj a b : a ∈ E → b ∈ E → neg K a = neg K b → a = b.
Proof. intros Ha Hb Heq. by rewrite <- (neg_neg a), Heq, neg_neg. Qed.

Lemma sub_add_sub a b :
  a ∈ E → b ∈ E → add K (sub K a b) (sub K b a) = zero K.
Proof.
  intros Ha Hb. unfold sub.
  pose proof (neg_in K HF a Ha) as Hna.
  pose proof (neg_in K HF b Hb) as Hnb.
  rewrite <- (op_assoc _ _ _ _ field_group a (neg K b) (add K b (neg K a)));
    [|done|done|by apply (add_in K HF)].
  rewrite (op_assoc _ _ _ _ field_group (neg K b) b (neg K a)) by done.
  rewrite (op_inv_l _ _ _ _ field_group b Hb), (op_id_l _ _ _ _ field_group) by done.
  by apply (op_inv_r _ _ _ _ field_group).
Qed.

Lemma neg_sub a b : a ∈ E → b ∈ E → neg K (sub K a b) = sub K b a.
Proof.
  intros Ha Hb. symmetry.
  apply (neg_unique K HF); [by apply (sub_in K HF)..|].
  by apply sub_add_sub.
Qed.

Lemma mul_cancel_l a b c :
  a ∈ E → b ∈ E → c ∈ E → c ≠ zero K → mul K c a = mul K c b → a = b.
Proof.
  intros Ha Hb Hc Hnz Heq.
  apply (mul_cancel_r K HF a b c); [done..|].
  by rewrite (mul_comm K HF a c), (mul_comm K HF b c).
Qed.

Lemma pow_nonzero_all a : 0 ≤ a → pow K x a ≠ zero K.
Proof.
  intros Ha. rewrite (pow_mod K HF a Ha).
  pose proof half_positive.
  apply (pow_nonzero K HF). apply Z.mod_pos_bound. lia.
Qed.

(** [x**h] is [-1]: its square is [1] and it is not [1]. *)
Lemma half_power : pow K x h = neg K (one K).
Proof.
  pose proof half_positive as Hh.
  set (y := pow K x h).
  assert (Hy : y ∈ E) by (apply (pow_in K HF); lia).
  pose proof (one_in K HF) as H1.
  assert (Hyy : mul K y y = one K).
  { unfold y. rewrite <- (pow_add K HF) by lia.
    rewrite <- (pow_order K HF). f_equal. lia. }
  assert (Hprod : mul K (sub K y (one K)) (add K y (one K)) = zero K).
  { rewrite (mul_add_distr K HF); [|by apply (sub_in K HF)|done..].
    rewrite (mul_one_r K HF) by (by apply (sub_in K HF)).
    rewrite (mul_comm K HF (sub K y (one K)) y);
      [|by apply (sub_in K HF)|done].
    rewrite (mul_sub_distr K HF) by done.
    rewrite Hyy, (mul_one_r K HF) by done.
    by apply sub_add_sub. }
  apply (mul_integral K HF) in Hprod as [Hminus|Hplus];
    [| |by apply (sub_in K HF)|by apply (add_in K HF)].
  - exfalso. apply (proj1 (sub_eq_zero K HF y (one K) Hy H1)) in Hminus.
    unfold y in Hminus. rewrite <- (pow_0 K HF) in Hminus.
    apply (pow_inj K HF) in Hminus; lia.
  - apply (neg_unique K HF) in Hplus; [|done..].
    rewrite Hplus. by rewrite neg_neg.
Qed.

Lemma neg_power b : 0 ≤ b → neg K (pow K x b) = pow K x (b + h).
Proof.
  intros Hb. pose proof half_positive as Hh.
  rewrite (pow_add K HF) by lia. rewrite half_power.
  rewrite (mul_neg_r K HF); [|apply (pow_in K HF); lia|apply (one_in K HF)].
  rewrite (mul_one_r K HF); [done|]. apply (pow_in K HF); lia.
Qed.

(** *** The squares *)

Lemma elem_of_squares y :
  y ∈ squares ↔ ∃ s, 0 ≤ s < h ∧ y = pow K x (2 * s).
Proof.
  rewrite elem_of_coset_block. by setoid_rewrite Z.add_0_l.
Qed.

Lemma even_power_square c : 0 ≤ c → pow K x (2 * c) ∈ squares.
Proof.
  intros Hc. pose proof half_positive as Hh.
  apply elem_of_squares. exists (c `mod` h).
  split; [apply Z.mod_pos_bound; lia|].
  rewrite (pow_mod K HF) by lia.
  f_equal. rewrite Hq.
  replace (2 * h + 1 - 1) with (2 * h) by lia.
  apply Zmult_mod_distr_l.
Qed.

Lemma squares_in y : y ∈ squares → y ∈ E.
Proof.
  intros (s & Hs & ->)%elem_of_squares. apply (pow_in K HF). lia.
Qed.

Lemma squares_NoDup : NoDup squares.
Proof.
  unfold coset_block, xrange.
  apply NoDup_fmap_2_strong; [|apply NoDup_seqZ].
  intros s s' Hs%elem_of_seqZ Hs'%elem_of_seqZ Heq.
  apply (pow_inj K HF) in Heq; lia.
Qed.

Lemma squares_length : Z.of_nat (length squares) = h.
Proof.
  pose proof half_positive.
  unfold coset_block, xrange. rewrite length_fmap, length_seqZ. lia.
Qed.

Lemma squares_coerce : coerce K <$> squares = squares.
Proof. apply (coset_block_coerce K HF); lia. Qed.

(** Multiplication by a square permutes the squares. *)
Lemma squares_times_square c :
  0 ≤ c → mul K (pow K x (2 * c)) <$> squares ≡ₚ squares.
Proof.
  intros Hc. pose proof half_positive as Hh.
  assert (Hs : pow K x (2 * c) ∈ E) by (apply (pow_in K HF); lia).
  apply NoDup_Permutation.
  - apply NoDup_fmap_2_strong; [|apply squares_NoDup].
    intros a b Ha%squares_in Hb%squares_in Heq.
    apply (mul_cancel_l a b (pow K x (2 * c))); [done..| |done].
    apply pow_nonzero_all. lia.
  - apply squares_NoDup.
  - intros y. rewrite list_elem_of_fmap. split.
    + intros (a & -> & (s & Hs' & ->)%elem_of_squares).
      rewrite <- (pow_add K HF) by lia.
      replace (2 * c + 2 * s) with (2 * (c + s)) by lia.
      apply even_power_square. lia.
    + intros (s & Hs' & ->)%elem_of_squares.
      exists (pow K x (2 * ((s - c) `mod` h))). split.
      * rewrite <- (pow_add K HF);
          [|lia|pose proof (Z.mod_pos_bound (s - c) h); lia].
        rewrite (pow_mod K HF (2 * s)) by lia.
        rewrite (pow_mod K HF (2 * c + _));
          [|pose proof (Z.mod_pos_bound (s - c) h); lia].
        f_equal. rewrite Hq.
        replace (2 * h + 1 - 1) with (2 * h) by lia.
        replace (2 * c + 2 * ((s - c) `mod` h))
          with (2 * (c + (s - c) `mod` h)) by lia.
        rewrite !Zmult_mod_distr_l. f_equal.
        rewrite Zplus_mod_idemp_r. f_equal. lia.
      * apply even_power_square. apply Z.mod_pos_bound. lia.
Qed.

(** *** The differences of the squares *)

Lemma diffs_in g : g ∈ diffs → g ∈ E.
Proof.
  intros (i & j & a & b & _ & Ha & Hb & ->)%elem_of_block_differences.
  apply (sub_in K HF); apply squares_in; by eapply list_elem_of_lookup_2.
Qed.

Lemma diffs_nonzero : zero K ∉ diffs.
Proof.
  apply (block_NoDup K (zero K) (add K) (neg K) field_group squares).
  - intros y. apply squares_in.
  - apply squares_NoDup.
Qed.

Lemma diffs_length :
  Z.of_nat (length diffs) = h * (h - 1).
Proof. by rewrite length_block_differences, squares_length. Qed.

(** The number of ways to write [g] as a difference of two squares does
    not change when [g] is multiplied by a square... *)
Lemma occurrences_times_square c g :
  0 ≤ c → g ∈ E →
  occurrences (mul K (pow K x (2 * c)) g) diffs = occurrences g diffs.
Proof.
  intros Hc Hg.
  assert (Hs : pow K x (2 * c) ∈ E) by (apply (pow_in K HF); lia).
  rewrite <- (occurrences_fmap_inj (mul K (pow K x (2 * c))) g diffs).
  2:{ intros a Ha%diffs_in Heq.
      apply (mul_cancel_l a g (pow K x (2 * c))); [done..| |done].
      apply pow_nonzero_all. lia. }
  apply occurrences_Permutation.
  rewrite fmap_block_differences.
  2:{ intros a b Ha%squares_in Hb%squares_in.
      change (add K a (neg K b)) with (sub K a b).
      rewrite (mul_sub_distr K HF) by done. done. }
  symmetry. apply block_differences_Permutation.
  by apply squares_times_square.
Qed.

(** ... nor when [g] is replaced by [-g]. *)
Lemma occurrences_neg g :
  g ∈ E → occurrences (neg K g) diffs = occurrences g diffs.
Proof.
  intros Hg.
  rewrite <- (occurrences_fmap_inj (neg K) g diffs).
  2:{ intros a Ha%diffs_in Heq. by apply neg_inj. }
  apply occurrences_Permutation.
  unfold block_differences.
  rewrite fmap_bind_list.
  rewrite (bind_swap (seq 0 (length squares)) (seq 0 (length squares))).
  apply bind_perm_pointwise. intros i _.
  rewrite fmap_bind_list.
  apply bind_perm_pointwise. intros j _.
  destruct (decide (i = j)) as [->|Hij].
  { by rewrite decide_True. }
  rewrite decide_False by (by intros ->).
  destruct (squares !! i) as [a|] eqn:Ha, (squares !! j) as [b|] eqn:Hb;
    simpl; try done.
  apply list_elem_of_lookup_2, squares_in in Ha, Hb.
  change (add K b (neg K a)) with (sub K b a).
  change (add K a (neg K b)) with (sub K a b).
  by rewrite neg_sub.
Qed.

(** Every non-zero element is written as a difference of two squares in
    as many ways as [1] is. *)
Lemma occurrences_all_equal g :
  g ∈ E → g ≠ zero K →
  occurrences g diffs = occurrences (one K) diffs.
Proof.
  intros Hg Hnz. pose proof half_positive as Hh.
  pose proof (one_in K HF) as H1.
  assert (Heven : ∀ c, 0 ≤ c →
            occurrences (pow K x (2 * c)) diffs = occurrences (one K) diffs).
  { intros c Hc.
    rewrite <- (occurrences_times_square c (one K)) by done.
    rewrite (mul_one_r K HF); [done|]. apply (pow_in K HF). lia. }
  destruct (pow_all K HF g Hg Hnz) as (a & Ha & ->).
  pose proof (Z.div_mod a 2 ltac:(lia)) as Hdm.
  pose proof (Z.mod_pos_bound a 2 ltac:(lia)) as Hr.
  assert (Hc : 0 ≤ a `div` 2) by (apply Z.div_pos; lia).
  destruct (decide (a `mod` 2 = 0)) as [Ha0|Ha1].
  - rewrite Hdm, Ha0, Z.add_0_r. by apply Heven.
  - rewrite <- occurrences_neg by (apply (pow_in K HF); lia).
    rewrite neg_power by lia.
    pose proof (Z.div_mod h 2 ltac:(lia)) as Hdh.
    assert (Hch : 0 ≤ h `div` 2) by (apply Z.div_pos; lia).
    replace (a + h) with (2 * (a `div` 2 + h `div` 2 + 1)) by lia.
    apply Heven. lia.
Qed.

(** The squares form a difference set: the verifier accepts them. *)
Lemma squares_verified l :
  l * (cardinality K - 1) = h * (h - 1) →
  is_difference_family K [squares] (Some (cardinality K)) (Some h) (Some l)
  = Ret true.
Proof.
  intros Hl. pose proof half_positive as Hh.
  assert (Hdiffs : differences K (add K) (neg K) [squares] = diffs).
  { unfold differences. csimpl. by rewrite squares_coerce, app_nil_r. }
  assert (Hco : ∀ d y, d ∈ [squares] → y ∈ d → coerce K y ∈ E).
  { intros d y ->%list_elem_of_singleton Hy%squares_in.
    by rewrite (field_coerce K HF). }
  destruct (verifier_bounded_counts K (zero K) (add K) (neg K) field_group
              [squares] (cardinality K) h l Hco eq_refl) as [_ Hiff].
  { by intros d ->%list_elem_of_singleton; apply squares_length. }
  { simpl. lia. }
  apply Hiff. rewrite Hdiffs. split; [apply diffs_nonzero|].
  intros g Hg.
  assert (HgE : g ∈ E) by (by apply diffs_in).
  assert (Hgz : g ≠ zero K) by (intros ->; by apply diffs_nonzero).
  rewrite (occurrences_all_equal g HgE Hgz).
  set (n := occurrences (one K) diffs).
  pose proof (sum_occurrences E diffs (elements_NoDup _ _ _ _ field_group) diffs_in)
    as Hsum.
  rewrite (sum_constant_but_one _ n (zero K)) in Hsum.
  - pose proof diffs_length as Hlen.
    pose proof (cardinality_eq _ _ _ _ field_group) as Hcard.
    assert (Hn : Z.of_nat n * (cardinality K - 1) = h * (h - 1)).
    { rewrite <- Hlen, <- Hsum. rewrite Hcard. nia. }
    assert (Z.of_nat n = l); [|lia].
    apply (Z.mul_cancel_r _ _ (cardinality K - 1)); [lia|]. lia.
  - apply (elements_NoDup _ _ _ _ field_group).
  - apply (zero_in K HF).
  - apply occurrences_not_in, diffs_nonzero.
  - intros y Hy Hne. by apply occurrences_all_equal.
Qed.

(** The coset generator called as the constructor calls it yields the
    squares. *)
Lemma cyclotomic_cosets_squares :
  cyclotomic_cosets K 2 (Some [one K]) false = Ret [squares].
Proof.
  pose proof half_positive as Hh.
  unfold cyclotomic_cosets, py_mod, py_floordiv. simpl.
  rewrite Hq.
  replace ((2 * h + 1) `mod` 2) with 1
    by (rewrite Z.add_comm, Z.mul_comm, Z_mod_plus_full; reflexivity).
  simpl.
  replace ((2 * h + 1 - 1) `div` 2) with h
    by (replace (2 * h + 1 - 1) with (h * 2) by lia;
        by rewrite Z.div_mul).
  do 2 f_equal. unfold coset_block.
  apply list_fmap_ext. intros _ s Hs%list_elem_of_lookup_2.
  unfold xrange in Hs. apply elem_of_seqZ in Hs.
  rewrite <- (pow_0 K HF).
  apply (coset_entry K HF); lia.
Qed.

End Paley.

Section PaleyBranch.

Context {A : Type} `{Countable A}.
Variable is_zero : A -> bool.
Variable GF : Z -> Parent A.
Variable is_prime_power : Z -> bool.
Variable is_square : Z -> bool.
Variable DF_constructions : gmap (Z * Z * Z) (Parent A * list (list A)).

(** X20. The first single-block branch builds the Paley difference sets:
    for a prime power [v >= 7] with [v % 4 == 3], [k = (v-1)/2] and
    [l*(v-1) = k*(k-1)] (that is [l = (v-3)/4]), outside the table, the
    existence query answers [True] and the construction returns [GF(v)]
    with the single block of the squares [x**0, x**2, ..., x**(2*(k-1))],
    which the verifier accepts as a [(v, k, l)]-difference family: every
    non-zero element of the field is a difference of two squares in
    exactly [l] ways. *)
Theorem paley_difference_set v k l check :
  is_prime_power v = true →
  IsField (GF v) → cardinality (GF v) = v →
  v `mod` 4 = 3 → 7 ≤ v → k = (v - 1) `div` 2 →
  l * (v - 1) = k * (k - 1) →
  DF_constructions !! (v, k, l) = None →
  difference_family is_zero GF is_prime_power is_square DF_constructions
    v k l true check = Ret (VBool true) ∧
  difference_family is_zero GF is_prime_power is_square DF_constructions
    v k l false check = Ret (VPair (GF v) [coset_block (GF v) 2 k 0]) ∧
  is_difference_family (GF v) [coset_block (GF v) 2 k 0]
    (Some v) (Some k) (Some l) = Ret true.
Proof.
  intros Hpp HF Hq Hv4 Hv7 Hk Hl Hdb.
  pose proof (Z.div_mod v 4 ltac:(lia)) as Hdm. rewrite Hv4 in Hdm.
  assert (Hk' : k = 2 * (v `div` 4) + 1).
  { rewrite Hk. rewrite Hdm at 1.
    replace (4 * v `div` 4 + 3 - 1) with ((2 * (v `div` 4) + 1) * 2) by lia.
    by rewrite Z.div_mul. }
  assert (Hvk : v = 2 * k + 1) by lia.
  assert (Hk3 : 3 ≤ k) by lia.
  assert (Hodd : k `mod` 2 = 1).
  { rewrite Hk', Z.add_comm, Z.mul_comm, Z_mod_plus_full. reflexivity. }
  assert (Hcard : cardinality (GF v) = 2 * k + 1) by lia.
  assert (Hdispatch : ∀ existence,
    difference_family is_zero GF is_prime_power is_square DF_constructions
      v k l existence check =
    if existence then Ret (VBool true)
    else D ← cyclotomic_cosets (GF v) 2 (Some [one (GF v)]) false;
         Ret (VPair (GF v) D)).
  { intros existence. unfold difference_family, py_mod, py_floordiv.
    rewrite !decide_False by nia. simpl.
    rewrite Hl, Z_mod_same_full, Z_div_same_full by nia.
    rewrite decide_False by (by intros ?). rewrite Hdb. simpl.
    rewrite Hpp. unfold prime_power_case.
    rewrite decide_False by nia. rewrite decide_True by done.
    unfold single_block.
    rewrite !bool_decide_eq_true_2 by done. simpl.
    destruct existence; [done|].
    by destruct (cyclotomic_cosets (GF v) 2 (Some [one (GF v)]) false). }
  split_and!.
  - by rewrite Hdispatch.
  - rewrite Hdispatch.
    by rewrite (cyclotomic_cosets_squares (GF v) HF k Hcard).
  - pose proof (squares_verified (GF v) HF k Hcard Hodd l) as Hver.
    rewrite Hq in Hver. by apply Hver.
Qed.

End PaleyBranch.

(** X20 at (v,k,l) = (7,3,1): the squares 1, 2, 4 of GF(7). *)
Lemma paley_difference_set_witness :
  difference_family Z_is_zero GFp Z_is_prime_power Z_is_square ∅
    7 3 1 true true = Ret (VBool true) ∧
  difference_family Z_is_zero GFp Z_is_prime_power Z_is_square ∅
    7 3 1 false true = Ret (VPair (GFp 7) [coset_block (GFp 7) 2 3 0]) ∧
  is_difference_family (GFp 7) [coset_block (GFp 7) 2 3 0]
    (Some 7) (Some 3) (Some 1) = Ret true.
Proof.
  apply (paley_difference_set Z_is_zero GFp Z_is_prime_power Z_is_square ∅
           7 3 1 true).
  - vm_compute. reflexivity.
  - rewrite GFp_7. apply GF7_is_field.
  - reflexivity.
  - reflexivity.
  - lia.
  - reflexivity.
  - reflexivity.
  - apply lookup_empty.
Defined.
